(** * kyme: the manifest editor's client-side store, API client and save/apply handlers

    A shallow embedding of the JavaScript sources
    - [api.js]            ([fetchApi] and the endpoint table),
    - [useEditorStore.js] (the zustand store: load, update, delete, move, apply),
    - [PropertyEditor.jsx] ([handleSave]),
    - [App.jsx]           ([handleApply] and the Apply button),
    followed by the properties the specification states about them.

    Conventions of the embedding.
    - An [await]ed promise is its outcome: [inl thrown] when it rejects,
      [inr value] when it resolves.  A [try]/[catch] is a [match] on it.
    - The store is passed explicitly: every action maps the state found
      when the action resumes to the state it leaves.
    - JavaScript numbers are only stored, compared and printed by this
      code; they are integers ([Z]) here. *)

From Stdlib Require Import ZArith String Ascii List Bool Lia DecimalString.
From stdpp Require Import base option list strings gmap fin_maps sorting.

Local Open Scope string_scope.

#[local] Set Warnings "-register-all".

(** ** JavaScript values *)

Module Js.

(** A JSON-like JavaScript value.  Objects keep their properties in
    enumeration order, without repeated keys. *)
Inductive JsVal : Type :=
| JUndefined
| JNull
| JBool (b : bool)
| JNum (z : Z)
| JStr (s : string)
| JArr (items : list JsVal)
| JObj (props : list (string * JsVal)).

(** What a [throw] carries: an [Error] instance with its message, or any
    other value. *)
Inductive Thrown : Type :=
| ErrorObj (message : string)
| NonError (v : JsVal).

(** The outcome of an awaited promise. *)
Definition Outcome (A : Type) : Type := (Thrown + A)%type.

(** [err instanceof Error ? err.message : fallback] *)
Definition message_or (fallback : string) (err : Thrown) : string :=
  match err with
  | ErrorObj m => m
  | NonError _ => fallback
  end.

(** Truthiness of a string: only the empty string is falsy. *)
Definition truthy_string (s : string) : bool :=
  match s with
  | EmptyString => false
  | String _ _ => true
  end.

(** [a || b] on strings. *)
Definition or_string (a b : string) : string :=
  if truthy_string a then a else b.

(** Truthiness of a value. *)
Definition truthy (v : JsVal) : bool :=
  match v with
  | JUndefined | JNull => false
  | JBool b => b
  | JNum z => negb (z =? 0)%Z
  | JStr s => truthy_string s
  | JArr _ | JObj _ => true
  end.

(** Own property lookup on a property list. *)
Fixpoint lookup_prop (k : string) (props : list (string * JsVal)) : option JsVal :=
  match props with
  | [] => None
  | (k', v) :: rest => if String.eqb k k' then Some v else lookup_prop k rest
  end.

(** [v.k] for the data property names this code reads ([nodes], [id],
    [visual], ...): a [TypeError] on [undefined] and [null], the
    property or [undefined] on an object, [undefined] on anything else. *)
Definition get (k : string) (v : JsVal) : Outcome JsVal :=
  match v with
  | JUndefined | JNull => inl (ErrorObj "Cannot read properties of undefined")
  | JObj props => inr (default JUndefined (lookup_prop k props))
  | _ => inr JUndefined
  end.

(** [o.k = x] on an object's property list: overwrite in place, or append. *)
Fixpoint assign_prop (k : string) (x : JsVal) (props : list (string * JsVal))
  : list (string * JsVal) :=
  match props with
  | [] => [(k, x)]
  | (k', v) :: rest =>
      if String.eqb k k' then (k', x) :: rest else (k', v) :: assign_prop k x rest
  end.

(** *** [JSON.stringify] *)

Definition dquote : ascii := "034"%char.
Definition backslash : ascii := "092"%char.

Definition hex_digit (n : N) : ascii :=
  if (n <? 10)%N then ascii_of_N (48 + n) else ascii_of_N (87 + n).

(** QuoteJSONString, one code unit at a time. *)
Definition escape_char (c : ascii) : string :=
  let n := N_of_ascii c in
  if (n =? 8)%N then "\b"
  else if (n =? 9)%N then "\t"
  else if (n =? 10)%N then "\n"
  else if (n =? 12)%N then "\f"
  else if (n =? 13)%N then "\r"
  else if (n =? 34)%N then String backslash (String dquote EmptyString)
  else if (n =? 92)%N then String backslash (String backslash EmptyString)
  else if (n <? 32)%N then
    "\u00" +:+ String (hex_digit (n / 16)) (String (hex_digit (n mod 16)) EmptyString)
  else String c EmptyString.

Fixpoint escape_chars (s : string) : string :=
  match s with
  | EmptyString => EmptyString
  | String c rest => escape_char c +:+ escape_chars rest
  end.

Definition QuoteJSONString (s : string) : string :=
  String dquote (escape_chars s +:+ String dquote EmptyString).

Definition number_to_string (z : Z) : string :=
  NilZero.string_of_int (Z.to_int z).

Fixpoint join (sep : string) (parts : list string) : string :=
  match parts with
  | [] => EmptyString
  | [p] => p
  | p :: rest => p +:+ sep +:+ join sep rest
  end.

(** SerializeJSONProperty: [None] is [undefined] (no text at all). *)
Fixpoint SerializeJSONProperty (v : JsVal) : option string :=
  match v with
  | JUndefined => None
  | JNull => Some "null"
  | JBool true => Some "true"
  | JBool false => Some "false"
  | JNum z => Some (number_to_string z)
  | JStr s => Some (QuoteJSONString s)
  | JArr items =>
      Some ("[" +:+ join ","
              (map (fun x => default "null" (SerializeJSONProperty x)) items)
            +:+ "]")
  | JObj props =>
      Some ("{" +:+ join ","
              ((fix members (ps : list (string * JsVal)) : list string :=
                  match ps with
                  | [] => []
                  | (k, x) :: rest =>
                      match SerializeJSONProperty x with
                      | Some t => (QuoteJSONString k +:+ ":" +:+ t) :: members rest
                      | None => members rest
                      end
                  end) props)
            +:+ "}")
  end.

(** [JSON.stringify(v)] where [v] may be absent ([undefined]). *)
Definition JSON_stringify (v : option JsVal) : option string :=
  v ≫= SerializeJSONProperty.

End Js.
Import Js.

(** ** The API client ([api.js]) *)

Module Api.

Definition API_BASE : string := "/api".

(** The [options] argument of [fetchApi]; [None] is a call without it. *)
Record Options : Type := mkOptions {
  method : option string;
  body : option string;
  headers : gmap string string
}.

(** What [fetch] is called with. *)
Record Request : Type := mkRequest {
  url : string;
  req_method : option string;
  req_body : option string;
  req_headers : gmap string string
}.

(** A received HTTP response, as seen through the accessors [fetchApi]
    uses: [response.ok], [response.statusText], the body text that
    [await response.text()] yields and the outcome of [response.json()]
    (the parsed body, or the rejection when the body is not JSON text). *)
Record Response : Type := mkResponse {
  ok : bool;
  statusText : string;
  text : string;
  json : Outcome JsVal
}.

(** [{...options, headers: {'Content-Type': 'application/json', ...options?.headers}}] *)
Definition request_of (endpoint : string) (options : option Options) : Request :=
  {| url := API_BASE +:+ endpoint;
     req_method := options ≫= method;
     req_body := options ≫= body;
     req_headers :=
       default ∅ (headers <$> options) ∪ {[ "Content-Type" := "application/json" ]} |}.

(** [fetchApi(endpoint, options)], over the network [fetch]. *)
Definition fetchApi (fetch : Request → Outcome Response)
    (endpoint : string) (options : option Options) : Outcome JsVal :=
  match fetch (request_of endpoint options) with
  | inl rejected => inl rejected
  | inr response =>
      if negb (ok response) then
        let error := text response in
        inl (ErrorObj (or_string error (statusText response)))
      else json response
  end.

(** [apply.apply(commitMessage, createPR, prBranch)]: the POST body is
    [JSON.stringify({ commitMessage, createPR, prBranch })]. *)
Definition apply_body (commitMessage : string) (createPR : bool)
    (prBranch : option string) : JsVal :=
  JObj [("commitMessage", JStr commitMessage);
        ("createPR", JBool createPR);
        ("prBranch", from_option JStr JUndefined prBranch)].

Definition apply_apply (fetch : Request → Outcome Response)
    (commitMessage : string) (createPR : bool) (prBranch : option string)
  : Outcome JsVal :=
  fetchApi fetch "/apply"
    (Some {| method := Some "POST";
             body := SerializeJSONProperty (apply_body commitMessage createPR prBranch);
             headers := ∅ |}).

End Api.

(** ** The graph model (the [GraphModel] interface of the README) *)

Record Visual : Type := mkVisual {
  visual_x : Z;
  visual_y : Z;
  visual_width : Z;
  visual_height : Z;
  visual_icon : string
}.

Record GraphNode : Type := mkNode {
  node_id : string;
  node_kind : string;
  node_name : string;
  node_namespace : string;
  node_filePath : string;
  node_labels : list (string * string);
  node_spec : JsVal;
  node_visual : Visual;
  (* kind-specific, optional *)
  node_replicas : option Z;
  node_containers : option (list JsVal);
  node_ports : option (list JsVal);
  node_selector : option (list (string * string));
  node_serviceType : option string
}.

Inductive RelationType : Type :=
| rel_selector
| rel_service_target
| rel_ingress_backend.

Record GraphEdge : Type := mkEdge {
  edge_from : string;
  edge_to : string;
  edge_relationType : RelationType
}.

Record FileInfo : Type := mkFile {
  file_path : string;
  file_dirty : bool;
  file_nodeIds : list string
}.

Record Graph : Type := mkGraph {
  nodes : list GraphNode;
  edges : list GraphEdge;
  files : gmap string FileInfo
}.

Record ValidationError : Type := mkValidationError {
  err_nodeId : string;
  err_severity : string;
  err_message : string
}.

Definition with_nodes (ns : list GraphNode) (g : Graph) : Graph :=
  {| nodes := ns; edges := edges g; files := files g |}.

Definition with_edges (es : list GraphEdge) (g : Graph) : Graph :=
  {| nodes := nodes g; edges := es; files := files g |}.

(** [node.visual.x = x; node.visual.y = y] *)
Definition move_to (px py : Z) (n : GraphNode) : GraphNode :=
  {| node_id := node_id n; node_kind := node_kind n; node_name := node_name n;
     node_namespace := node_namespace n; node_filePath := node_filePath n;
     node_labels := node_labels n; node_spec := node_spec n;
     node_visual :=
       {| visual_x := px; visual_y := py;
          visual_width := visual_width (node_visual n);
          visual_height := visual_height (node_visual n);
          visual_icon := visual_icon (node_visual n) |};
     node_replicas := node_replicas n; node_containers := node_containers n;
     node_ports := node_ports n; node_selector := node_selector n;
     node_serviceType := node_serviceType n |}.

(** [Object.values(files)] *)
Definition Object_values (m : gmap string FileInfo) : list FileInfo :=
  (map_to_list m).*2.

(** ** The editor store ([useEditorStore.js]) *)

(** Typed views of the response bodies the store destructures. *)
Record LoadResponse : Type := mkLoadResponse { load_graph : Graph }.
Record UpdateResponse : Type := mkUpdateResponse {
  update_graph : Graph;
  update_errors : list ValidationError
}.
Record DeleteResponse : Type := mkDeleteResponse {
  delete_errors : list ValidationError
}.
Record ValidateResponse : Type := mkValidateResponse {
  validate_errors : list ValidationError
}.

Record State : Type := mkState {
  graph : option Graph;
  selectedNodeId : option string;
  selectedFile : option string;
  isAuthenticated : bool;
  user : option JsVal;
  repositories : list JsVal;
  selectedRepo : option string;
  selectedBranch : option string;
  repoPath : string;
  validationErrors : list ValidationError;
  isLoading : bool;
  error : option string;
  sidebarOpen : bool
}.

(** The state [create] starts from. *)
Definition initial_state : State :=
  {| graph := None; selectedNodeId := None; selectedFile := None;
     isAuthenticated := false; user := None; repositories := [];
     selectedRepo := None; selectedBranch := None; repoPath := EmptyString;
     validationErrors := []; isLoading := false; error := None;
     sidebarOpen := true |}.

(** [set({ field: v })], one field at a time; a [set] of several fields
    is the composition of these. *)
Definition set_graph (v : option Graph) (st : State) : State :=
  {| graph := v; selectedNodeId := selectedNodeId st; selectedFile := selectedFile st;
     isAuthenticated := isAuthenticated st; user := user st;
     repositories := repositories st; selectedRepo := selectedRepo st;
     selectedBranch := selectedBranch st; repoPath := repoPath st;
     validationErrors := validationErrors st; isLoading := isLoading st;
     error := error st; sidebarOpen := sidebarOpen st |}.

Definition set_selectedNodeId (v : option string) (st : State) : State :=
  {| graph := graph st; selectedNodeId := v; selectedFile := selectedFile st;
     isAuthenticated := isAuthenticated st; user := user st;
     repositories := repositories st; selectedRepo := selectedRepo st;
     selectedBranch := selectedBranch st; repoPath := repoPath st;
     validationErrors := validationErrors st; isLoading := isLoading st;
     error := error st; sidebarOpen := sidebarOpen st |}.

Definition set_selectedFile (v : option string) (st : State) : State :=
  {| graph := graph st; selectedNodeId := selectedNodeId st; selectedFile := v;
     isAuthenticated := isAuthenticated st; user := user st;
     repositories := repositories st; selectedRepo := selectedRepo st;
     selectedBranch := selectedBranch st; repoPath := repoPath st;
     validationErrors := validationErrors st; isLoading := isLoading st;
     error := error st; sidebarOpen := sidebarOpen st |}.

Definition set_selectedRepo (v : option string) (st : State) : State :=
  {| graph := graph st; selectedNodeId := selectedNodeId st;
     selectedFile := selectedFile st;
     isAuthenticated := isAuthenticated st; user := user st;
     repositories := repositories st; selectedRepo := v;
     selectedBranch := selectedBranch st; repoPath := repoPath st;
     validationErrors := validationErrors st; isLoading := isLoading st;
     error := error st; sidebarOpen := sidebarOpen st |}.

Definition set_selectedBranch (v : option string) (st : State) : State :=
  {| graph := graph st; selectedNodeId := selectedNodeId st;
     selectedFile := selectedFile st;
     isAuthenticated := isAuthenticated st; user := user st;
     repositories := repositories st; selectedRepo := selectedRepo st;
     selectedBranch := v; repoPath := repoPath st;
     validationErrors := validationErrors st; isLoading := isLoading st;
     error := error st; sidebarOpen := sidebarOpen st |}.

Definition set_repoPath (v : string) (st : State) : State :=
  {| graph := graph st; selectedNodeId := selectedNodeId st;
     selectedFile := selectedFile st;
     isAuthenticated := isAuthenticated st; user := user st;
     repositories := repositories st; selectedRepo := selectedRepo st;
     selectedBranch := selectedBranch st; repoPath := v;
     validationErrors := validationErrors st; isLoading := isLoading st;
     error := error st; sidebarOpen := sidebarOpen st |}.

Definition set_validationErrors (v : list ValidationError) (st : State) : State :=
  {| graph := graph st; selectedNodeId := selectedNodeId st;
     selectedFile := selectedFile st;
     isAuthenticated := isAuthenticated st; user := user st;
     repositories := repositories st; selectedRepo := selectedRepo st;
     selectedBranch := selectedBranch st; repoPath := repoPath st;
     validationErrors := v; isLoading := isLoading st;
     error := error st; sidebarOpen := sidebarOpen st |}.

Definition set_isLoading (v : bool) (st : State) : State :=
  {| graph := graph st; selectedNodeId := selectedNodeId st;
     selectedFile := selectedFile st;
     isAuthenticated := isAuthenticated st; user := user st;
     repositories := repositories st; selectedRepo := selectedRepo st;
     selectedBranch := selectedBranch st; repoPath := repoPath st;
     validationErrors := validationErrors st; isLoading := v;
     error := error st; sidebarOpen := sidebarOpen st |}.

Definition set_error (v : option string) (st : State) : State :=
  {| graph := graph st; selectedNodeId := selectedNodeId st;
     selectedFile := selectedFile st;
     isAuthenticated := isAuthenticated st; user := user st;
     repositories := repositories st; selectedRepo := selectedRepo st;
     selectedBranch := selectedBranch st; repoPath := repoPath st;
     validationErrors := validationErrors st; isLoading := isLoading st;
     error := v; sidebarOpen := sidebarOpen st |}.

Definition set_sidebarOpen (v : bool) (st : State) : State :=
  {| graph := graph st; selectedNodeId := selectedNodeId st;
     selectedFile := selectedFile st;
     isAuthenticated := isAuthenticated st; user := user st;
     repositories := repositories st; selectedRepo := selectedRepo st;
     selectedBranch := selectedBranch st; repoPath := repoPath st;
     validationErrors := validationErrors st; isLoading := isLoading st;
     error := error st; sidebarOpen := v |}.

(** Two nodes that agree on every field but [visual.x] and [visual.y]. *)
Definition same_but_position (n n' : GraphNode) : Prop :=
  node_id n' = node_id n ∧ node_kind n' = node_kind n
  ∧ node_name n' = node_name n ∧ node_namespace n' = node_namespace n
  ∧ node_filePath n' = node_filePath n ∧ node_labels n' = node_labels n
  ∧ node_spec n' = node_spec n
  ∧ visual_width (node_visual n') = visual_width (node_visual n)
  ∧ visual_height (node_visual n') = visual_height (node_visual n)
  ∧ visual_icon (node_visual n') = visual_icon (node_visual n)
  ∧ node_replicas n' = node_replicas n ∧ node_containers n' = node_containers n
  ∧ node_ports n' = node_ports n ∧ node_selector n' = node_selector n
  ∧ node_serviceType n' = node_serviceType n.

(** Two states that agree on every field but [graph]. *)
Definition same_but_graph (st st' : State) : Prop :=
  selectedNodeId st' = selectedNodeId st ∧ selectedFile st' = selectedFile st
  ∧ isAuthenticated st' = isAuthenticated st ∧ user st' = user st
  ∧ repositories st' = repositories st ∧ selectedRepo st' = selectedRepo st
  ∧ selectedBranch st' = selectedBranch st ∧ repoPath st' = repoPath st
  ∧ validationErrors st' = validationErrors st ∧ isLoading st' = isLoading st
  ∧ error st' = error st ∧ sidebarOpen st' = sidebarOpen st.

(** Each action takes the outcome of the request it awaits as its first
    argument and the state it resumes in as its last. *)

Definition loadGraph (getGraph : Outcome Graph) (st : State) : State :=
  let st := set_error None (set_isLoading true st) in
  match getGraph with
  | inr g => set_isLoading false (set_graph (Some g) st)
  | inl err =>
      set_isLoading false (set_error (Some (message_or "Failed to load graph" err)) st)
  end.

Definition loadFromGitHub (load : Outcome LoadResponse)
    (repo branch path : string) (st : State) : State :=
  let st := set_error None (set_isLoading true st) in
  match load with
  | inr r =>
      set_isLoading false
        (set_repoPath path
           (set_selectedBranch (Some branch)
              (set_selectedRepo (Some repo)
                 (set_graph (Some (load_graph r)) st))))
  | inl err =>
      set_isLoading false
        (set_error (Some (message_or "Failed to load manifests" err)) st)
  end.

Definition selectNode (nodeId : option string) (st : State) : State :=
  set_selectedNodeId nodeId st.

Definition selectFile (filePath : option string) (st : State) : State :=
  set_selectedFile filePath st.

Definition updateNode (update : Outcome UpdateResponse)
    (nodeId : string) (updates : list (string * JsVal)) (st : State) : State :=
  match update with
  | inr r =>
      set_validationErrors (update_errors r) (set_graph (Some (update_graph r)) st)
  | inl err => set_error (Some (message_or "Failed to update node" err)) st
  end.

Definition deleteNode (delete : Outcome DeleteResponse)
    (nodeId : string) (st : State) : State :=
  match delete with
  | inr r =>
      match graph st with
      | Some graph =>
          let graph :=
            with_nodes (filter (λ n, node_id n ≠ nodeId) (nodes graph)) graph in
          let graph :=
            with_edges
              (filter (λ e, edge_from e ≠ nodeId ∧ edge_to e ≠ nodeId) (edges graph))
              graph in
          set_selectedNodeId None
            (set_validationErrors (delete_errors r) (set_graph (Some graph) st))
      | None => st
      end
  | inl err => set_error (Some (message_or "Failed to delete node" err)) st
  end.

(** [find] yields the first node with the id; the assignments to its
    [visual] happen in place, at its index in [graph.nodes]. *)
Definition updateNodePosition (nodeId : string) (px py : Z) (st : State) : State :=
  match graph st with
  | None => st
  | Some graph =>
      match list_find (λ n, node_id n = nodeId) (nodes graph) with
      | Some (i, node) =>
          set_graph (Some (with_nodes (<[i := move_to px py node]> (nodes graph)) graph)) st
      | None => st
      end
  end.

Definition validate (validateCurrent : Outcome ValidateResponse) (st : State) : State :=
  match validateCurrent with
  | inr r => set_validationErrors (validate_errors r) st
  | inl err => set_error (Some (message_or "Validation failed" err)) st
  end.

(** [applyChanges] returns the new state and what the caller's [await]
    sees: the apply result, or the re-thrown failure.  [loadGraph] never
    throws, so only the apply call reaches the [catch]. *)
Definition applyChanges (apply : Outcome JsVal) (getGraph : Outcome Graph)
    (commitMessage : string) (createPR : bool) (prBranch : option string)
    (st : State) : State * Outcome JsVal :=
  let st := set_error None (set_isLoading true st) in
  match apply with
  | inr result =>
      let st := loadGraph getGraph st in
      (set_isLoading false st, inr result)
  | inl err =>
      (set_isLoading false
         (set_error (Some (message_or "Failed to apply changes" err)) st),
       inl err)
  end.

Definition toggleSidebar (st : State) : State :=
  set_sidebarOpen (negb (sidebarOpen st)) st.

Definition getNodesForFile (filePath : string) (st : State) : list GraphNode :=
  match graph st with
  | None => []
  | Some graph => filter (λ n, node_filePath n = filePath) (nodes graph)
  end.

Definition getDirtyFiles (st : State) : list FileInfo :=
  match graph st with
  | None => []
  | Some graph => filter (λ f, file_dirty f = true) (Object_values (files graph))
  end.

(** ** Saving an edited node ([PropertyEditor.jsx]) *)

Module PropertyEditor.

(** A [Record<string, string>] as a value. *)
Definition record_value (r : list (string * string)) : JsVal :=
  JObj (map (λ kv, (kv.1, JStr kv.2)) r).

(** The calls [handleSave] makes, in order. *)
Inductive Call : Type :=
| CallUpdateNode (nodeId : string) (updates : list (string * JsVal))
| CallOnClose.

(** [updates.k = v] on the object under construction: [handleSave]
    assigns each key at most once, so the property is appended. *)
Definition assign (k : string) (v : JsVal) (updates : list (string * JsVal))
  : list (string * JsVal) :=
  updates ++ [(k, v)].

(** The [updates] object [handleSave] builds from the [node] prop and
    the component's [localNode] state. *)
Definition build_updates (node localNode : GraphNode) : list (string * JsVal) :=
  let updates := [] in
  let updates :=
    if decide (node_name localNode ≠ node_name node)
    then assign "name" (JStr (node_name localNode)) updates else updates in
  let updates :=
    if decide (node_namespace localNode ≠ node_namespace node)
    then assign "namespace" (JStr (node_namespace localNode)) updates else updates in
  let updates :=
    if decide (JSON_stringify (Some (record_value (node_labels localNode)))
               ≠ JSON_stringify (Some (record_value (node_labels node))))
    then assign "labels" (record_value (node_labels localNode)) updates else updates in
  let updates :=
    if decide (node_replicas localNode ≠ node_replicas node)
    then assign "replicas" (from_option JNum JUndefined (node_replicas localNode)) updates
    else updates in
  let updates :=
    if decide (node_serviceType localNode ≠ node_serviceType node)
    then assign "serviceType" (from_option JStr JUndefined (node_serviceType localNode)) updates
    else updates in
  let updates :=
    match node_selector localNode with
    | Some sel =>
        if decide (JSON_stringify (Some (record_value sel))
                   ≠ JSON_stringify (record_value <$> node_selector node))
        then assign "selector" (record_value sel) updates else updates
    | None => updates
    end in
  let updates :=
    match node_containers localNode with
    | Some cs =>
        if decide (JSON_stringify (Some (JArr cs))
                   ≠ JSON_stringify (JArr <$> node_containers node))
        then assign "containers" (JArr cs) updates else updates
    | None => updates
    end in
  let updates :=
    match node_ports localNode with
    | Some ps =>
        if decide (JSON_stringify (Some (JArr ps))
                   ≠ JSON_stringify (JArr <$> node_ports node))
        then assign "ports" (JArr ps) updates else updates
    | None => updates
    end in
  updates.

(** The fields [handleSave] compares, and their property names. *)
Inductive Field : Type :=
| Name | Namespace | Labels | Replicas | ServiceType
| Selector | Containers | Ports.

Definition key (f : Field) : string :=
  match f with
  | Name => "name"
  | Namespace => "namespace"
  | Labels => "labels"
  | Replicas => "replicas"
  | ServiceType => "serviceType"
  | Selector => "selector"
  | Containers => "containers"
  | Ports => "ports"
  end.

(** [n[field]], [None] when the property is [undefined]. *)
Definition field_value (f : Field) (n : GraphNode) : option JsVal :=
  match f with
  | Name => Some (JStr (node_name n))
  | Namespace => Some (JStr (node_namespace n))
  | Labels => Some (record_value (node_labels n))
  | Replicas => JNum <$> node_replicas n
  | ServiceType => JStr <$> node_serviceType n
  | Selector => record_value <$> node_selector n
  | Containers => JArr <$> node_containers n
  | Ports => JArr <$> node_ports n
  end.

(** The fields compared through their [JSON.stringify] text, and those
    skipped when the edited value is absent. *)
Definition compared_by_text (f : Field) : bool :=
  match f with
  | Labels | Selector | Containers | Ports => true
  | _ => false
  end.

Definition skipped_when_absent (f : Field) : bool :=
  match f with
  | Selector | Containers | Ports => true
  | _ => false
  end.

(** When [handleSave] puts a field into the payload. *)
Definition sent (f : Field) (node localNode : GraphNode) : Prop :=
  (skipped_when_absent f = true → is_Some (field_value f localNode))
  ∧ (if compared_by_text f
     then JSON_stringify (field_value f localNode)
          ≠ JSON_stringify (field_value f node)
     else field_value f localNode ≠ field_value f node).

(** [Object.keys(updates)] *)
Definition Object_keys (o : list (string * JsVal)) : list string := o.*1.

Definition handleSave (node localNode : GraphNode) : list Call :=
  let updates := build_updates node localNode in
  (if decide (0 < length (Object_keys updates))
   then [CallUpdateNode (node_id node) updates] else [])
  ++ [CallOnClose].

End PropertyEditor.

(** ** Applying changes ([App.jsx]) *)

Module App.

(** *** The text of the commit message

    The message is text the user types.  A string holds it as the bytes
    of its UTF-8 encoding, as the string literals of this file are read
    (a lone surrogate of the JavaScript string as the three bytes of its
    code unit).  [String.prototype.trim] works on characters, so the
    bytes are first cut into characters. *)

(** The white space [trim] strips, by code point: ECMAScript's
    WhiteSpace (TAB, VT, FF, SP, NBSP, ZWNBSP and the other space
    separators U+1680, U+2000 to U+200A, U+202F, U+205F, U+3000) and
    LineTerminator (LF, CR, U+2028, U+2029). *)
Definition is_whitespace (c : N) : bool :=
  ((c =? 0x09) || (c =? 0x0A) || (c =? 0x0B) || (c =? 0x0C) || (c =? 0x0D)
   || (c =? 0x20) || (c =? 0xA0) || (c =? 0x1680)
   || ((0x2000 <=? c) && (c <=? 0x200A))
   || (c =? 0x2028) || (c =? 0x2029) || (c =? 0x202F) || (c =? 0x205F)
   || (c =? 0x3000) || (c =? 0xFEFF))%N.

(** A continuation byte of a UTF-8 sequence. *)
Definition continuation (b : N) : bool := ((0x80 <=? b) && (b <? 0xC0))%N.

(** The UTF-8 sequence of one, two, three or four bytes at the head of
    the bytes, if there is one: its length and its code point. *)
Definition sequence1 (bs : list N) : option (nat * N) :=
  match bs with
  | b0 :: _ => if (b0 <? 0x80)%N then Some (1%nat, b0) else None
  | _ => None
  end.

Definition sequence2 (bs : list N) : option (nat * N) :=
  match bs with
  | b0 :: b1 :: _ =>
      if ((0xC2 <=? b0) && (b0 <? 0xE0))%N && continuation b1
      then Some (2%nat, ((b0 - 0xC0) * 64 + (b1 - 0x80))%N)
      else None
  | _ => None
  end.

Definition sequence3 (bs : list N) : option (nat * N) :=
  match bs with
  | b0 :: b1 :: b2 :: _ =>
      let c := ((b0 - 0xE0) * 4096 + (b1 - 0x80) * 64 + (b2 - 0x80))%N in
      if ((0xE0 <=? b0) && (b0 <? 0xF0))%N && continuation b1 && continuation b2
         && (0x800 <=? c)%N
      then Some (3%nat, c)
      else None
  | _ => None
  end.

Definition sequence4 (bs : list N) : option (nat * N) :=
  match bs with
  | b0 :: b1 :: b2 :: b3 :: _ =>
      let c := ((b0 - 0xF0) * 262144 + (b1 - 0x80) * 4096
                + (b2 - 0x80) * 64 + (b3 - 0x80))%N in
      if ((0xF0 <=? b0) && (b0 <? 0xF5))%N
         && continuation b1 && continuation b2 && continuation b3
         && ((0x10000 <=? c) && (c <? 0x110000))%N
      then Some (4%nat, c)
      else None
  | _ => None
  end.

Definition sequence (bs : list N) : option (nat * N) :=
  sequence1 bs ∪ sequence2 bs ∪ sequence3 bs ∪ sequence4 bs.

(** A character of the text: the bytes it is written with and its code
    point; a byte that starts no sequence is a character of its own,
    without a code point. *)
Record Char : Type := mkChar {
  char_code : option N;
  char_bytes : list ascii
}.

(** The characters of the bytes, at most [n] of them. *)
Fixpoint chars_upto (n : nat) (bs : list ascii) : list Char :=
  match n, bs with
  | S n, b :: rest =>
      match sequence (N_of_ascii <$> bs) with
      | Some (len, c) =>
          {| char_code := Some c; char_bytes := take len bs |}
          :: chars_upto n (drop len bs)
      | None => {| char_code := None; char_bytes := [b] |} :: chars_upto n rest
      end
  | _, _ => []
  end.

(** The characters of a text; there are no more of them than bytes. *)
Definition chars (s : string) : list Char :=
  chars_upto (String.length s) (list_ascii_of_string s).

Definition is_space (c : Char) : bool :=
  from_option is_whitespace false (char_code c).

Fixpoint trimStart_chars (cs : list Char) : list Char :=
  match cs with
  | [] => []
  | c :: rest => if is_space c then trimStart_chars rest else cs
  end.

(** The text written with the characters. *)
Definition text_of (cs : list Char) : string :=
  string_of_list_ascii (mjoin (char_bytes <$> cs)).

(** [String.prototype.trim] *)
Definition trim (s : string) : string :=
  text_of (rev (trimStart_chars (rev (trimStart_chars (chars s))))).

(** A message that is empty or made of white space only. *)
Definition blank (s : string) : Prop :=
  Forall (λ c, is_space c = true) (chars s).

(** The component state of [App]. *)
Record Ui : Type := mkUi {
  showGitHubModal : bool;
  particleOffset : Z;
  hoveredNodeId : option string;
  showApplyModal : bool;
  commitMessage : string;
  createPR : bool;
  applying : bool
}.

Definition initial_ui : Ui :=
  {| showGitHubModal := false; particleOffset := 0; hoveredNodeId := None;
     showApplyModal := false; commitMessage := EmptyString; createPR := true;
     applying := false |}.

Definition setShowApplyModal (v : bool) (ui : Ui) : Ui :=
  {| showGitHubModal := showGitHubModal ui; particleOffset := particleOffset ui;
     hoveredNodeId := hoveredNodeId ui; showApplyModal := v;
     commitMessage := commitMessage ui; createPR := createPR ui;
     applying := applying ui |}.

Definition setCommitMessage (v : string) (ui : Ui) : Ui :=
  {| showGitHubModal := showGitHubModal ui; particleOffset := particleOffset ui;
     hoveredNodeId := hoveredNodeId ui; showApplyModal := showApplyModal ui;
     commitMessage := v; createPR := createPR ui;
     applying := applying ui |}.

Definition setApplying (v : bool) (ui : Ui) : Ui :=
  {| showGitHubModal := showGitHubModal ui; particleOffset := particleOffset ui;
     hoveredNodeId := hoveredNodeId ui; showApplyModal := showApplyModal ui;
     commitMessage := commitMessage ui; createPR := createPR ui;
     applying := v |}.

(** One invocation of the store's [applyChanges] by the component. *)
Record ApplyCall : Type := mkApplyCall {
  call_commitMessage : string;
  call_createPR : bool;
  call_prBranch : option string
}.

(** [handleApply], over the outcomes of the two requests [applyChanges]
    awaits.  It yields the component state, the store state and the
    invocations of [applyChanges] it made. *)
Definition handleApply (apply : Outcome JsVal) (getGraph : Outcome Graph)
    (ui : Ui) (st : State) : Ui * State * list ApplyCall :=
  if negb (truthy_string (trim (commitMessage ui))) then (ui, st, [])
  else
    let call := {| call_commitMessage := commitMessage ui;
                   call_createPR := createPR ui;
                   call_prBranch := None |} in
    let ui := setApplying true ui in
    match applyChanges apply getGraph (commitMessage ui) (createPR ui) None st with
    | (st, inr _) =>
        (setApplying false (setCommitMessage EmptyString (setShowApplyModal false ui)),
         st, [call])
    | (st, inl err) =>
        (* console.error *)
        (setApplying false ui, st, [call])
    end.

(** The [disabled] attribute of the modal's Apply button. *)
Definition apply_button_disabled (ui : Ui) : bool :=
  negb (truthy_string (trim (commitMessage ui))) || applying ui.

End App.

(** ** The store's graph slot, untyped

    The store installs whatever the server sent and mutates it without
    checking it.  This module follows the same actions on an arbitrary
    JavaScript value held in [state.graph], to state what they do to its
    shape.  Each function yields the value [state.graph] holds once the
    action has ended, normally or by an exception. *)

Module Dyn.

(** [v !== nodeId] and [v === nodeId] for a string [nodeId]. *)
Definition strict_eq_string (v : JsVal) (s : string) : bool :=
  match v with
  | JStr s' => String.eqb s' s
  | _ => false
  end.

(** [Array.prototype.filter] with a callback that may throw. *)
Fixpoint filterM (p : JsVal → Outcome bool) (l : list JsVal) : Outcome (list JsVal) :=
  match l with
  | [] => inr []
  | a :: rest =>
      match p a with
      | inl e => inl e
      | inr keep =>
          match filterM p rest with
          | inl e => inl e
          | inr rest' => inr (if keep then a :: rest' else rest')
          end
      end
  end.

(** [Array.prototype.find] with a callback that may throw: the index
    and the element found. *)
Fixpoint findM (p : JsVal → Outcome bool) (i : nat) (l : list JsVal)
  : Outcome (option (nat * JsVal)) :=
  match l with
  | [] => inr None
  | a :: rest =>
      match p a with
      | inl e => inl e
      | inr true => inr (Some (i, a))
      | inr false => findM p (S i) rest
      end
  end.

(** [o.k = x]: on an object the property is written; named properties
    of arrays are outside [JsVal] and writes to primitives have no
    effect on the value. *)
Definition put (k : string) (x : JsVal) (o : JsVal) : JsVal :=
  match o with
  | JObj props => JObj (assign_prop k x props)
  | _ => o
  end.

Definition loadGraph (getGraph : Outcome JsVal) (graph : JsVal) : JsVal :=
  match getGraph with
  | inr received => received
  | inl _ => graph
  end.

(** [const { graph } = await ...; set({ graph, ... })] *)
Definition install_graph_of (response : Outcome JsVal) (graph : JsVal) : JsVal :=
  match response with
  | inr r =>
      match get "graph" r with
      | inr received => received
      | inl _ => graph
      end
  | inl _ => graph
  end.

Definition loadFromGitHub (load : Outcome JsVal) (graph : JsVal) : JsVal :=
  install_graph_of load graph.

Definition updateNode (update : Outcome JsVal) (graph : JsVal) : JsVal :=
  install_graph_of update graph.

(** [n => n.id !== nodeId] *)
Definition keeps_node (nodeId : string) (n : JsVal) : Outcome bool :=
  match get "id" n with
  | inl e => inl e
  | inr v => inr (negb (strict_eq_string v nodeId))
  end.

(** [e => e.from !== nodeId && e.to !== nodeId] *)
Definition keeps_edge (nodeId : string) (e : JsVal) : Outcome bool :=
  match get "from" e with
  | inl err => inl err
  | inr f =>
      if negb (strict_eq_string f nodeId) then
        match get "to" e with
        | inl err => inl err
        | inr t => inr (negb (strict_eq_string t nodeId))
        end
      else inr false
  end.

(** [graph.k = graph.k.filter(p)]: the graph after the statement, and
    whether the statement threw. *)
Definition filter_in_place (k : string) (p : JsVal → Outcome bool) (graph : JsVal)
  : JsVal * bool :=
  match get k graph with
  | inr (JArr items) =>
      match filterM p items with
      | inr kept => (put k (JArr kept) graph, false)
      | inl _ => (graph, true)
      end
  | _ => (graph, true)
  end.

Definition deleteNode (delete : Outcome JsVal) (nodeId : string) (graph : JsVal)
  : JsVal :=
  match delete with
  | inl _ => graph
  | inr r =>
      match get "errors" r with
      | inl _ => graph
      | inr _ =>
          if truthy graph then
            let '(graph, threw) := filter_in_place "nodes" (keeps_node nodeId) graph in
            if threw then graph
            else fst (filter_in_place "edges" (keeps_edge nodeId) graph)
          else graph
      end
  end.

(** [n => n.id === nodeId] *)
Definition has_id (nodeId : string) (n : JsVal) : Outcome bool :=
  match get "id" n with
  | inl e => inl e
  | inr v => inr (strict_eq_string v nodeId)
  end.

(** [node.visual.x = x; node.visual.y = y]: [None] when the first
    assignment throws. *)
Definition move_node (px py : JsVal) (node : JsVal) : option JsVal :=
  match get "visual" node with
  | inr (JObj vprops) =>
      Some (put "visual" (put "y" py (put "x" px (JObj vprops))) node)
  | inr (JArr items) => Some node
  | _ => None
  end.

Definition updateNodePosition (nodeId : string) (px py : JsVal) (graph : JsVal)
  : JsVal :=
  if negb (truthy graph) then graph
  else
    match get "nodes" graph with
    | inr (JArr items) =>
        match findM (has_id nodeId) 0 items with
        | inr (Some (i, node)) =>
            if truthy node then
              match move_node px py node with
              | Some node' => put "nodes" (JArr (<[i := node']> items)) graph
              | None => graph
              end
            else graph
        | _ => graph
        end
    | _ => graph
    end.

(** [applyChanges]: the graph is reloaded only after the apply request
    resolved. *)
Definition applyChanges (apply getGraph : Outcome JsVal) (graph : JsVal) : JsVal :=
  match apply with
  | inr _ => loadGraph getGraph graph
  | inl _ => graph
  end.

(** [Object.values(v)]: a [TypeError] on [undefined] and [null], the
    property values of an object, the items of an array, the characters
    of a string, nothing for a number or a boolean. *)
Definition Object_values (v : JsVal) : Outcome (list JsVal) :=
  match v with
  | JUndefined | JNull => inl (ErrorObj "Cannot convert undefined or null to object")
  | JObj props => inr props.*2
  | JArr items => inr items
  | JStr s => inr ((λ c, JStr (String c EmptyString)) <$> list_ascii_of_string s)
  | JNum _ | JBool _ => inr []
  end.

(** [f => f.dirty], as the truthiness [filter] sees. *)
Definition is_dirty (f : JsVal) : Outcome bool :=
  match get "dirty" f with
  | inl e => inl e
  | inr d => inr (truthy d)
  end.

(** [getDirtyFiles] reads the graph: the list it returns, or the
    exception it ends with. *)
Definition getDirtyFiles (graph : JsVal) : Outcome (list JsVal) :=
  if negb (truthy graph) then inr []
  else
    match get "files" graph with
    | inl e => inl e
    | inr files =>
        match Object_values files with
        | inl e => inl e
        | inr values => filterM is_dirty values
        end
    end.

(** *** The transmitted shape *)

Definition is_string (v : JsVal) : bool :=
  match v with JStr _ => true | _ => false end.
Definition is_boolean (v : JsVal) : bool :=
  match v with JBool _ => true | _ => false end.
Definition is_array (v : JsVal) : bool :=
  match v with JArr _ => true | _ => false end.
Definition is_object (v : JsVal) : bool :=
  match v with JObj _ => true | _ => false end.

Definition has (k : string) (p : JsVal → bool) (props : list (string * JsVal)) : bool :=
  match lookup_prop k props with
  | Some v => p v
  | None => false
  end.

(** A [GraphNode]: an object with a string [id] and a [visual] object. *)
Definition is_GraphNode (v : JsVal) : bool :=
  match v with
  | JObj props => has "id" is_string props && has "visual" is_object props
  | _ => false
  end.

(** A [GraphEdge]: an object with string [from] and [to]. *)
Definition is_GraphEdge (v : JsVal) : bool :=
  match v with
  | JObj props => has "from" is_string props && has "to" is_string props
  | _ => false
  end.

(** A [FileInfo]: an object with a string [path] and a boolean [dirty]. *)
Definition is_FileInfo (v : JsVal) : bool :=
  match v with
  | JObj props => has "path" is_string props && has "dirty" is_boolean props
  | _ => false
  end.

Definition list_of (p : JsVal → bool) (v : JsVal) : bool :=
  match v with
  | JArr items => forallb p items
  | _ => false
  end.

Definition mapping_of (p : JsVal → bool) (v : JsVal) : bool :=
  match v with
  | JObj props => forallb (λ kv, p kv.2) props
  | _ => false
  end.

(** [{nodes: [GraphNode...], edges: [GraphEdge...], files: {path: FileInfo}}] *)
Definition well_shaped (graph : JsVal) : bool :=
  match graph with
  | JObj props =>
      has "nodes" (list_of is_GraphNode) props
      && has "edges" (list_of is_GraphEdge) props
      && has "files" (mapping_of is_FileInfo) props
  | _ => false
  end.

(** The store either holds no graph yet ([null]) or a graph of the
    transmitted shape. *)
Definition graph_ok (graph : JsVal) : Prop :=
  graph = JNull ∨ well_shaped graph = true.

(** The actions that install or mutate the graph, with the outcomes of
    the requests they await. *)
Inductive Action : Type :=
| ActLoadGraph (getGraph : Outcome JsVal)
| ActLoadFromGitHub (load : Outcome JsVal)
| ActUpdateNode (update : Outcome JsVal)
| ActDeleteNode (delete : Outcome JsVal) (nodeId : string)
| ActUpdateNodePosition (nodeId : string) (px py : JsVal)
| ActApplyChanges (apply getGraph : Outcome JsVal).

Definition step (graph : JsVal) (a : Action) : JsVal :=
  match a with
  | ActLoadGraph o => loadGraph o graph
  | ActLoadFromGitHub o => loadFromGitHub o graph
  | ActUpdateNode o => updateNode o graph
  | ActDeleteNode o nodeId => deleteNode o nodeId graph
  | ActUpdateNodePosition nodeId px py => updateNodePosition nodeId px py graph
  | ActApplyChanges a g => applyChanges a g graph
  end.

Definition run (graph : JsVal) (actions : list Action) : JsVal :=
  foldl step graph actions.

(** The server keeps the contract: a resolved [GET /graph] is a graph of
    the transmitted shape, and a resolved load or update response
    carries one in its [graph] property. *)
Definition sends_graph (o : Outcome JsVal) : Prop :=
  match o with
  | inr g => well_shaped g = true
  | inl _ => True
  end.

Definition sends_graph_property (o : Outcome JsVal) : Prop :=
  match o with
  | inr r =>
      match get "graph" r with
      | inr g => well_shaped g = true
      | inl _ => True
      end
  | inl _ => True
  end.

Definition server_keeps_contract (a : Action) : Prop :=
  match a with
  | ActLoadGraph o => sends_graph o
  | ActLoadFromGitHub o => sends_graph_property o
  | ActUpdateNode o => sends_graph_property o
  | ActDeleteNode _ _ => True
  | ActUpdateNodePosition _ _ _ => True
  | ActApplyChanges _ g => sends_graph g
  end.

(** The graph an action installs from a response, when it installs
    one: the body of a resolved [GET /graph] (a load, or the reload after
    an apply request that resolved) and the [graph] property of a
    resolved load or update response.  The actions pass it to [set] as
    it is. *)
Definition received (a : Action) : option JsVal :=
  match a with
  | ActLoadGraph (inr g) => Some g
  | ActLoadFromGitHub (inr r) | ActUpdateNode (inr r) =>
      match get "graph" r with
      | inr g => Some g
      | inl _ => None
      end
  | ActApplyChanges (inr _) (inr g) => Some g
  | _ => None
  end.

(** *** Typed graphs as values

    The value a typed [Graph] is on the wire; optional fields that are
    absent are left out. *)

Definition optional (k : string) (v : option JsVal) : list (string * JsVal) :=
  match v with
  | Some x => [(k, x)]
  | None => []
  end.

Definition encode_visual (v : Visual) : JsVal :=
  JObj [("x", JNum (visual_x v)); ("y", JNum (visual_y v));
        ("width", JNum (visual_width v)); ("height", JNum (visual_height v));
        ("icon", JStr (visual_icon v))].

Definition encode_node (n : GraphNode) : JsVal :=
  JObj ([("id", JStr (node_id n)); ("kind", JStr (node_kind n));
         ("name", JStr (node_name n)); ("namespace", JStr (node_namespace n));
         ("filePath", JStr (node_filePath n));
         ("labels", PropertyEditor.record_value (node_labels n));
         ("spec", node_spec n);
         ("visual", encode_visual (node_visual n))]
        ++ optional "replicas" (JNum <$> node_replicas n)
        ++ optional "containers" (JArr <$> node_containers n)
        ++ optional "ports" (JArr <$> node_ports n)
        ++ optional "selector" (PropertyEditor.record_value <$> node_selector n)
        ++ optional "serviceType" (JStr <$> node_serviceType n))%list.

Definition relationType_name (r : RelationType) : string :=
  match r with
  | rel_selector => "selector"
  | rel_service_target => "service-target"
  | rel_ingress_backend => "ingress-backend"
  end.

Definition encode_edge (e : GraphEdge) : JsVal :=
  JObj [("from", JStr (edge_from e)); ("to", JStr (edge_to e));
        ("relationType", JStr (relationType_name (edge_relationType e)))].

Definition encode_file (f : FileInfo) : JsVal :=
  JObj [("path", JStr (file_path f)); ("dirty", JBool (file_dirty f));
        ("nodeIds", JArr (JStr <$> file_nodeIds f))].

Definition encode_graph (g : Graph) : JsVal :=
  JObj [("nodes", JArr (encode_node <$> nodes g));
        ("edges", JArr (encode_edge <$> edges g));
        ("files", JObj ((λ kv, (kv.1, encode_file kv.2)) <$> map_to_list (files g)))].

(** What [state.graph] holds for a typed store: [null] before the first
    load. *)
Definition encode_slot (g : option Graph) : JsVal :=
  from_option encode_graph JNull g.

End Dyn.

(** ** The manifest graph engine (server side) *)

Module Engine.

Definition labels_map (r : list (string * string)) : gmap string string :=
  list_to_map r.

(** Modelled from the spec: the label-subset test of the Relationship
    Resolver (section 4.3), whose code is not among the sources: every
    key/value pair of the selector must match exactly, and an empty
    selector matches nothing. *)
Definition selector_matches (sel : list (string * string))
    (labels : list (string * string)) : bool :=
  negb (bool_decide (sel = []))
  && forallb (λ kv, bool_decide (labels_map labels !! kv.1 = Some kv.2)) sel.

(** Modelled from the spec: the nodes a [selector] edge may point to.
    The spec words the rule twice: section 4.3 heads it
    "Service→Deployment/Pod", section 8 states it for "every node with
    [labels["app"] == "x"] in the same namespace".  The rule therefore
    takes the test of its target as a parameter; [is_selector_target] is
    the test of section 4.3 and [every_node] the one of section 8. *)
Definition is_selector_target (n : GraphNode) : bool :=
  bool_decide (node_kind n = "Deployment") || bool_decide (node_kind n = "Pod").

Definition every_node (n : GraphNode) : bool := true.

(** Modelled from the spec: the [selector] rule of the Relationship
    Resolver (section 4.3) on one ordered pair of nodes, [target] being
    the test of the nodes an edge may point to. *)
Definition selector_rule (target : GraphNode → bool) (s t : GraphNode) : bool :=
  bool_decide (node_kind s = "Service")
  && target t
  && bool_decide (node_namespace s = node_namespace t)
  && match node_selector s with
     | Some sel => selector_matches sel (node_labels t)
     | None => false
     end.

(** Modelled from the spec: the rule evaluated for every ordered pair
    of nodes (section 4.3). *)
Definition selector_edges_among (target : GraphNode → bool) (ns : list GraphNode)
  : list GraphEdge :=
  s ← ns;
  t ← ns;
  if selector_rule target s t
  then [ {| edge_from := node_id s; edge_to := node_id t;
            edge_relationType := rel_selector |} ]
  else [].

(** Modelled from the spec: the [selector] edges of the Relationship
    Resolver as section 8 states them, to every node. *)
Definition selector_edges (ns : list GraphNode) : list GraphEdge :=
  selector_edges_among every_node ns.

Inductive EngineError : Type :=
| ConflictError
| NotFoundError.

Definition identity (n : GraphNode) : string * string * string :=
  (node_kind n, node_namespace n, node_name n).

Definition with_id (i : string) (n : GraphNode) : GraphNode :=
  {| node_id := i; node_kind := node_kind n; node_name := node_name n;
     node_namespace := node_namespace n; node_filePath := node_filePath n;
     node_labels := node_labels n; node_spec := node_spec n;
     node_visual := node_visual n;
     node_replicas := node_replicas n; node_containers := node_containers n;
     node_ports := node_ports n; node_selector := node_selector n;
     node_serviceType := node_serviceType n |}.

Section Create.

(** The id rule of the Node Builder (section 4.2) and the Relationship
    Resolver: the spec fixes neither beyond being deterministic. *)
Variable make_id : string → string → string → string.
Variable resolve : list GraphNode → list GraphEdge.

(** Modelled from the spec: the Create operation of the Mutation
    Engine (section 4.5), whose code is not among the sources.  It
    yields the graph the session holds afterwards and either the
    failure or nothing. *)
Definition createNode (node : GraphNode) (g : Graph)
  : Graph * (EngineError + unit) :=
  if decide (identity node ∈ identity <$> nodes g) then (g, inl ConflictError)
  else
    let i := make_id (node_kind node) (node_namespace node) (node_name node) in
    let path := node_filePath node in
    let file :=
      match files g !! path with
      | Some f =>
          {| file_path := file_path f; file_dirty := true;
             file_nodeIds := (file_nodeIds f ++ [i])%list |}
      | None =>
          {| file_path := path; file_dirty := true; file_nodeIds := [i] |}
      end in
    let ns := (nodes g ++ [with_id i node])%list in
    ({| nodes := ns; edges := resolve ns; files := <[path := file]> (files g) |},
     inr tt).

End Create.

End Engine.

(** ** Well-formed graphs and derived views *)

(** The ids of the nodes, in order. *)
Definition node_ids (g : Graph) : list string := node_id <$> nodes g.

(** A graph whose nodes have distinct ids and whose edges join nodes of
    the graph. *)
Definition graph_wf (g : Graph) : Prop :=
  NoDup (node_ids g)
  ∧ ∀ e, e ∈ edges g → edge_from e ∈ node_ids g ∧ edge_to e ∈ node_ids g.

(** The nodes [updateNodePosition] leaves: the first node with the id
    moved, the others as they are. *)
Definition moved_nodes (nodeId : string) (px py : Z) (ns : list GraphNode)
  : list GraphNode :=
  match list_find (λ n, node_id n = nodeId) ns with
  | Some (i, node) => <[i := move_to px py node]> ns
  | None => ns
  end.

Module AppView.

(** [graph?.nodes.find(n => n.id === selectedNodeId) || null] *)
Definition selectedNode (st : State) : option GraphNode :=
  match graph st, selectedNodeId st with
  | Some g, Some i => snd <$> list_find (λ n, node_id n = i) (nodes g)
  | _, _ => None
  end.

(** [validationErrors.filter(e => e.severity === 'error').length] *)
Definition errorCount (st : State) : nat :=
  length (filter (λ e, err_severity e = "error") (validationErrors st)).

(** [validationErrors.filter(e => e.severity === 'warning').length] *)
Definition warningCount (st : State) : nat :=
  length (filter (λ e, err_severity e = "warning") (validationErrors st)).

End AppView.

(** ** The store's session actions ([useEditorStore.js]) *)

Definition set_isAuthenticated (v : bool) (st : State) : State :=
  {| graph := graph st; selectedNodeId := selectedNodeId st;
     selectedFile := selectedFile st;
     isAuthenticated := v; user := user st;
     repositories := repositories st; selectedRepo := selectedRepo st;
     selectedBranch := selectedBranch st; repoPath := repoPath st;
     validationErrors := validationErrors st; isLoading := isLoading st;
     error := error st; sidebarOpen := sidebarOpen st |}.

Definition set_user (v : option JsVal) (st : State) : State :=
  {| graph := graph st; selectedNodeId := selectedNodeId st;
     selectedFile := selectedFile st;
     isAuthenticated := isAuthenticated st; user := v;
     repositories := repositories st; selectedRepo := selectedRepo st;
     selectedBranch := selectedBranch st; repoPath := repoPath st;
     validationErrors := validationErrors st; isLoading := isLoading st;
     error := error st; sidebarOpen := sidebarOpen st |}.

Definition set_repositories (v : list JsVal) (st : State) : State :=
  {| graph := graph st; selectedNodeId := selectedNodeId st;
     selectedFile := selectedFile st;
     isAuthenticated := isAuthenticated st; user := user st;
     repositories := v; selectedRepo := selectedRepo st;
     selectedBranch := selectedBranch st; repoPath := repoPath st;
     validationErrors := validationErrors st; isLoading := isLoading st;
     error := error st; sidebarOpen := sidebarOpen st |}.

(** Typed views of the bodies of [/auth/status] and [/repos]. *)
Record StatusResponse : Type := mkStatusResponse {
  status_authenticated : bool;
  status_user : option JsVal
}.
Record ReposResponse : Type := mkReposResponse {
  repos_repositories : list JsVal
}.

(** [user || null]; [None] is both an absent [user] and [null]. *)
Definition user_or_null (user : option JsVal) : option JsVal :=
  match user with
  | Some v => if truthy v then Some v else None
  | None => None
  end.

Definition checkAuth (getStatus : Outcome StatusResponse) (st : State) : State :=
  match getStatus with
  | inr r =>
      set_user (user_or_null (status_user r))
        (set_isAuthenticated (status_authenticated r) st)
  | inl _ => set_user None (set_isAuthenticated false st)
  end.

(** [logout] has no [catch]: a rejected request leaves the state and
    rejects the caller's [await]. *)
Definition logout (logoutRequest : Outcome JsVal) (st : State)
  : State * Outcome unit :=
  match logoutRequest with
  | inr _ =>
      (set_selectedBranch None
         (set_selectedRepo None
            (set_repositories []
               (set_user None (set_isAuthenticated false st)))),
       inr tt)
  | inl err => (st, inl err)
  end.

Definition loadRepositories (listed : Outcome ReposResponse) (st : State) : State :=
  match listed with
  | inr r => set_repositories (repos_repositories r) st
  | inl err => set_error (Some (message_or "Failed to load repositories" err)) st
  end.

Definition setRepoPath (path : string) (st : State) : State :=
  set_repoPath path st.

(** What [App] and its children draw from the store besides the session:
    the graph, the two selections and the diagnostics. *)
Definition same_editor (st st' : State) : Prop :=
  graph st' = graph st ∧ selectedNodeId st' = selectedNodeId st
  ∧ selectedFile st' = selectedFile st
  ∧ validationErrors st' = validationErrors st
  ∧ sidebarOpen st' = sidebarOpen st.

(** ** Editing in the property editor ([PropertyEditor.jsx]) *)

Module Editing.

(** [{...r, [k]: v}] on a [Record<string, string>]: an existing key keeps
    its place, a new key goes last. *)
Fixpoint record_set (k v : string) (r : list (string * string))
  : list (string * string) :=
  match r with
  | [] => [(k, v)]
  | (k', v') :: rest =>
      if String.eqb k k' then (k', v) :: rest else (k', v') :: record_set k v rest
  end.

(** [r[k]] *)
Fixpoint record_get (k : string) (r : list (string * string)) : option string :=
  match r with
  | [] => None
  | (k', v') :: rest => if String.eqb k k' then Some v' else record_get k rest
  end.

(** The field and value of one [handleChange(field, value)]. *)
Inductive Change : Type :=
| SetName (v : string)
| SetNamespace (v : string)
| SetLabels (v : list (string * string))
| SetReplicas (v : Z)
| SetServiceType (v : string)
| SetContainers (v : list JsVal)
| SetPorts (v : list JsVal).

(** [handleChange]: [setLocalNode({ ...localNode, [field]: value })] *)
Definition handleChange (c : Change) (localNode : GraphNode) : GraphNode :=
  {| node_id := node_id localNode; node_kind := node_kind localNode;
     node_name := match c with SetName v => v | _ => node_name localNode end;
     node_namespace :=
       match c with SetNamespace v => v | _ => node_namespace localNode end;
     node_filePath := node_filePath localNode;
     node_labels := match c with SetLabels v => v | _ => node_labels localNode end;
     node_spec := node_spec localNode; node_visual := node_visual localNode;
     node_replicas :=
       match c with SetReplicas v => Some v | _ => node_replicas localNode end;
     node_containers :=
       match c with SetContainers v => Some v | _ => node_containers localNode end;
     node_ports := match c with SetPorts v => Some v | _ => node_ports localNode end;
     node_selector := node_selector localNode;
     node_serviceType :=
       match c with SetServiceType v => Some v | _ => node_serviceType localNode end |}.

(** [parseInt(v) || 1], over what [parseInt] returned ([None] is [NaN]). *)
Definition parsed_or_one (parsed : option Z) : Z :=
  match parsed with
  | Some z => if (z =? 0)%Z then 1%Z else z
  | None => 1%Z
  end.

(** The Replicas field: [handleChange('replicas', parseInt(v) || 1)] *)
Definition edit_replicas (parsed : option Z) (localNode : GraphNode) : GraphNode :=
  handleChange (SetReplicas (parsed_or_one parsed)) localNode.

(** A label's value field:
    [handleChange('labels', { ...node.labels, [key]: e.target.value })].
    The spread is of the [node] prop, not of [localNode]. *)
Definition edit_label (node : GraphNode) (key value : string)
    (localNode : GraphNode) : GraphNode :=
  handleChange (SetLabels (record_set key value (node_labels node))) localNode.

(** *** Containers and ports: shared element objects

    [node.containers] and [node.ports] are arrays of objects of the
    store's graph.  The editors copy the array, not its elements:
    [const containers = [...(node.containers || [])]; containers[idx].name = v].
    Element objects are therefore heap cells, and an array is the list
    of the cells it refers to. *)

Record Session : Type := mkSession {
  heap : gmap nat (list (string * JsVal));
  node : GraphNode;                       (* the [node] prop, but for the two arrays *)
  node_container_refs : option (list nat);    (* [node.containers] *)
  node_port_refs : option (list nat);         (* [node.ports] *)
  localNode : GraphNode;                  (* the [localNode] state, likewise *)
  local_container_refs : option (list nat);   (* [localNode.containers] *)
  local_port_refs : option (list nat)         (* [localNode.ports] *)
}.

(** [useState({ ...node })]: the copy refers to the node's own arrays. *)
Definition open (h : gmap nat (list (string * JsVal))) (n : GraphNode)
    (containers ports : option (list nat)) : Session :=
  {| heap := h; node := n; node_container_refs := containers;
     node_port_refs := ports; localNode := n;
     local_container_refs := containers; local_port_refs := ports |}.

(** The objects an array refers to, as values. *)
Definition deref (h : gmap nat (list (string * JsVal))) (refs : list nat)
  : list JsVal :=
  (λ l, JObj (default [] (h !! l))) <$> refs.

Definition with_arrays (containers ports : option (list JsVal)) (n : GraphNode)
  : GraphNode :=
  {| node_id := node_id n; node_kind := node_kind n; node_name := node_name n;
     node_namespace := node_namespace n; node_filePath := node_filePath n;
     node_labels := node_labels n; node_spec := node_spec n;
     node_visual := node_visual n; node_replicas := node_replicas n;
     node_containers := containers; node_ports := ports;
     node_selector := node_selector n; node_serviceType := node_serviceType n |}.

(** The [node] prop and the [localNode] state as [handleSave] reads them. *)
Definition node_now (s : Session) : GraphNode :=
  with_arrays (deref (heap s) <$> node_container_refs s)
              (deref (heap s) <$> node_port_refs s) (node s).

Definition localNode_now (s : Session) : GraphNode :=
  with_arrays (deref (heap s) <$> local_container_refs s)
              (deref (heap s) <$> local_port_refs s) (localNode s).

(** An edit of one property of the element at [idx]. *)
Inductive ElementEdit : Type :=
| EditContainer (idx : nat) (prop : string) (value : JsVal)
| EditPort (idx : nat) (prop : string) (value : JsVal).

(** [arr[idx].prop = value] on the heap; [None] when [arr[idx]] is
    [undefined] and the assignment throws. *)
Definition assign_element (h : gmap nat (list (string * JsVal)))
    (arr : list nat) (idx : nat) (prop : string) (value : JsVal)
  : option (gmap nat (list (string * JsVal))) :=
  match arr !! idx with
  | Some l => Some (<[l := assign_prop prop value (default [] (h !! l))]> h)
  | None => None
  end.

(** The [onChange] of a container's Name and Image fields
    ([prop] is [name] or [image]) and of a port's two number fields
    ([prop] is [port] or [targetPort]):
    [const arr = [...(node.arr || [])]; arr[idx].prop = value;
     handleChange('arr', arr)]. *)
Definition edit_element (e : ElementEdit) (s : Session) : Session :=
  match e with
  | EditContainer idx prop value =>
      let containers := default [] (node_container_refs s) in
      match assign_element (heap s) containers idx prop value with
      | Some h =>
          {| heap := h; node := node s;
             node_container_refs := node_container_refs s;
             node_port_refs := node_port_refs s; localNode := localNode s;
             local_container_refs := Some containers;
             local_port_refs := local_port_refs s |}
      | None => s
      end
  | EditPort idx prop value =>
      let ports := default [] (node_port_refs s) in
      match assign_element (heap s) ports idx prop value with
      | Some h =>
          {| heap := h; node := node s;
             node_container_refs := node_container_refs s;
             node_port_refs := node_port_refs s; localNode := localNode s;
             local_container_refs := local_container_refs s;
             local_port_refs := Some ports |}
      | None => s
      end
  end.

(** [handleSave] in a session. *)
Definition save (s : Session) : list PropertyEditor.Call :=
  PropertyEditor.handleSave (node_now s) (localNode_now s).

End Editing.

(** ** Choosing a repository ([GitHubModal.jsx]) *)

Module GitHubModal.

(** The component state.  [branches] is [None] once [setBranches] was
    given [undefined]. *)
Record Ui : Type := mkUi {
  selectedRepoState : string;
  branch : string;
  branches : option (list string);
  loading : bool
}.

Definition initial_ui : Ui :=
  {| selectedRepoState := EmptyString; branch := "main"; branches := Some [];
     loading := false |}.

(** The calls [handleLoad] makes, in order. *)
Inductive Call : Type :=
| CallLoadFromGitHub (repo branch path : string)
| CallOnClose.

(** [handleRepoSelect(repoFullName)], over the outcome of
    [fetch(...).then(r => r.json())]: the rejection, or the [branches]
    property of the parsed body ([None] when the body has none; the
    response's [ok] is not looked at). *)
Definition handleRepoSelect (response : Outcome (option (list string)))
    (repoFullName : string) (ui : Ui) : Ui :=
  match response with
  | inr (Some repoBranches) =>
      {| selectedRepoState := repoFullName;
         branch := match repoBranches with
                   | b :: _ => b
                   | [] => branch ui
                   end;
         branches := Some repoBranches;
         loading := false |}
  | inr None =>
      (* [setBranches(undefined)], then [repoBranches.length] throws *)
      {| selectedRepoState := repoFullName; branch := branch ui;
         branches := None; loading := false |}
  | inl _ =>
      {| selectedRepoState := repoFullName; branch := branch ui;
         branches := branches ui; loading := false |}
  end.

(** [setBranch(e.target.value)] *)
Definition setBranch (b : string) (ui : Ui) : Ui :=
  {| selectedRepoState := selectedRepoState ui; branch := b;
     branches := branches ui; loading := loading ui |}.

Definition handleLoad (ui : Ui) : list Call :=
  if truthy_string (selectedRepoState ui) && truthy_string (branch ui)
  then [CallLoadFromGitHub (selectedRepoState ui) (branch ui) EmptyString; CallOnClose]
  else [].

(** The [disabled] attribute of the Load Manifests button. *)
Definition load_button_disabled (ui : Ui) : bool :=
  negb (truthy_string (selectedRepoState ui)) || negb (truthy_string (branch ui)).

End GitHubModal.

(** ** The graph canvas ([GraphCanvas.jsx]) and what [App] passes to it *)

Module Canvas.

(** [!selectedFile] *)
Definition no_file_selected (st : State) : bool :=
  match selectedFile st with
  | Some f => negb (truthy_string f)
  | None => true
  end.

(** [graph.nodes.filter(n => !selectedFile || n.filePath === selectedFile)] *)
Definition shown_nodes (st : State) (g : Graph) : list GraphNode :=
  filter (λ n, no_file_selected st = true ∨ Some (node_filePath n) = selectedFile st)
    (nodes g).

(** The two ends of an edge among the nodes given to the canvas; [None]
    where the edge's callback returns [null] and nothing is drawn. *)
Definition endpoints (ns : list GraphNode) (e : GraphEdge)
  : option (GraphNode * GraphNode) :=
  match list_find (λ n, node_id n = edge_from e) ns,
        list_find (λ n, node_id n = edge_to e) ns with
  | Some (_, fromNode), Some (_, toNode) => Some (fromNode, toNode)
  | _, _ => None
  end.

(** [setParticleOffset(prev => (prev + 2) % 100)], every 50 ms. *)
Definition tick (particleOffset : Z) : Z := Z.rem (particleOffset + 2) 100.

(** [(particleOffset + p * 10 + s * 20) % 100] *)
Definition pulsePhase (particleOffset p s : Z) : Z :=
  Z.rem (particleOffset + p * 10 + s * 20) 100.

(** [opacity], in fiftieths:
    [pulsePhase < 50 ? pulsePhase / 50 : (100 - pulsePhase) / 50] *)
Definition opacity_fiftieths (pulse : Z) : Z :=
  if (pulse <? 50)%Z then pulse else (100 - pulse)%Z.

(** [opacity > 0.1] *)
Definition particle_drawn (pulse : Z) : bool :=
  (5 <? opacity_fiftieths pulse)%Z.

End Canvas.

(** ** The file tree ([FileTree.jsx]) *)

Module FileTree.

(** [toggleFolder(path)] on the set of expanded folders. *)
Definition toggleFolder (path : string) (expandedFolders : gset string)
  : gset string :=
  if decide (path ∈ expandedFolders)
  then expandedFolders ∖ {[ path ]}
  else expandedFolders ∪ {[ path ]}.

End FileTree.

(** ** The file tree's nodes ([FileTree.jsx], [buildTree]) *)

Module Tree.

(** [s.split('/')] *)
Fixpoint split_slash (s : string) : list string :=
  match s with
  | EmptyString => [EmptyString]
  | String c rest =>
      if Ascii.eqb c "/" then EmptyString :: split_slash rest
      else match split_slash rest with
           | part :: parts => String c part :: parts
           | [] => [String c EmptyString]
           end
  end.

Inductive NodeType : Type := file | dir.

(** A node of the tree.  A node object is created once per path and
    kept in [map] under it, so a reference to a node is its path;
    [children] holds such references. *)
Record TreeNode : Type := mkTreeNode {
  name : string;
  path : string;
  type : NodeType;
  level : nat;
  children : option (list string)
}.

(** The [root] array and the [map] of [buildTree]. *)
Record Built : Type := mkBuilt {
  root : list string;
  map : gmap string TreeNode
}.

(** What the variable [parent] holds: the [root] array, the [children]
    array of the node of a path, or [undefined] (the [children] of a
    file node). *)
Inductive Parent : Type :=
| RootArray
| ChildrenOf (p : string)
| NoArray.

Definition add_child (child : string) (n : TreeNode) : TreeNode :=
  {| name := name n; path := path n; type := type n; level := level n;
     children := (λ cs, cs ++ [child])%list <$> children n |}.

(** [parent.push(node)]; [None] is the [TypeError] on [undefined]. *)
Definition push (parent : Parent) (child : string) (t : Built) : option Built :=
  match parent with
  | RootArray => Some {| root := (root t ++ [child])%list; map := map t |}
  | ChildrenOf p => Some {| root := root t; map := alter (add_child child) p (map t) |}
  | NoArray => None
  end.

(** [map.get(currentPath).children]; [None] is the [TypeError] on a
    path that is not in the map. *)
Definition children_array (t : Built) (currentPath : string) : option Parent :=
  match map t !! currentPath with
  | Some n =>
      Some match children n with
           | Some _ => ChildrenOf currentPath
           | None => NoArray
           end
  | None => None
  end.

(** One turn of [parts.forEach((part, index) => ...)], [count] being
    [parts.length]. *)
Definition add_part (count : nat) (t : Built) (currentPath : string)
    (parent : Parent) (index : nat) (part : string)
  : option (Built * string * Parent) :=
  let currentPath :=
    if truthy_string currentPath then currentPath +:+ "/" +:+ part else part in
  match
    (if decide (is_Some (map t !! currentPath)) then Some t
     else
       let isFile := bool_decide (index = count - 1)%nat in
       let node :=
         {| name := part; path := currentPath;
            type := if isFile then file else dir;
            level := index;
            children := if isFile then None else Some [] |} in
       push parent currentPath
         {| root := root t; map := <[currentPath := node]> (map t) |})
  with
  | None => None
  | Some t =>
      if decide (index < count - 1)%nat then
        match children_array t currentPath with
        | Some parent => Some (t, currentPath, parent)
        | None => None
        end
      else Some (t, currentPath, parent)
  end.

Fixpoint add_parts (count : nat) (t : Built) (currentPath : string)
    (parent : Parent) (index : nat) (parts : list string) : option Built :=
  match parts with
  | [] => Some t
  | part :: rest =>
      match add_part count t currentPath parent index part with
      | Some (t, currentPath, parent) =>
          add_parts count t currentPath parent (S index) rest
      | None => None
      end
  end.

(** One turn of the outer [forEach(filePath => ...)]. *)
Definition add_file (t : Built) (filePath : string) : option Built :=
  let parts := split_slash filePath in
  add_parts (length parts) t EmptyString RootArray 0 parts.

Fixpoint add_files (t : Built) (filePaths : list string) : option Built :=
  match filePaths with
  | [] => Some t
  | filePath :: rest =>
      match add_file t filePath with
      | Some t => add_files t rest
      | None => None
      end
  end.

(** [Object.keys(graph.files).sort()]: the paths by code units. *)
Definition sorted_paths (g : Graph) : list string :=
  merge_sort String.le (map_to_list (files g)).*1.

(** [buildTree()]; [None] when it ends with a [TypeError]. *)
Definition buildTree (g : Graph) : option Built :=
  add_files {| root := []; map := ∅ |} (sorted_paths g).

(** [graph.files[node.path]?.dirty || false] *)
Definition isDirty (g : Graph) (n : TreeNode) : bool :=
  default false (file_dirty <$> files g !! path n).

(** A path without an empty segment. *)
Definition clean (p : string) : Prop := EmptyString ∉ split_slash p.

(** [p] names a directory above [q]. *)
Definition above (p q : string) : Prop := ∃ r, q = p +:+ "/" +:+ r.

End Tree.

(** What [buildTree] keeps true of its map while it adds the paths:
    every node sits under its own path; a file node has no [children]
    array, belongs to a path of [files] and carries that path's last
    segment and depth; a directory node has a [children] array and lies
    above a path of [below]; every path of [files] has its node. *)
Definition tree_inv (files below : list string) (m : gmap string Tree.TreeNode)
  : Prop :=
  (∀ k n, m !! k = Some n →
     Tree.path n = k
     ∧ match Tree.type n with
       | Tree.file =>
           Tree.children n = None ∧ k ∈ files
           ∧ Tree.name n = List.last (Tree.split_slash k) EmptyString
           ∧ Tree.level n = (length (Tree.split_slash k) - 1)%nat
       | Tree.dir =>
           is_Some (Tree.children n) ∧ ∃ q, q ∈ below ∧ Tree.above k q
       end)
  ∧ (∀ p, p ∈ files → ∃ n, m !! p = Some n ∧ Tree.type n = Tree.file).

(** The nodes [renderNode] can reach from the array [buildTree]
    returns: the elements of [root], and the elements of the
    [children] array of a node it reaches. *)
Inductive reachable (t : Tree.Built) : string → Prop :=
| reach_root k : k ∈ Tree.root t → reachable t k
| reach_child p n cs k :
    reachable t p → Tree.map t !! p = Some n → Tree.children n = Some cs →
    k ∈ cs → reachable t k.

(** The array [parent] holds is the [children] array of a node of the map. *)
Definition parent_ok (t : Tree.Built) (parent : Tree.Parent) : Prop :=
  match parent with
  | Tree.ChildrenOf p => ∃ n, Tree.map t !! p = Some n ∧ is_Some (Tree.children n)
  | _ => True
  end.

(** The arrays of [t'] hold what the arrays of [t] hold. *)
Definition grows (t t' : Tree.Built) : Prop :=
  (∀ k, k ∈ Tree.root t → k ∈ Tree.root t')
  ∧ (∀ p n cs, Tree.map t !! p = Some n → Tree.children n = Some cs →
       ∃ n' cs', Tree.map t' !! p = Some n' ∧ Tree.children n' = Some cs'
                 ∧ ∀ k, k ∈ cs → k ∈ cs').

(** Every node of the map can be reached from the root array. *)
Definition all_reachable (t : Tree.Built) : Prop :=
  ∀ k, is_Some (Tree.map t !! k) → reachable t k.

(** ** Sample data *)

(** An ok response whose body is not JSON text: a [204 No Content]. *)
Definition no_content_response : Api.Response :=
  {| Api.ok := true; Api.statusText := "No Content"; Api.text := EmptyString;
     Api.json := inl (ErrorObj "Unexpected end of JSON input") |}.

Definition conflict_response : Api.Response :=
  {| Api.ok := false; Api.statusText := "Conflict";
     Api.text := "node already exists"; Api.json := inl (ErrorObj "not JSON") |}.

Definition sample_visual : Visual :=
  {| visual_x := 0; visual_y := 0; visual_width := 64; visual_height := 64;
     visual_icon := "box" |}.

Definition sample_deployment : GraphNode :=
  {| node_id := "Deployment/default/app"; node_kind := "Deployment";
     node_name := "app"; node_namespace := "default";
     node_filePath := "k8s/app.yaml"; node_labels := [("app", "web")];
     node_spec := JObj []; node_visual := sample_visual;
     node_replicas := Some 2%Z; node_containers := Some [];
     node_ports := None; node_selector := None; node_serviceType := None |}.

Definition sample_service : GraphNode :=
  {| node_id := "Service/default/app-svc"; node_kind := "Service";
     node_name := "app-svc"; node_namespace := "default";
     node_filePath := "k8s/app.yaml"; node_labels := [];
     node_spec := JObj []; node_visual := sample_visual;
     node_replicas := None; node_containers := None;
     node_ports := Some []; node_selector := Some [("app", "web")];
     node_serviceType := Some "ClusterIP" |}.

Definition sample_file : FileInfo :=
  {| file_path := "k8s/app.yaml"; file_dirty := true;
     file_nodeIds := ["Deployment/default/app"; "Service/default/app-svc"] |}.

Definition clean_file : FileInfo :=
  {| file_path := "k8s/other.yaml"; file_dirty := false; file_nodeIds := [] |}.

Definition sample_graph : Graph :=
  {| nodes := [sample_deployment; sample_service];
     edges := [ {| edge_from := "Service/default/app-svc";
                   edge_to := "Deployment/default/app";
                   edge_relationType := rel_selector |} ];
     files := {[ "k8s/app.yaml" := sample_file; "k8s/other.yaml" := clean_file ]} |}.

Definition sample_state : State := set_graph (Some sample_graph) initial_state.

(** The service of the sample graph, edited: its selector removed. *)
Definition service_without_selector : GraphNode :=
  {| node_id := node_id sample_service; node_kind := node_kind sample_service;
     node_name := node_name sample_service;
     node_namespace := node_namespace sample_service;
     node_filePath := node_filePath sample_service;
     node_labels := node_labels sample_service;
     node_spec := node_spec sample_service;
     node_visual := node_visual sample_service;
     node_replicas := node_replicas sample_service;
     node_containers := node_containers sample_service;
     node_ports := node_ports sample_service;
     node_selector := None;
     node_serviceType := node_serviceType sample_service |}.

Definition blank_message_ui : App.Ui :=
  App.setShowApplyModal true (App.setCommitMessage "   " App.initial_ui).

(** A message of white space only, none of it ASCII: EM SPACE,
    IDEOGRAPHIC SPACE, ZWNBSP, LINE SEPARATOR and NBSP, in UTF-8. *)
Definition wide_blank_message : string :=
  string_of_list_ascii
    (ascii_of_N <$> [0xE2; 0x80; 0x83; 0xE3; 0x80; 0x80; 0xEF; 0xBB; 0xBF;
                     0xE2; 0x80; 0xA8; 0xC2; 0xA0]%N).

Definition wide_blank_message_ui : App.Ui :=
  App.setShowApplyModal true (App.setCommitMessage wide_blank_message App.initial_ui).

(** The [selector] edge between two nodes. *)
Definition selector_edge (s t : GraphNode) : GraphEdge :=
  {| edge_from := node_id s; edge_to := node_id t;
     edge_relationType := rel_selector |}.


(** An id rule and a resolver to run [createNode] with. *)
Definition slash_id (kind namespace name : string) : string :=
  kind +:+ "/" +:+ namespace +:+ "/" +:+ name.

(** A session: load, move a node, delete a node, apply. *)
Definition sample_session : list Dyn.Action :=
  [Dyn.ActLoadGraph (inr (Dyn.encode_graph sample_graph));
   Dyn.ActUpdateNodePosition "Service/default/app-svc" (JNum 120) (JNum 45);
   Dyn.ActDeleteNode (inr (JObj [("errors", JArr [])])) "Deployment/default/app";
   Dyn.ActApplyChanges (inr JNull) (inr (Dyn.encode_graph sample_graph))].

(** * Properties *)

(** ** [fetchApi] *)

Section FetchApi.
Import Api.

Lemma or_string_nonempty (a b : string) :
  a ≠ EmptyString → or_string a b = a.
Proof. destruct a; [congruence | reflexivity]. Qed.

Lemma or_string_empty (b : string) : or_string EmptyString b = b.
Proof. reflexivity. Qed.

(** A response that is not ok always becomes an [Error] whose message
    is the body text, or the status text when the body is empty. *)
Lemma fetchApi_not_ok fetch endpoint options response :
  fetch (request_of endpoint options) = inr response →
  ok response = false →
  fetchApi fetch endpoint options
  = inl (ErrorObj (if decide (text response = EmptyString)
                   then statusText response else text response)).
Proof.
  intros Hf Hok. unfold fetchApi. rewrite Hf, Hok. simpl.
  destruct (decide (text response = EmptyString)) as [-> | Hne].
  - reflexivity.
  - by rewrite or_string_nonempty.
Qed.

(** An ok response yields exactly what [response.json()] yields. *)
Lemma fetchApi_ok fetch endpoint options response :
  fetch (request_of endpoint options) = inr response →
  ok response = true →
  fetchApi fetch endpoint options = json response.
Proof. intros Hf Hok. unfold fetchApi. by rewrite Hf, Hok. Qed.

(** A rejected [fetch] is passed on unchanged. *)
Lemma fetchApi_network_failure fetch endpoint options e :
  fetch (request_of endpoint options) = inl e →
  fetchApi fetch endpoint options = inl e.
Proof. intros Hf. unfold fetchApi. by rewrite Hf. Qed.

End FetchApi.

(** C5, as stated, does not hold: [fetchApi] also raises on an ok
    response, when [response.json()] rejects because the body is not
    JSON text (here an empty [204] body). *)
Lemma fetchApi_raises_on_ok_response :
  ¬ (∀ (fetch : Api.Request → Outcome Api.Response) endpoint options response,
       fetch (Api.request_of endpoint options) = inr response →
       ((∃ e, Api.fetchApi fetch endpoint options = inl e)
        ↔ Api.ok response = false)).
Proof.
  intros H.
  specialize (H (λ _, inr no_content_response) "/nodes/a" None
                no_content_response eq_refl).
  destruct H as [H _].
  discriminate H.
  by eexists.
Qed.

(** C5, amended: once [fetch] delivered a response, [fetchApi] raises
    exactly when the response is not ok or its body does not parse.  On a
    response that is not ok the error message is the body text when that
    is not empty and the status text otherwise; on an ok response the
    result is the one of [response.json()]: the parsed body, or its
    parse failure raised.  There is no third outcome. *)
Theorem fetchApi_outcomes
    (fetch : Api.Request → Outcome Api.Response) endpoint options response :
  fetch (Api.request_of endpoint options) = inr response →
  ((∃ e, Api.fetchApi fetch endpoint options = inl e)
   ↔ Api.ok response = false ∨ ∃ e, Api.json response = inl e)
  ∧ (Api.ok response = false →
     Api.fetchApi fetch endpoint options
     = inl (ErrorObj (if decide (Api.text response = EmptyString)
                      then Api.statusText response else Api.text response)))
  ∧ (Api.ok response = true →
     Api.fetchApi fetch endpoint options = Api.json response).
Proof.
  intros Hf. split; [| split].
  - destruct (Api.ok response) eqn:Hok.
    + rewrite (fetchApi_ok _ _ _ _ Hf Hok).
      split; [by right | intros [Hfalse | Hjson]; [discriminate Hfalse | exact Hjson]].
    + rewrite (fetchApi_not_ok _ _ _ _ Hf Hok).
      split; [by left | intros _; by eexists].
  - by apply fetchApi_not_ok.
  - by apply fetchApi_ok.
Qed.

Lemma fetchApi_outcomes_witness :
  Api.fetchApi (λ _, inr conflict_response) "/nodes/create" None
  = inl (ErrorObj "node already exists").
Proof.
  pose proof (fetchApi_outcomes (λ _, inr conflict_response) "/nodes/create" None
                conflict_response eq_refl) as (_ & H & _).
  exact (H eq_refl).
Defined.

(** ** The store *)

Lemma same_but_position_move_to px py n : same_but_position n (move_to px py n).
Proof. repeat split. Qed.

Lemma same_but_graph_refl st : same_but_graph st st.
Proof. repeat split. Qed.

(** C1: after [deleteNode(nodeId)] whose request succeeded on a loaded
    graph, the graph has no node with that id and no edge from or to it,
    and every node with another id is still there (so is every edge that
    does not touch the id, and the files are as they were). *)
Theorem deleteNode_removes (r : DeleteResponse) (nodeId : string) (st : State) (g : Graph) :
  graph st = Some g →
  ∃ g', graph (deleteNode (inr r) nodeId st) = Some g'
    ∧ (∀ n, n ∈ nodes g' → node_id n ≠ nodeId)
    ∧ (∀ e, e ∈ edges g' → edge_from e ≠ nodeId ∧ edge_to e ≠ nodeId)
    ∧ (∀ n, n ∈ nodes g → node_id n ≠ nodeId → n ∈ nodes g')
    ∧ (∀ e, e ∈ edges g → edge_from e ≠ nodeId → edge_to e ≠ nodeId → e ∈ edges g')
    ∧ files g' = files g.
Proof.
  intros Hg. unfold deleteNode. rewrite Hg. simpl.
  eexists. split; [reflexivity |]. simpl.
  split; [| split; [| split; [| split; [| reflexivity]]]].
  - intros n Hn. by apply list_elem_of_filter in Hn as [? _].
  - intros e He. by apply list_elem_of_filter in He as [? _].
  - intros n Hn Hid. by apply list_elem_of_filter.
  - intros e He Hf Ht. by apply list_elem_of_filter.
Qed.

Lemma deleteNode_removes_witness :
  ∃ g', graph (deleteNode (inr {| delete_errors := [] |})
                 "Deployment/default/app" sample_state) = Some g'
    ∧ nodes g' = [sample_service] ∧ edges g' = [].
Proof.
  destruct (deleteNode_removes {| delete_errors := [] |} "Deployment/default/app"
              sample_state sample_graph eq_refl) as (g' & Hg' & _).
  exists g'. split; [exact Hg' |].
  vm_compute in Hg'. injection Hg' as <-. split; reflexivity.
Defined.

(** A failed delete request leaves the graph as it was. *)
Lemma deleteNode_failure_keeps_graph e nodeId st :
  graph (deleteNode (inl e) nodeId st) = graph st.
Proof. reflexivity. Qed.

(** C2: when the apply request fails, [applyChanges] leaves the graph
    (with every file's dirty flag) exactly as it was and re-raises the
    failure; and the graph the store holds afterwards differs from the
    one before only if the apply request succeeded, in which case it is
    the freshly loaded one. *)
Theorem applyChanges_failure_keeps_graph
    (apply : Outcome JsVal) (getGraph : Outcome Graph)
    (commitMessage : string) (createPR : bool) (prBranch : option string)
    (st : State) :
  let '(st', result) := applyChanges apply getGraph commitMessage createPR prBranch st in
  (∀ err, apply = inl err → graph st' = graph st ∧ result = inl err)
  ∧ (graph st' ≠ graph st →
     ∃ r fresh, apply = inr r ∧ getGraph = inr fresh
                ∧ graph st' = Some fresh ∧ result = inr r).
Proof.
  unfold applyChanges.
  destruct apply as [err | r]; simpl.
  - split.
    + intros err' [= <-]. split; reflexivity.
    + intros Hne. by destruct Hne.
  - split.
    + intros err [=].
    + unfold loadGraph. destruct getGraph as [err | fresh]; simpl.
      * intros Hne. by destruct Hne.
      * intros _. by exists r, fresh.
Qed.

Lemma applyChanges_failure_keeps_graph_witness :
  let '(st', result) :=
    applyChanges (inl (ErrorObj "push rejected")) (inr sample_graph)
      "update replicas" true None sample_state in
  graph st' = graph sample_state ∧ result = inl (ErrorObj "push rejected").
Proof.
  pose proof (applyChanges_failure_keeps_graph (inl (ErrorObj "push rejected"))
                (inr sample_graph) "update replicas" true None sample_state) as H.
  simpl in H. destruct H as [H _].
  exact (H (ErrorObj "push rejected") eq_refl).
Defined.

(** A successful apply followed by a successful reload installs the
    reloaded graph and returns the apply result. *)
Lemma applyChanges_success_reloads r fresh commitMessage createPR prBranch st :
  applyChanges (inr r) (inr fresh) commitMessage createPR prBranch st
  = (set_isLoading false
       (set_graph (Some fresh) (set_error None (set_isLoading true st))),
     inr r).
Proof. reflexivity. Qed.

(** C4: on a loaded graph [getDirtyFiles] returns exactly the file
    records whose [dirty] flag is true, and the empty list when no graph
    is loaded. *)
Theorem getDirtyFiles_exact (st : State) :
  match graph st with
  | Some g =>
      ∀ f, f ∈ getDirtyFiles st
           ↔ (∃ path, files g !! path = Some f) ∧ file_dirty f = true
  | None => getDirtyFiles st = []
  end.
Proof.
  unfold getDirtyFiles. destruct (graph st) as [g |]; [| reflexivity].
  intros f. rewrite list_elem_of_filter. unfold Object_values.
  rewrite list_elem_of_fmap. split.
  - intros [Hd ([path f'] & -> & Hin)]. simpl in *.
    apply elem_of_map_to_list in Hin. eauto.
  - intros [[path Hl] Hd]. split; [done |].
    exists (path, f). split; [done |]. by apply elem_of_map_to_list.
Qed.

(** On the sample graph, the dirty file is returned and the clean one
    is not. *)
Lemma getDirtyFiles_sample : getDirtyFiles sample_state = [sample_file].
Proof. vm_compute. reflexivity. Qed.

(** C7: [updateNodePosition(nodeId, x, y)] changes nothing but the
    [visual.x] and [visual.y] of a node whose id is [nodeId]: the other
    store fields, the edges, the files (and their dirty flags), every
    node with another id and every other field of the moved node are as
    before; without a graph, or without a node of that id, the state is
    unchanged. *)
Theorem updateNodePosition_frame (nodeId : string) (px py : Z) (st : State) :
  let st' := updateNodePosition nodeId px py st in
  same_but_graph st st'
  ∧ match graph st with
    | None => st' = st
    | Some g =>
        ∃ g', graph st' = Some g'
          ∧ edges g' = edges g ∧ files g' = files g
          ∧ length (nodes g') = length (nodes g)
          ∧ (∀ i n, nodes g !! i = Some n → node_id n ≠ nodeId →
                    nodes g' !! i = Some n)
          ∧ (∀ i n', nodes g' !! i = Some n' →
                     ∃ n, nodes g !! i = Some n
                          ∧ (n' = n
                             ∨ (node_id n = nodeId ∧ same_but_position n n'
                                ∧ visual_x (node_visual n') = px
                                ∧ visual_y (node_visual n') = py)))
          ∧ ((∀ n, n ∈ nodes g → node_id n ≠ nodeId) → st' = st)
    end.
Proof.
  unfold updateNodePosition.
  destruct (graph st) as [g |] eqn:Hg; [| split; [apply same_but_graph_refl | done]].
  destruct (list_find _ (nodes g)) as [[i node] |] eqn:Hfind.
  - apply list_find_Some in Hfind as (Hi & Hid & Hfirst).
    split; [repeat split |].
    eexists. split; [reflexivity |]. simpl.
    split; [done |]. split; [done |].
    split; [apply length_insert |].
    split; [| split].
    + intros j n Hj Hne.
      destruct (decide (i = j)) as [-> | Hij].
      * congruence.
      * by rewrite list_lookup_insert_ne.
    + intros j n' Hj.
      destruct (decide (i = j)) as [<- | Hij].
      * rewrite list_lookup_insert_eq in Hj by (by eapply lookup_lt_Some).
        injection Hj as <-. exists node. split; [done |]. right.
        split; [done |]. split; [apply same_but_position_move_to | done].
      * rewrite list_lookup_insert_ne in Hj by done. eauto.
    + intros Hnone. exfalso.
      apply (Hnone node); [| done]. by eapply list_elem_of_lookup_2.
  - split; [apply same_but_graph_refl |].
    exists g. split; [done |]. repeat split; eauto.
Qed.

(** Moving the service of the sample graph moves it and nothing else. *)
Lemma updateNodePosition_sample :
  graph (updateNodePosition "Service/default/app-svc" 120 45 sample_state)
  = Some (with_nodes [sample_deployment; move_to 120 45 sample_service] sample_graph).
Proof. vm_compute. reflexivity. Qed.

(** The first node with the id is found, also behind other nodes. *)
Lemma updateNodePosition_moves (nodeId : string) (px py : Z) (st : State) g i n :
  graph st = Some g →
  nodes g !! i = Some n →
  node_id n = nodeId →
  (∀ j m, nodes g !! j = Some m → j < i → node_id m ≠ nodeId) →
  graph (updateNodePosition nodeId px py st)
  = Some (with_nodes (<[i := move_to px py n]> (nodes g)) g).
Proof.
  intros Hg Hi Hid Hfirst. unfold updateNodePosition. rewrite Hg.
  assert (list_find (λ n, node_id n = nodeId) (nodes g) = Some (i, n)) as ->.
  { apply list_find_Some. eauto. }
  reflexivity.
Qed.

(** ** Saving an edited node *)

Section HandleSave.
Import PropertyEditor.

Lemma Object_keys_assign k v updates :
  Object_keys (assign k v updates) = (Object_keys updates ++ [k])%list.
Proof. unfold Object_keys, assign. by rewrite fmap_app. Qed.

(** The payload, field by field. *)
Lemma build_updates_entries node localNode :
  build_updates node localNode
  = ((if decide (node_name localNode ≠ node_name node)
      then [("name", JStr (node_name localNode))] else [])
     ++ (if decide (node_namespace localNode ≠ node_namespace node)
         then [("namespace", JStr (node_namespace localNode))] else [])
     ++ (if decide (JSON_stringify (Some (record_value (node_labels localNode)))
                    ≠ JSON_stringify (Some (record_value (node_labels node))))
         then [("labels", record_value (node_labels localNode))] else [])
     ++ (if decide (node_replicas localNode ≠ node_replicas node)
         then [("replicas", from_option JNum JUndefined (node_replicas localNode))]
         else [])
     ++ (if decide (node_serviceType localNode ≠ node_serviceType node)
         then [("serviceType",
                from_option JStr JUndefined (node_serviceType localNode))]
         else [])
     ++ (match node_selector localNode with
         | Some sel =>
             if decide (JSON_stringify (Some (record_value sel))
                        ≠ JSON_stringify (record_value <$> node_selector node))
             then [("selector", record_value sel)] else []
         | None => []
         end)
     ++ (match node_containers localNode with
         | Some cs =>
             if decide (JSON_stringify (Some (JArr cs))
                        ≠ JSON_stringify (JArr <$> node_containers node))
             then [("containers", JArr cs)] else []
         | None => []
         end)
     ++ (match node_ports localNode with
         | Some ps =>
             if decide (JSON_stringify (Some (JArr ps))
                        ≠ JSON_stringify (JArr <$> node_ports node))
             then [("ports", JArr ps)] else []
         | None => []
         end))%list.
Proof.
  unfold build_updates.
  destruct (node_selector localNode), (node_containers localNode),
    (node_ports localNode);
    repeat case_decide; reflexivity.
Qed.

Lemma elem_of_if_singleton {A} (c : Prop) `{Decision c} (k f : A) :
  k ∈ (if decide c then [f] else []) ↔ k = f ∧ c.
Proof.
  case_decide.
  - rewrite list_elem_of_singleton. tauto.
  - split; [by intros ?%elem_of_nil | tauto].
Qed.

Lemma elem_of_guarded {A B} (o : option A) (c : A → Prop)
    `{∀ x, Decision (c x)} (k : B) (f : A → B) :
  k ∈ match o with
      | Some x => if decide (c x) then [f x] else []
      | None => []
      end
  ↔ ∃ x, o = Some x ∧ k = f x ∧ c x.
Proof.
  destruct o as [x |].
  - rewrite elem_of_if_singleton. split.
    + intros [-> Hc]. by exists x.
    + intros (y & [= <-] & -> & Hc). done.
  - split; [by intros ?%elem_of_nil | by intros (y & [=] & _)].
Qed.

Lemma key_inj f f' : key f = key f' → f = f'.
Proof. destruct f, f'; simpl; intros H; try reflexivity; discriminate H. Qed.

(** Every entry of the payload is a compared field that is sent,
    with the edited value. *)
Lemma build_updates_entry node localNode (k : string) (v : JsVal) :
  (k, v) ∈ build_updates node localNode
  ↔ ∃ f, k = key f ∧ v = default JUndefined (field_value f localNode)
         ∧ sent f node localNode.
Proof.
  rewrite build_updates_entries, !elem_of_app, !elem_of_if_singleton.
  rewrite !(elem_of_guarded _ _ (k, v)).
  split.
  - intros [H | [H | [H | [H | [H | [H | [H | H]]]]]]].
    + exists Name. destruct H as [[= -> ->] H]. repeat split; simpl; congruence.
    + exists Namespace. destruct H as [[= -> ->] H]. repeat split; simpl; congruence.
    + exists Labels. destruct H as [[= -> ->] H].
      split; [done |]. split; [done |]. split; [done |]. exact H.
    + exists Replicas. destruct H as [[= -> ->] H].
      split; [done |]. split; [simpl; by destruct (node_replicas localNode) |].
      split; [done |]. simpl. intros Heq. apply H.
      destruct (node_replicas localNode), (node_replicas node);
        simpl in Heq; congruence.
    + exists ServiceType. destruct H as [[= -> ->] H].
      split; [done |]. split; [simpl; by destruct (node_serviceType localNode) |].
      split; [done |]. simpl. intros Heq. apply H.
      destruct (node_serviceType localNode), (node_serviceType node);
        simpl in Heq; congruence.
    + exists Selector. destruct H as (x & Hx & [= -> ->] & H).
      split; [done |]. unfold sent. simpl. rewrite Hx. simpl.
      split; [done |]. split; [by eexists | done].
    + exists Containers. destruct H as (x & Hx & [= -> ->] & H).
      split; [done |]. unfold sent. simpl. rewrite Hx. simpl.
      split; [done |]. split; [by eexists | done].
    + exists Ports. destruct H as (x & Hx & [= -> ->] & H).
      split; [done |]. unfold sent. simpl. rewrite Hx. simpl.
      split; [done |]. split; [by eexists | done].
  - intros (f & -> & -> & Hsk & Hd). destruct f; simpl in *.
    + left. split; [done | congruence].
    + right; left. split; [done | congruence].
    + do 2 right; left. done.
    + do 3 right; left.
      split; [by destruct (node_replicas localNode) | congruence].
    + do 4 right; left.
      split; [by destruct (node_serviceType localNode) | congruence].
    + do 5 right; left.
      destruct (Hsk eq_refl) as [w Hw].
      destruct (node_selector localNode) as [x |]; [| discriminate Hw].
      exists x. done.
    + do 6 right; left.
      destruct (Hsk eq_refl) as [w Hw].
      destruct (node_containers localNode) as [x |]; [| discriminate Hw].
      exists x. done.
    + do 7 right.
      destruct (Hsk eq_refl) as [w Hw].
      destruct (node_ports localNode) as [x |]; [| discriminate Hw].
      exists x. done.
Qed.

Lemma build_updates_key node localNode (k : string) :
  k ∈ Object_keys (build_updates node localNode)
  ↔ ∃ f, k = key f ∧ sent f node localNode.
Proof.
  unfold Object_keys. rewrite list_elem_of_fmap. split.
  - intros ([k' v] & -> & Hin). apply build_updates_entry in Hin as (f & ? & _ & ?).
    by exists f.
  - intros (f & -> & Hs).
    exists (key f, default JUndefined (field_value f localNode)).
    split; [done |]. apply build_updates_entry. by exists f.
Qed.

(** A field that is sent differs from the node's current value. *)
Lemma sent_differs f node localNode :
  sent f node localNode → field_value f localNode ≠ field_value f node.
Proof.
  intros [_ Hd]. destruct (compared_by_text f); [congruence | done].
Qed.

Lemma handleSave_calls node localNode :
  handleSave node localNode
  = match build_updates node localNode with
    | [] => [CallOnClose]
    | _ :: _ =>
        [CallUpdateNode (node_id node) (build_updates node localNode); CallOnClose]
    end.
Proof.
  unfold handleSave, Object_keys.
  destruct (build_updates node localNode) as [| kv rest].
  - reflexivity.
  - destruct (decide _) as [_ | Hn]; [reflexivity |].
    exfalso. apply Hn. simpl. lia.
Qed.

End HandleSave.

(** C3, as stated, does not hold: [handleSave] guards [selector],
    [containers] and [ports] by the truthiness of the edited value, so an
    edited copy without a selector differs from a node that has one, and
    the payload still has no [selector]. *)
Lemma handleSave_skips_absent_selector :
  ¬ (∀ node localNode f,
       PropertyEditor.key f
         ∈ PropertyEditor.Object_keys (PropertyEditor.build_updates node localNode)
       ↔ PropertyEditor.field_value f localNode ≠ PropertyEditor.field_value f node).
Proof.
  intros H.
  destruct (H sample_service service_without_selector PropertyEditor.Selector)
    as [_ Hin].
  apply build_updates_key in Hin; [| discriminate].
  destruct Hin as (f & Hk & Hsent).
  apply key_inj in Hk as <-.
  destruct Hsent as [Hsome _].
  destruct (Hsome eq_refl) as [v Hv]. discriminate Hv.
Qed.

(** The same on the whole save: nothing differs but the selector, and
    [updateNode] is not called. *)
Lemma handleSave_skips_absent_selector_calls :
  PropertyEditor.handleSave sample_service service_without_selector
  = [PropertyEditor.CallOnClose].
Proof. vm_compute. reflexivity. Qed.

(** The editor keeps its local copy when another node is selected while
    it is open.  Saving then compares the service with the copy of the
    deployment: [selector] and [ports] differ and are left out, because
    the copy has neither. *)
Lemma handleSave_stale_copy :
  PropertyEditor.handleSave sample_service sample_deployment
  = [PropertyEditor.CallUpdateNode "Service/default/app-svc"
       [("name", JStr "app");
        ("labels", JObj [("app", JStr "web")]);
        ("replicas", JNum 2);
        ("serviceType", JUndefined);
        ("containers", JArr [])];
     PropertyEditor.CallOnClose].
Proof. vm_compute. reflexivity. Qed.

(** C3, amended: the payload [handleSave] builds holds only fields among
    the eight compared ones, each with the edited value, and only fields
    whose edited value differs from the node's.  [name], [namespace],
    [replicas] and [serviceType] are in it exactly when the edited value
    differs; [labels] exactly when the two [JSON.stringify] texts
    differ; [selector], [containers] and [ports] exactly when the edited
    value is present and the two texts differ.  [updateNode] is called,
    with the node's id and this payload, exactly when the payload has a
    field. *)
Theorem handleSave_sparse_patch (node localNode : GraphNode) :
  let updates := PropertyEditor.build_updates node localNode in
  (∀ f, PropertyEditor.key f ∈ PropertyEditor.Object_keys updates
        ↔ PropertyEditor.sent f node localNode)
  ∧ (∀ k v, (k, v) ∈ updates →
       ∃ f, k = PropertyEditor.key f
            ∧ v = default JUndefined (PropertyEditor.field_value f localNode)
            ∧ PropertyEditor.field_value f localNode
              ≠ PropertyEditor.field_value f node)
  ∧ (∀ f, PropertyEditor.skipped_when_absent f = false →
          PropertyEditor.compared_by_text f = false →
          (PropertyEditor.key f ∈ PropertyEditor.Object_keys updates
           ↔ PropertyEditor.field_value f localNode
             ≠ PropertyEditor.field_value f node))
  ∧ PropertyEditor.handleSave node localNode
    = match updates with
      | [] => [PropertyEditor.CallOnClose]
      | _ :: _ =>
          [PropertyEditor.CallUpdateNode (node_id node) updates;
           PropertyEditor.CallOnClose]
      end.
Proof.
  assert (∀ f, PropertyEditor.key f
                 ∈ PropertyEditor.Object_keys
                     (PropertyEditor.build_updates node localNode)
               ↔ PropertyEditor.sent f node localNode) as Hkeys.
  { intros f. rewrite build_updates_key. split.
    - intros (f' & Hk & Hs). by apply key_inj in Hk as ->.
    - intros Hs. by exists f. }
  simpl. split; [exact Hkeys |]. split; [| split].
  - intros k v Hin. apply build_updates_entry in Hin as (f & -> & -> & Hs).
    exists f. split; [done |]. split; [done |]. by eapply sent_differs.
  - intros f Hsk Htext. rewrite Hkeys. unfold PropertyEditor.sent.
    rewrite Hsk, Htext. split; [by intros [_ ?] | by split].
  - apply handleSave_calls.
Qed.

(** An edited replica count is the whole payload. *)
Lemma handleSave_sample :
  PropertyEditor.handleSave sample_deployment
    (Engine.with_id (node_id sample_deployment)
       {| node_id := EmptyString; node_kind := "Deployment"; node_name := "app";
          node_namespace := "default"; node_filePath := "k8s/app.yaml";
          node_labels := [("app", "web")]; node_spec := JObj [];
          node_visual := sample_visual; node_replicas := Some 3%Z;
          node_containers := Some []; node_ports := None;
          node_selector := None; node_serviceType := None |})
  = [PropertyEditor.CallUpdateNode "Deployment/default/app" [("replicas", JNum 3)];
     PropertyEditor.CallOnClose].
Proof. vm_compute. reflexivity. Qed.

(** ** Applying changes *)

Section HandleApply.
Import App.

Lemma trimStart_chars_nil cs :
  trimStart_chars cs = [] ↔ Forall (λ c, is_space c = true) cs.
Proof.
  induction cs as [| c cs IH]; simpl.
  - split; [constructor | done].
  - destruct (is_space c) eqn:Hc.
    + rewrite IH. split; [by constructor | by inversion 1].
    + split; [done |]. inversion 1. congruence.
Qed.

(** What [trimStart] leaves does not start with white space. *)
Lemma trimStart_chars_head cs c rest :
  trimStart_chars cs = c :: rest → is_space c = false.
Proof.
  induction cs as [| d cs IH]; simpl; [done |].
  destruct (is_space d) eqn:Hd; [done |].
  by intros [= <- _].
Qed.

Lemma trimStart_chars_Forall (P : Char → Prop) cs :
  Forall P cs → Forall P (trimStart_chars cs).
Proof.
  induction 1 as [| c cs Hc Hcs IH]; simpl; [constructor |].
  destruct (is_space c); [done | by constructor].
Qed.

Lemma string_of_list_ascii_empty cs :
  string_of_list_ascii cs = EmptyString ↔ cs = [].
Proof. destruct cs; simpl; split; congruence. Qed.

(** A sequence takes at least one byte. *)
Lemma sequence_length bs len c : sequence bs = Some (len, c) → (1 ≤ len)%nat.
Proof.
  unfold sequence, sequence1, sequence2, sequence3, sequence4.
  destruct bs as [| b0 [| b1 [| b2 [| b3 rest]]]]; simpl;
    repeat (match goal with
            | |- context [if ?b then _ else _] => destruct b
            end; simpl);
    intros [= <- _]; lia.
Qed.

(** Cutting a text into characters loses no byte: the bytes of the
    characters, in order, are the text. *)
Lemma chars_upto_bytes n bs :
  (length bs ≤ n)%nat → mjoin (char_bytes <$> chars_upto n bs) = bs.
Proof.
  revert bs. induction n as [| n IH]; intros bs Hn.
  - destruct bs; [done | simpl in Hn; lia].
  - destruct bs as [| b rest]; [done |].
    cbn [chars_upto].
    destruct (sequence (N_of_ascii <$> b :: rest)) as [[len c] |] eqn:Hseq.
    + apply sequence_length in Hseq.
      rewrite fmap_cons. cbn [mjoin list_join char_bytes]. rewrite IH.
      * apply take_drop.
      * rewrite length_drop. simpl in *. lia.
    + rewrite fmap_cons. cbn [mjoin list_join char_bytes]. rewrite IH; [done |].
      simpl in Hn. lia.
Qed.

Lemma length_list_ascii_of_string s :
  length (list_ascii_of_string s) = String.length s.
Proof. induction s as [| c s IH]; simpl; [done | by rewrite IH]. Qed.

Lemma text_of_chars s : text_of (chars s) = s.
Proof.
  unfold text_of, chars. rewrite chars_upto_bytes.
  - apply string_of_list_ascii_of_string.
  - by rewrite length_list_ascii_of_string.
Qed.

(** Every character has a byte. *)
Lemma chars_upto_nonempty n bs :
  Forall (λ c, char_bytes c ≠ []) (chars_upto n bs).
Proof.
  revert bs. induction n as [| n IH]; intros bs; [constructor |].
  destruct bs as [| b rest]; [constructor |].
  cbn [chars_upto].
  destruct (sequence (N_of_ascii <$> b :: rest)) as [[len c] |] eqn:Hseq.
  - apply sequence_length in Hseq. constructor; [| apply IH].
    destruct len; [lia | done].
  - constructor; [done | apply IH].
Qed.

Lemma text_of_empty cs :
  Forall (λ c, char_bytes c ≠ []) cs → text_of cs = EmptyString ↔ cs = [].
Proof.
  intros Hcs. unfold text_of. rewrite string_of_list_ascii_empty.
  destruct Hcs as [| c cs Hc _]; [done |].
  rewrite fmap_cons. cbn [mjoin list_join].
  split; [| done]. intros H. apply app_eq_nil in H as [H _]. done.
Qed.

(** [trim] yields the empty string exactly on blank strings. *)
Lemma trim_empty_iff_blank s : trim s = EmptyString ↔ blank s.
Proof.
  unfold trim, blank.
  rewrite text_of_empty.
  2:{ apply Forall_rev, trimStart_chars_Forall, Forall_rev,
        trimStart_chars_Forall, chars_upto_nonempty. }
  rewrite <- trimStart_chars_nil.
  split.
  - intros H.
    apply (f_equal (@rev Char)) in H. rewrite rev_involutive in H. simpl in H.
    apply trimStart_chars_nil in H.
    destruct (trimStart_chars (chars s)) as [| c rest] eqn:Hs; [done |].
    apply trimStart_chars_head in Hs.
    rewrite Forall_forall in H. specialize (H c).
    rewrite H in Hs; [done |].
    apply list_elem_of_In, (proj1 (in_rev _ _)). by left.
  - intros ->. reflexivity.
Qed.

Lemma handleApply_calls apply getGraph ui st :
  (handleApply apply getGraph ui st).2
  = if truthy_string (trim (commitMessage ui))
    then [ {| call_commitMessage := commitMessage ui;
              call_createPR := createPR ui;
              call_prBranch := None |} ]
    else [].
Proof.
  unfold handleApply.
  destruct (truthy_string (trim (commitMessage ui))); simpl; [| reflexivity].
  by destruct (applyChanges _ _ _ _ _ _) as [st' [err | r]].
Qed.

End HandleApply.

(** C10: when the trimmed commit message is empty, that is when the
    message is empty or white space only, [handleApply] returns at once:
    it leaves the component and the store as they are and does not call
    [applyChanges], and the Apply button is disabled.  So every call of
    [applyChanges] that [handleApply] makes carries a message that is not
    blank. *)
Theorem handleApply_blank_message
    (apply : Outcome JsVal) (getGraph : Outcome Graph) (ui : App.Ui) (st : State) :
  (App.blank (App.commitMessage ui) ↔ App.trim (App.commitMessage ui) = EmptyString)
  ∧ (App.trim (App.commitMessage ui) = EmptyString →
     App.handleApply apply getGraph ui st = (ui, st, [])
     ∧ App.apply_button_disabled ui = true)
  ∧ (∀ call, call ∈ (App.handleApply apply getGraph ui st).2 →
       call = {| App.call_commitMessage := App.commitMessage ui;
                 App.call_createPR := App.createPR ui;
                 App.call_prBranch := None |}
       ∧ ¬ App.blank (App.call_commitMessage call)).
Proof.
  split; [symmetry; apply trim_empty_iff_blank |]. split.
  - intros Ht. unfold App.handleApply, App.apply_button_disabled.
    rewrite Ht. by simpl.
  - intros call Hin. rewrite handleApply_calls in Hin.
    destruct (truthy_string (App.trim (App.commitMessage ui))) eqn:Ht.
    + apply list_elem_of_singleton in Hin as ->. split; [done |]. simpl.
      rewrite <- trim_empty_iff_blank. intros He. by rewrite He in Ht.
    + by apply elem_of_nil in Hin.
Qed.

Lemma handleApply_blank_message_witness :
  App.handleApply (inr JNull) (inr sample_graph) wide_blank_message_ui sample_state
  = (wide_blank_message_ui, sample_state, [])
  ∧ App.apply_button_disabled wide_blank_message_ui = true.
Proof.
  pose proof (handleApply_blank_message (inr JNull) (inr sample_graph)
                wide_blank_message_ui sample_state) as (_ & H & _).
  apply H. vm_compute. reflexivity.
Defined.

(** [trim] on text with white space of one, two and three bytes at both
    ends. *)
Lemma trim_sample :
  App.trim (" " +:+ wide_blank_message +:+ "fix  replicas" +:+ wide_blank_message
            +:+ String (ascii_of_N 0x0A) EmptyString)
  = "fix  replicas"
  ∧ App.trim "   " = EmptyString.
Proof. split; vm_compute; reflexivity. Qed.

(** With a message, the apply request is made with it, and success
    closes the modal and clears the message. *)
Lemma handleApply_sample :
  App.handleApply (inr JNull) (inr sample_graph)
    (App.setCommitMessage "scale app" blank_message_ui) sample_state
  = (App.setShowApplyModal false App.initial_ui,
     set_isLoading false (set_graph (Some sample_graph)
                            (set_error None (set_isLoading true sample_state))),
     [ {| App.call_commitMessage := "scale app"; App.call_createPR := true;
          App.call_prBranch := None |} ]).
Proof. reflexivity. Qed.

(** ** The engine: selector edges and node creation *)

Section Resolver.
Import Engine.


Lemma selector_matches_empty labels : selector_matches [] labels = false.
Proof. reflexivity. Qed.

Lemma elem_of_selector_edges_among target ns e :
  e ∈ selector_edges_among target ns
  ↔ ∃ s t, s ∈ ns ∧ t ∈ ns ∧ selector_rule target s t = true
           ∧ e = {| edge_from := node_id s; edge_to := node_id t;
                    edge_relationType := rel_selector |}.
Proof.
  unfold selector_edges_among. rewrite list_elem_of_bind. split.
  - intros (s & Hin & Hs). apply list_elem_of_bind in Hin as (t & Hin & Ht).
    destruct (selector_rule target s t) eqn:Hrule.
    + apply list_elem_of_singleton in Hin. by exists s, t.
    + by apply elem_of_nil in Hin.
  - intros (s & t & Hs & Ht & Hrule & ->).
    exists s. split; [| done]. apply list_elem_of_bind.
    exists t. split; [| done]. rewrite Hrule. by apply list_elem_of_singleton.
Qed.

Lemma selector_rule_spec target s t :
  selector_rule target s t = true
  ↔ node_kind s = "Service" ∧ target t = true
    ∧ node_namespace s = node_namespace t
    ∧ ∃ sel, node_selector s = Some sel
             ∧ selector_matches sel (node_labels t) = true.
Proof.
  unfold selector_rule.
  rewrite !andb_true_iff, !bool_decide_eq_true.
  destruct (node_selector s) as [sel |]; split.
  - intros [[[? ?] ?] ?]. eauto 10.
  - intros (? & ? & ? & sel' & [= <-] & ?). done.
  - intros [_ ?]. done.
  - intros (_ & _ & _ & sel' & [=] & _).
Qed.


End Resolver.



(** The edges of section 4.3's reading, to Deployments and Pods only,
    are among the edges of section 8's. *)
Lemma selector_edges_targets_included (ns : list GraphNode) (e : GraphEdge) :
  e ∈ Engine.selector_edges_among Engine.is_selector_target ns →
  e ∈ Engine.selector_edges ns.
Proof.
  intros (s & t & Hs & Ht & Hrule & ->)%elem_of_selector_edges_among.
  apply elem_of_selector_edges_among. exists s, t.
  split; [done |]. split; [done |]. split; [| done].
  apply selector_rule_spec in Hrule as (Hkind & _ & Hns & Hsel).
  by apply selector_rule_spec.
Qed.



(** The example scenario of the spec: one [selector] edge from the
    service to the deployment. *)
Lemma selector_edges_sample :
  Engine.selector_edges [sample_deployment; sample_service]
  = [selector_edge sample_service sample_deployment].
Proof. vm_compute. reflexivity. Qed.

(** C9: [createNode] with a node whose (kind, namespace, name) is already
    in the graph fails with [ConflictError] and leaves the graph, hence
    its node count, as it was. *)
Theorem createNode_conflict
    (make_id : string → string → string → string)
    (resolve : list GraphNode → list GraphEdge)
    (node : GraphNode) (g : Graph) :
  (∃ n, n ∈ nodes g ∧ node_kind n = node_kind node
        ∧ node_namespace n = node_namespace node
        ∧ node_name n = node_name node) →
  let '(g', result) := Engine.createNode make_id resolve node g in
  result = inl Engine.ConflictError
  ∧ g' = g
  ∧ length (nodes g') = length (nodes g).
Proof.
  intros (n & Hin & Hk & Hns & Hname).
  unfold Engine.createNode.
  destruct (decide _) as [_ | Hfresh]; [done |].
  exfalso. apply Hfresh. apply list_elem_of_fmap.
  exists n. split; [| done]. unfold Engine.identity. congruence.
Qed.

Lemma createNode_conflict_witness :
  Engine.createNode slash_id Engine.selector_edges
    (Engine.with_id EmptyString sample_deployment) sample_graph
  = (sample_graph, inl Engine.ConflictError).
Proof.
  pose proof (createNode_conflict slash_id Engine.selector_edges
                (Engine.with_id EmptyString sample_deployment) sample_graph) as H.
  destruct (Engine.createNode _ _ _ _) as [g' result].
  destruct H as (-> & -> & _); [| reflexivity].
  exists sample_deployment. split; [repeat constructor | done].
Defined.

(** A node with a fresh identity is added, with its id, at the end. *)
Lemma createNode_fresh make_id resolve node g :
  Engine.identity node ∉ Engine.identity <$> nodes g →
  ∃ g', Engine.createNode make_id resolve node g = (g', inr tt)
        ∧ length (nodes g') = S (length (nodes g))
        ∧ is_Some (files g' !! node_filePath node).
Proof.
  intros Hfresh. unfold Engine.createNode.
  destruct (decide _) as [Hin | _]; [done |].
  eexists. split; [reflexivity |]. simpl. split.
  - rewrite length_app. simpl. lia.
  - rewrite lookup_insert_eq. by eexists.
Qed.

(** ** The shape of the store's graph *)

Section Shape.
Import Dyn.

Lemma lookup_prop_assign_eq k x props :
  lookup_prop k (assign_prop k x props) = Some x.
Proof.
  induction props as [| [k' v] props IH]; simpl.
  - by rewrite String.eqb_refl.
  - destruct (String.eqb k k') eqn:Hk; simpl; rewrite Hk; [done | exact IH].
Qed.

Lemma lookup_prop_assign_ne k k' x props :
  k ≠ k' → lookup_prop k (assign_prop k' x props) = lookup_prop k props.
Proof.
  intros Hne. induction props as [| [k'' v] props IH]; simpl.
  - by apply String.eqb_neq in Hne as ->.
  - destruct (String.eqb k' k'') eqn:Hk; simpl.
    + apply String.eqb_eq in Hk as <-.
      by apply String.eqb_neq in Hne as ->.
    + by rewrite IH.
Qed.

Lemma has_assign_eq k p x props : has k p (assign_prop k x props) = p x.
Proof. unfold has. by rewrite lookup_prop_assign_eq. Qed.

Lemma has_assign_ne k k' p x props :
  k ≠ k' → has k p (assign_prop k' x props) = has k p props.
Proof. intros Hne. unfold has. by rewrite lookup_prop_assign_ne. Qed.

Lemma filterM_forallb p q l kept :
  filterM p l = inr kept → forallb q l = true → forallb q kept = true.
Proof.
  revert kept. induction l as [| a l IH]; simpl; intros kept Hf Hq.
  - by injection Hf as <-.
  - apply andb_true_iff in Hq as [Hqa Hql].
    destruct (p a) as [e | keep]; [done |].
    destruct (filterM p l) as [e | rest]; [done |].
    injection Hf as <-. specialize (IH rest eq_refl Hql).
    destruct keep; simpl; [by rewrite Hqa | done].
Qed.

Lemma findM_lookup p n l i a :
  findM p n l = inr (Some (i, a)) → (n ≤ i)%nat ∧ l !! (i - n)%nat = Some a.
Proof.
  revert n. induction l as [| b l IH]; simpl; intros n Hf; [done |].
  destruct (p b) as [e | [|]]; [done | |].
  - injection Hf as <- <-. split; [lia |]. by rewrite Nat.sub_diag.
  - apply IH in Hf as [Hle Hl]. split; [lia |].
    replace (i - n)%nat with (S (i - S n)) by lia. done.
Qed.

Lemma forallb_lookup (q : JsVal → bool) l i a :
  forallb q l = true → l !! i = Some a → q a = true.
Proof.
  intros Hq Hl. rewrite forallb_forall in Hq. apply Hq.
  apply list_elem_of_In. by eapply list_elem_of_lookup_2.
Qed.

Lemma forallb_insert (q : JsVal → bool) l i a :
  forallb q l = true → q a = true → forallb q (<[i := a]> l) = true.
Proof.
  revert i. induction l as [| b l IH]; intros i Hq Ha; [done |].
  simpl in Hq. apply andb_true_iff in Hq as [Hb Hl].
  destruct i; simpl; apply andb_true_iff; auto.
Qed.

(** Moving a graph node leaves a graph node. *)
Lemma move_node_GraphNode px py node node' :
  is_GraphNode node = true → move_node px py node = Some node' →
  is_GraphNode node' = true.
Proof.
  destruct node as [| | | | | | props]; try done.
  unfold move_node, is_GraphNode. simpl.
  intros Hn. apply andb_true_iff in Hn as [Hid Hvis].
  destruct (lookup_prop "visual" props) as [[| | | | | | vprops] |];
    simpl; intros [= <-]; simpl.
  - by rewrite Hid, Hvis.
  - rewrite has_assign_ne by done. rewrite has_assign_eq. by rewrite Hid.
Qed.

Lemma well_shaped_put_nodes props items :
  well_shaped (JObj props) = true →
  forallb is_GraphNode items = true →
  well_shaped (put "nodes" (JArr items) (JObj props)) = true.
Proof.
  simpl. intros H Hitems.
  apply andb_true_iff in H as [H Hfiles]. apply andb_true_iff in H as [_ Hedges].
  rewrite has_assign_eq. rewrite !has_assign_ne by done.
  simpl. by rewrite Hitems, Hedges, Hfiles.
Qed.

Lemma well_shaped_put_edges props items :
  well_shaped (JObj props) = true →
  forallb is_GraphEdge items = true →
  well_shaped (put "edges" (JArr items) (JObj props)) = true.
Proof.
  simpl. intros H Hitems.
  apply andb_true_iff in H as [H Hfiles]. apply andb_true_iff in H as [Hnodes _].
  rewrite has_assign_eq. rewrite !has_assign_ne by done.
  simpl. by rewrite Hitems, Hnodes, Hfiles.
Qed.

Lemma well_shaped_object graph :
  well_shaped graph = true → ∃ props, graph = JObj props.
Proof. destruct graph; try done. by eexists. Qed.

Lemma has_lookup k p props :
  has k p props = true → ∃ v, lookup_prop k props = Some v ∧ p v = true.
Proof. unfold has. destruct (lookup_prop k props); [eauto | done]. Qed.

Lemma list_of_array p v : list_of p v = true → ∃ items, v = JArr items ∧ forallb p items = true.
Proof. destruct v; try done. eauto. Qed.

Lemma filter_in_place_nodes_shape p graph :
  well_shaped graph = true →
  well_shaped (filter_in_place "nodes" p graph).1 = true.
Proof.
  intros Hw. destruct (well_shaped_object _ Hw) as [props ->].
  unfold filter_in_place. simpl.
  pose proof Hw as Hw'. simpl in Hw'.
  apply andb_true_iff in Hw' as [Hw' _]. apply andb_true_iff in Hw' as [Hn _].
  apply has_lookup in Hn as (v & -> & Hv).
  apply list_of_array in Hv as (items & -> & Hitems). simpl.
  destruct (filterM p items) as [e | kept] eqn:Hf; [done |].
  apply well_shaped_put_nodes; [done |]. by eapply filterM_forallb.
Qed.

Lemma filter_in_place_edges_shape p graph :
  well_shaped graph = true →
  well_shaped (filter_in_place "edges" p graph).1 = true.
Proof.
  intros Hw. destruct (well_shaped_object _ Hw) as [props ->].
  unfold filter_in_place. simpl.
  pose proof Hw as Hw'. simpl in Hw'.
  apply andb_true_iff in Hw' as [Hw' _]. apply andb_true_iff in Hw' as [_ He].
  apply has_lookup in He as (v & -> & Hv).
  apply list_of_array in Hv as (items & -> & Hitems). simpl.
  destruct (filterM p items) as [e | kept] eqn:Hf; [done |].
  apply well_shaped_put_edges; [done |]. by eapply filterM_forallb.
Qed.

Lemma deleteNode_shape delete nodeId graph :
  well_shaped graph = true → well_shaped (deleteNode delete nodeId graph) = true.
Proof.
  intros Hw. unfold deleteNode.
  destruct delete as [e | r]; [done |].
  destruct (get "errors" r); [done |].
  destruct (truthy graph); [| done].
  pose proof (filter_in_place_nodes_shape (keeps_node nodeId) graph Hw) as H1.
  destruct (filter_in_place "nodes" _ graph) as [graph1 threw]. simpl in H1.
  destruct threw; [done |].
  by apply filter_in_place_edges_shape.
Qed.

Lemma updateNodePosition_shape nodeId px py graph :
  well_shaped graph = true →
  well_shaped (updateNodePosition nodeId px py graph) = true.
Proof.
  intros Hw. unfold updateNodePosition.
  destruct (truthy graph); simpl; [| done].
  destruct (well_shaped_object _ Hw) as [props ->]. simpl.
  pose proof Hw as Hw'. simpl in Hw'.
  apply andb_true_iff in Hw' as [Hw' _]. apply andb_true_iff in Hw' as [Hn _].
  apply has_lookup in Hn as (v & -> & Hv).
  apply list_of_array in Hv as (items & -> & Hitems). simpl.
  destruct (findM _ 0 items) as [e | [[i node] |]] eqn:Hfind; [done | | done].
  apply findM_lookup in Hfind as [_ Hi]. rewrite Nat.sub_0_r in Hi.
  destruct (truthy node); [| done].
  destruct (move_node px py node) as [node' |] eqn:Hm; [| done].
  apply well_shaped_put_nodes; [done |].
  apply forallb_insert; [done |].
  eapply move_node_GraphNode; [| done]. by eapply forallb_lookup.
Qed.

Lemma step_graph_ok graph a :
  graph_ok graph → server_keeps_contract a → graph_ok (step graph a).
Proof.
  intros Hg Ha. destruct a as [o | o | o | o nodeId | nodeId px py | o1 o2]; simpl in *.
  - destruct o as [e | g]; [done | by right].
  - unfold loadFromGitHub, install_graph_of. destruct o as [e | r]; [done |].
    simpl in Ha. destruct (get "graph" r); [done | by right].
  - unfold updateNode, install_graph_of. destruct o as [e | r]; [done |].
    simpl in Ha. destruct (get "graph" r); [done | by right].
  - destruct Hg as [-> | Hw].
    + left. unfold deleteNode. destruct o as [e | r]; [done |].
      by destruct (get "errors" r).
    + right. by apply deleteNode_shape.
  - destruct Hg as [-> | Hw]; [by left |]. right. by apply updateNodePosition_shape.
  - unfold applyChanges. destruct o1 as [e | r]; [done |].
    destruct o2 as [e | g]; [done | by right].
Qed.

End Shape.

(** ** The typed store and the untyped one agree *)

Section Agreement.
Import Dyn.

Lemma eqb_decide (a b : string) :
  String.eqb a b = bool_decide (a = b).
Proof.
  destruct (String.eqb_spec a b) as [-> | Hne].
  - by rewrite bool_decide_eq_true_2.
  - by rewrite bool_decide_eq_false_2.
Qed.

Lemma filterM_encode_nodes nodeId (ns : list GraphNode) :
  filterM (keeps_node nodeId) (encode_node <$> ns)
  = inr (encode_node <$> filter (λ n, node_id n ≠ nodeId) ns).
Proof.
  induction ns as [| n ns IH]; [reflexivity |].
  rewrite fmap_cons. simpl filterM. rewrite IH.
  unfold keeps_node. simpl get. cbn [strict_eq_string]. rewrite eqb_decide.
  rewrite filter_cons. case_decide as Hd.
  - by rewrite bool_decide_eq_false_2.
  - by rewrite bool_decide_eq_true_2.
Qed.

Lemma filterM_encode_edges nodeId (es : list GraphEdge) :
  filterM (keeps_edge nodeId) (encode_edge <$> es)
  = inr (encode_edge
           <$> filter (λ e, edge_from e ≠ nodeId ∧ edge_to e ≠ nodeId) es).
Proof.
  induction es as [| e es IH]; [reflexivity |].
  rewrite fmap_cons. simpl filterM. rewrite IH.
  unfold keeps_edge. simpl get. cbn [strict_eq_string]. rewrite !eqb_decide.
  rewrite filter_cons.
  destruct (decide (edge_from e = nodeId)) as [Hf | Hf].
  - rewrite (bool_decide_eq_true_2 _ Hf). simpl.
    rewrite decide_False by tauto. done.
  - rewrite (bool_decide_eq_false_2 _ Hf). simpl.
    destruct (decide (edge_to e = nodeId)) as [Ht | Ht].
    + rewrite (bool_decide_eq_true_2 _ Ht). simpl.
      rewrite decide_False by tauto. done.
    + rewrite (bool_decide_eq_false_2 _ Ht). simpl.
      rewrite decide_True by tauto. done.
Qed.

(** On the encoding of a typed graph, the untyped [deleteNode] does
    what the typed one does. *)
Lemma deleteNode_encode (r : JsVal) errors (nodeId : string) (g : Graph) :
  get "errors" r = inr errors →
  deleteNode (inr r) nodeId (encode_graph g)
  = encode_graph
      (with_edges (filter (λ e, edge_from e ≠ nodeId ∧ edge_to e ≠ nodeId) (edges g))
         (with_nodes (filter (λ n, node_id n ≠ nodeId) (nodes g)) g)).
Proof.
  intros Hr. unfold deleteNode. rewrite Hr.
  unfold encode_graph, filter_in_place. simpl.
  rewrite filterM_encode_nodes. simpl.
  rewrite filterM_encode_edges. reflexivity.
Qed.

Lemma findM_encode nodeId k (ns : list GraphNode) :
  findM (has_id nodeId) k (encode_node <$> ns)
  = inr ((λ '(i, n), ((k + i)%nat, encode_node n))
           <$> list_find (λ n, node_id n = nodeId) ns).
Proof.
  revert k. induction ns as [| n ns IH]; intros k; [reflexivity |].
  rewrite fmap_cons. simpl findM.
  unfold has_id at 1. simpl get. cbn [strict_eq_string]. rewrite eqb_decide.
  cbn [list_find]. case_decide as Hd.
  - rewrite bool_decide_eq_true_2 by done. simpl. by rewrite Nat.add_0_r.
  - rewrite bool_decide_eq_false_2 by done. rewrite IH.
    destruct (list_find _ ns) as [[i m] |]; simpl; [| done].
    do 3 f_equal. lia.
Qed.

Lemma move_node_encode px py n :
  move_node (JNum px) (JNum py) (encode_node n) = Some (encode_node (move_to px py n)).
Proof. reflexivity. Qed.

(** On the encoding of a typed graph, the untyped
    [updateNodePosition] does what the typed one does. *)
Lemma updateNodePosition_encode (nodeId : string) (px py : Z) (g : Graph) :
  updateNodePosition nodeId (JNum px) (JNum py) (encode_graph g)
  = encode_graph
      match list_find (λ n, node_id n = nodeId) (nodes g) with
      | Some (i, node) => with_nodes (<[i := move_to px py node]> (nodes g)) g
      | None => g
      end.
Proof.
  unfold updateNodePosition, encode_graph. simpl.
  rewrite findM_encode.
  destruct (list_find _ (nodes g)) as [[i node] |]; simpl; [| done].
  by rewrite list_fmap_insert.
Qed.

Lemma forallb_fmap_true {A B} (q : B → bool) (f : A → B) (l : list A) :
  (∀ x, q (f x) = true) → forallb q (f <$> l) = true.
Proof. intros H. induction l; simpl; [done |]. by rewrite H. Qed.

(** The encoding of a typed graph has the transmitted shape. *)
Lemma well_shaped_encode g : well_shaped (encode_graph g) = true.
Proof.
  unfold well_shaped, encode_graph, has. simpl.
  rewrite !forallb_fmap_true; done.
Qed.

End Agreement.

(** ** Reading the graph, and the typed store seen untyped *)

Section Reads.

Lemma is_dirty_FileInfo f :
  Dyn.is_FileInfo f = true →
  ∃ b, get "dirty" f = inr (JBool b) ∧ Dyn.is_dirty f = inr b.
Proof.
  destruct f as [| | | | | | props]; try done.
  unfold Dyn.is_FileInfo, Dyn.is_dirty, get. intros Hf.
  apply andb_true_iff in Hf as [_ Hd].
  apply has_lookup in Hd as (d & -> & Hb).
  destruct d as [| | b | | | |]; try done. by exists b.
Qed.

Lemma filterM_is_dirty_files (fs : list JsVal) :
  forallb Dyn.is_FileInfo fs = true →
  ∃ kept, Dyn.filterM Dyn.is_dirty fs = inr kept
          ∧ forallb Dyn.is_FileInfo kept = true
          ∧ ∀ f, f ∈ kept ↔ f ∈ fs ∧ get "dirty" f = inr (JBool true).
Proof.
  induction fs as [| f fs IH]; intros Hfs.
  - exists []. split; [done |]. split; [done |].
    intros f. split; [by intros ?%elem_of_nil | by intros [?%elem_of_nil _]].
  - cbn [forallb] in Hfs. apply andb_true_iff in Hfs as [Hf Hfs].
    destruct (IH Hfs) as (kept & Hkept & Hk & Hmem).
    destruct (is_dirty_FileInfo f Hf) as (b & Hget & Hdirty).
    cbn [Dyn.filterM]. rewrite Hdirty, Hkept.
    destruct b.
    + exists (f :: kept). split; [done |]. split.
      * cbn [forallb]. by rewrite Hf, Hk.
      * intros f'. rewrite !elem_of_cons, Hmem. split.
        -- intros [-> | [? ?]]; auto.
        -- intros [[-> | ?] ?]; auto.
    + exists kept. split; [done |]. split; [done |].
      intros f'. rewrite elem_of_cons, Hmem. split.
      * intros [? ?]. auto.
      * intros [[-> | ?] Hg]; [congruence | done].
Qed.

Lemma forallb_values (p : JsVal → bool) (props : list (string * JsVal)) :
  forallb (λ kv, p kv.2) props = forallb p props.*2.
Proof.
  induction props as [| [k v] props IH]; [done |].
  rewrite fmap_cons. cbn [forallb]. by rewrite IH.
Qed.

(** On a graph of the transmitted shape, and without a graph,
    [getDirtyFiles] does not throw; it returns file records, those of
    [graph.files] whose [dirty] is [true]. *)
Lemma getDirtyFiles_reads graph :
  Dyn.graph_ok graph →
  ∃ fs, Dyn.getDirtyFiles graph = inr fs ∧ forallb Dyn.is_FileInfo fs = true
        ∧ ∀ f, f ∈ fs → get "dirty" f = inr (JBool true).
Proof.
  intros [-> | Hw].
  - exists []. split; [done |]. split; [done |]. by intros f ?%elem_of_nil.
  - destruct (well_shaped_object _ Hw) as [props ->].
    unfold Dyn.getDirtyFiles. simpl. simpl in Hw.
    apply andb_true_iff in Hw as [_ Hfiles].
    apply has_lookup in Hfiles as (v & -> & Hv). simpl.
    destruct v as [| | | | | | fprops]; try done. simpl in *.
    destruct (filterM_is_dirty_files (fprops.*2)) as (kept & -> & Hk & Hmem).
    { by rewrite <- forallb_values. }
    exists kept. split; [done |]. split; [done |].
    intros f Hf. by apply Hmem in Hf as [_ ?].
Qed.

Lemma filterM_is_dirty_encode (fs : list FileInfo) :
  Dyn.filterM Dyn.is_dirty (Dyn.encode_file <$> fs)
  = inr (Dyn.encode_file <$> filter (λ f, file_dirty f = true) fs).
Proof.
  induction fs as [| f fs IH]; [reflexivity |].
  rewrite fmap_cons. simpl Dyn.filterM. rewrite IH.
  unfold Dyn.is_dirty. simpl. rewrite filter_cons.
  case_decide as Hd.
  - by rewrite Hd.
  - by destruct (file_dirty f).
Qed.

(** The untyped [getDirtyFiles] on the value of a typed store returns
    the values of what the typed one returns. *)
Lemma getDirtyFiles_encode (st : State) :
  Dyn.getDirtyFiles (Dyn.encode_slot (graph st))
  = inr (Dyn.encode_file <$> getDirtyFiles st).
Proof.
  unfold getDirtyFiles, Dyn.getDirtyFiles, Dyn.encode_slot.
  destruct (graph st) as [g |]; [| reflexivity].
  simpl. rewrite <- list_fmap_compose.
  rewrite (list_fmap_ext _ (Dyn.encode_file ∘ snd) (map_to_list (files g))) by done.
  rewrite list_fmap_compose. unfold Object_values.
  apply filterM_is_dirty_encode.
Qed.

(** The typed actions, seen through [Dyn.encode_slot], are the untyped
    ones. *)
Lemma store_deleteNode_encode (r : DeleteResponse) (r' errors : JsVal)
    (nodeId : string) (st : State) :
  get "errors" r' = inr errors →
  Dyn.encode_slot (graph (deleteNode (inr r) nodeId st))
  = Dyn.deleteNode (inr r') nodeId (Dyn.encode_slot (graph st)).
Proof.
  intros Hr. unfold deleteNode.
  destruct (graph st) as [g |] eqn:Hg.
  - change (Dyn.encode_slot (Some g)) with (Dyn.encode_graph g).
    by rewrite (deleteNode_encode r' errors nodeId g Hr).
  - rewrite Hg. unfold Dyn.deleteNode. by rewrite Hr.
Qed.

Lemma store_deleteNode_failure_encode e nodeId (st : State) :
  Dyn.encode_slot (graph (deleteNode (inl e) nodeId st))
  = Dyn.deleteNode (inl e) nodeId (Dyn.encode_slot (graph st)).
Proof. reflexivity. Qed.

Lemma store_updateNodePosition_encode (nodeId : string) (px py : Z) (st : State) :
  Dyn.encode_slot (graph (updateNodePosition nodeId px py st))
  = Dyn.updateNodePosition nodeId (JNum px) (JNum py) (Dyn.encode_slot (graph st)).
Proof.
  unfold updateNodePosition.
  destruct (graph st) as [g |] eqn:Hg.
  - change (Dyn.encode_slot (Some g)) with (Dyn.encode_graph g).
    rewrite updateNodePosition_encode.
    destruct (list_find _ (nodes g)) as [[i node] |]; [done |].
    by rewrite Hg.
  - by rewrite Hg.
Qed.

Lemma store_loadGraph_encode (o : Outcome Graph) (st : State) :
  Dyn.encode_slot (graph (loadGraph o st))
  = Dyn.loadGraph (sum_map id Dyn.encode_graph o) (Dyn.encode_slot (graph st)).
Proof. by destruct o. Qed.

Lemma store_applyChanges_encode (apply : Outcome JsVal) (o : Outcome Graph)
    commitMessage createPR prBranch (st : State) :
  Dyn.encode_slot (graph (applyChanges apply o commitMessage createPR prBranch st).1)
  = Dyn.applyChanges apply (sum_map id Dyn.encode_graph o) (Dyn.encode_slot (graph st)).
Proof. by destruct apply, o. Qed.

End Reads.

(** A graph that was received is installed as it is; every other
    action keeps the graph it finds in shape. *)
Lemma step_received graph a :
  Dyn.graph_ok graph →
  match Dyn.received a with
  | Some g => Dyn.step graph a = g
  | None => Dyn.graph_ok (Dyn.step graph a)
  end.
Proof.
  intros Hg.
  destruct a as [[e | g] | [e | r] | [e | r] | o nodeId | nodeId px py
                 | [e | r] [e' | g]]; simpl; try done.
  - unfold Dyn.loadFromGitHub, Dyn.install_graph_of.
    by destruct (get "graph" r).
  - unfold Dyn.updateNode, Dyn.install_graph_of.
    by destruct (get "graph" r).
  - by apply (step_graph_ok graph (Dyn.ActDeleteNode o nodeId)).
  - by apply (step_graph_ok graph (Dyn.ActUpdateNodePosition nodeId px py)).
Qed.

(** C6, as stated, does not hold: the store installs what a response
    carries without looking at it.  From a graph of the shape, a load
    whose response has no [graph] property leaves [undefined] as the
    graph, and a [GET /graph] answered with an object whose [nodes] is
    [null] leaves that object, on which [getDirtyFiles] throws. *)
Lemma load_installs_unshaped_graph :
  let shaped := Dyn.encode_graph sample_graph in
  let bad := JObj [("nodes", JNull)] in
  Dyn.well_shaped shaped = true
  ∧ Dyn.run shaped [Dyn.ActLoadFromGitHub (inr (JObj []))] = JUndefined
  ∧ ¬ Dyn.graph_ok (Dyn.run shaped [Dyn.ActLoadFromGitHub (inr (JObj []))])
  ∧ Dyn.run shaped [Dyn.ActLoadGraph (inr bad)] = bad
  ∧ ¬ Dyn.graph_ok (Dyn.run shaped [Dyn.ActLoadGraph (inr bad)])
  ∧ ∃ e, Dyn.getDirtyFiles (Dyn.run shaped [Dyn.ActLoadGraph (inr bad)]) = inl e.
Proof.
  cbv zeta. split; [apply well_shaped_encode |].
  split; [reflexivity |]. split; [intros [H | H]; discriminate H |].
  split; [reflexivity |]. split; [intros [H | H]; discriminate H |].
  eexists. reflexivity.
Qed.

(** C6, amended: delete and position change, and every action whose
    request fails, keep the graph they find in the shape [{nodes:
    [GraphNode...], edges: [GraphEdge...], files: {path: FileInfo}}] (or
    leave the store without a graph), while load, update and the reload
    after an apply install the graph of the response as it is.  So as
    long as the graphs the server sends have the shape, the graph the
    store holds has it after every step of any sequence of loads,
    updates, deletions, position changes and applies: [nodes] and
    [edges] stay lists and [files] stays a mapping to file records,
    which [getDirtyFiles] reads without failing. *)
Theorem store_graph_keeps_shape (actions : list Dyn.Action) (graph : JsVal) :
  Dyn.graph_ok graph →
  (Forall Dyn.server_keeps_contract actions →
   ∀ k, let held := Dyn.run graph (take k actions) in
        Dyn.graph_ok held
        ∧ ∃ fs, Dyn.getDirtyFiles held = inr fs
                ∧ forallb Dyn.is_FileInfo fs = true)
  ∧ (∀ a, match Dyn.received a with
          | Some g => Dyn.step graph a = g
          | None => Dyn.graph_ok (Dyn.step graph a)
          end).
Proof.
  intros Hg. split; [| intros a; by apply step_received].
  intros Hall k.
  assert (Dyn.graph_ok (Dyn.run graph (take k actions))) as Hok.
  { revert graph Hg k.
    induction Hall as [| a actions Ha Hall IH]; intros graph Hg k.
    - by rewrite take_nil.
    - destruct k as [| k]; [done |].
      simpl. apply IH. by apply step_graph_ok. }
  simpl. split; [exact Hok |].
  destruct (getDirtyFiles_reads _ Hok) as (fs & Hfs & Hfiles & _).
  by exists fs.
Qed.

Lemma store_graph_keeps_shape_witness :
  Dyn.well_shaped (Dyn.run JNull sample_session) = true.
Proof.
  assert (Forall Dyn.server_keeps_contract sample_session) as Hall.
  { repeat constructor; apply well_shaped_encode. }
  destruct (store_graph_keeps_shape sample_session JNull (or_introl eq_refl))
    as [Hrun _].
  destruct (Hrun Hall 4) as [[Hnull | Hshape] _].
  - discriminate Hnull.
  - exact Hshape.
Defined.

(** ** The store: outcomes, composition and well-formedness *)

(** [loadGraph], [loadFromGitHub] and [applyChanges] always end with
    [isLoading] false, and they leave [error] null exactly when every
    request they awaited succeeded. *)
Theorem loads_report_outcome
    (getGraph : Outcome Graph) (load : Outcome LoadResponse) (apply : Outcome JsVal)
    (repo branch path commitMessage : string) (createPR : bool)
    (prBranch : option string) (st : State) :
  (isLoading (loadGraph getGraph st) = false
   ∧ (error (loadGraph getGraph st) = None ↔ ∃ g, getGraph = inr g))
  ∧ (isLoading (loadFromGitHub load repo branch path st) = false
     ∧ (error (loadFromGitHub load repo branch path st) = None ↔ ∃ r, load = inr r))
  ∧ (isLoading (applyChanges apply getGraph commitMessage createPR prBranch st).1 = false
     ∧ (error (applyChanges apply getGraph commitMessage createPR prBranch st).1 = None
        ↔ (∃ r, apply = inr r) ∧ ∃ g, getGraph = inr g)).
Proof.
  split; [| split].
  - destruct getGraph as [e | g]; simpl; (split; [done |]).
    + split; [done | by intros [g [=]]].
    + split; [by eexists | done].
  - destruct load as [e | r]; simpl; (split; [done |]).
    + split; [done | by intros [r [=]]].
    + split; [by eexists | done].
  - destruct apply as [e | r], getGraph as [e' | g]; simpl; (split; [done |]).
    + split; [done | by intros [[r [=]] _]].
    + split; [done | by intros [[r [=]] _]].
    + split; [done | by intros [_ [g [=]]]].
    + split; [by split; eexists | done].
Qed.

(** [updateNode], [deleteNode] and [validate] never clear [error]: a
    failure sets it and a success leaves it as it was, so an error once
    reported stays through them. *)
Theorem mutations_never_clear_error
    (update : Outcome UpdateResponse) (delete : Outcome DeleteResponse)
    (validateCurrent : Outcome ValidateResponse)
    (nodeId : string) (updates : list (string * JsVal)) (st : State) :
  (is_Some (error st) → is_Some (error (updateNode update nodeId updates st)))
  ∧ (is_Some (error st) → is_Some (error (deleteNode delete nodeId st)))
  ∧ (is_Some (error st) → is_Some (error (validate validateCurrent st)))
  ∧ (∀ r, update = inr r → error (updateNode update nodeId updates st) = error st)
  ∧ (∀ r, delete = inr r → error (deleteNode delete nodeId st) = error st)
  ∧ (∀ r, validateCurrent = inr r → error (validate validateCurrent st) = error st).
Proof.
  repeat split.
  - intros He. by destruct update.
  - intros He. destruct delete; [done |]. simpl. by destruct (graph st).
  - intros He. by destruct validateCurrent.
  - by intros r ->.
  - intros r ->. simpl. by destruct (graph st).
  - by intros r ->.
Qed.

Lemma filter_idem {A} (P : A → Prop) `{∀ x, Decision (P x)} (l : list A) :
  filter P (filter P l) = filter P l.
Proof.
  induction l as [| a l IH]; [done |].
  rewrite filter_cons. case_decide as Hd.
  - rewrite filter_cons. by rewrite decide_True, IH.
  - exact IH.
Qed.

Lemma filter_all {A} (P : A → Prop) `{∀ x, Decision (P x)} (l : list A) :
  (∀ x, x ∈ l → P x) → filter P l = l.
Proof.
  induction l as [| a l IH]; intros Hall; [done |].
  rewrite filter_cons, decide_True by (apply Hall; left).
  f_equal. apply IH. intros x Hx. apply Hall. by right.
Qed.

(** Deleting a node a second time changes nothing in the graph, and
    deleting an id that no node and no edge carries leaves the graph as
    it is. *)
Theorem deleteNode_idempotent
    (r1 r2 : DeleteResponse) (nodeId : string) (st : State) :
  graph (deleteNode (inr r2) nodeId (deleteNode (inr r1) nodeId st))
  = graph (deleteNode (inr r1) nodeId st)
  ∧ (∀ g, graph st = Some g →
          (∀ n, n ∈ nodes g → node_id n ≠ nodeId) →
          (∀ e, e ∈ edges g → edge_from e ≠ nodeId ∧ edge_to e ≠ nodeId) →
          graph (deleteNode (inr r1) nodeId st) = Some g).
Proof.
  split.
  - unfold deleteNode. destruct (graph st) as [g |] eqn:Hg; simpl; [| by rewrite Hg].
    unfold with_edges, with_nodes. simpl. by rewrite !filter_idem.
  - intros g Hg Hn He. unfold deleteNode. rewrite Hg. simpl.
    unfold with_edges, with_nodes. simpl.
    rewrite !filter_all by done. by destruct g.
Qed.

Lemma deleteNode_graph (r : DeleteResponse) (nodeId : string) (st : State) g :
  graph st = Some g →
  graph (deleteNode (inr r) nodeId st)
  = Some {| nodes := filter (λ n, node_id n ≠ nodeId) (nodes g);
            edges := filter (λ e, edge_from e ≠ nodeId ∧ edge_to e ≠ nodeId) (edges g);
            files := files g |}.
Proof. intros Hg. unfold deleteNode. by rewrite Hg. Qed.

(** A successful [deleteNode] keeps the graph well formed (distinct
    ids, edges between nodes of the graph), and the deleted id is no
    longer the id of a node. *)
Theorem deleteNode_keeps_graph_wf
    (r : DeleteResponse) (nodeId : string) (st : State) (g : Graph) :
  graph st = Some g →
  graph_wf g →
  ∃ g', graph (deleteNode (inr r) nodeId st) = Some g'
        ∧ graph_wf g'
        ∧ nodeId ∉ node_ids g'.
Proof.
  intros Hg [Hnd Hclosed].
  eexists. split; [by apply deleteNode_graph |].
  unfold graph_wf, node_ids. simpl.
  assert (∀ i, i ∈ node_ids g → i ≠ nodeId →
               i ∈ node_id <$> filter (λ n, node_id n ≠ nodeId) (nodes g)) as Hkeep.
  { intros i Hi Hne. apply list_elem_of_fmap in Hi as (n & -> & Hn).
    apply list_elem_of_fmap. exists n. split; [done |]. by apply list_elem_of_filter. }
  split; [split |].
  - apply (sublist_NoDup _ (node_ids g)); [exact Hnd |].
    apply fmap_sublist, sublist_filter.
  - intros e He. apply list_elem_of_filter in He as [[Hf Ht] He].
    destruct (Hclosed e He) as [Hfrom Hto]. split; by apply Hkeep.
  - intros Hin. apply list_elem_of_fmap in Hin as (n & Hid & Hn).
    apply list_elem_of_filter in Hn as [Hne _]. done.
Qed.

Lemma sample_graph_wf : graph_wf sample_graph.
Proof.
  split; [compute_done |].
  intros e He. apply list_elem_of_singleton in He as ->.
  split; compute_done.
Qed.

Lemma deleteNode_keeps_graph_wf_witness :
  ∃ g', graph (deleteNode (inr {| delete_errors := [] |})
                 "Deployment/default/app" sample_state) = Some g'
        ∧ graph_wf g'.
Proof.
  destruct (deleteNode_keeps_graph_wf {| delete_errors := [] |}
              "Deployment/default/app" sample_state sample_graph eq_refl
              sample_graph_wf)
    as (g' & Hg' & Hwf' & _).
  by exists g'.
Defined.

(** [moved_nodes], node by node. *)
Lemma moved_nodes_cons nodeId px py n ns :
  moved_nodes nodeId px py (n :: ns)
  = if decide (node_id n = nodeId) then move_to px py n :: ns
    else n :: moved_nodes nodeId px py ns.
Proof.
  unfold moved_nodes. cbn [list_find]. case_decide; [done |].
  by destruct (list_find _ ns) as [[i m] |].
Qed.

Lemma moved_nodes_absent nodeId px py ns :
  (∀ n, n ∈ ns → node_id n ≠ nodeId) → moved_nodes nodeId px py ns = ns.
Proof.
  induction ns as [| n ns IH]; intros Hall; [done |].
  rewrite moved_nodes_cons, decide_False by (apply Hall; left).
  f_equal. apply IH. intros m Hm. apply Hall. by right.
Qed.

(** [updateNodePosition] through [moved_nodes]. *)
Lemma updateNodePosition_moved nodeId px py st :
  updateNodePosition nodeId px py st
  = match graph st with
    | Some g => set_graph (Some (with_nodes (moved_nodes nodeId px py (nodes g)) g)) st
    | None => st
    end.
Proof.
  unfold updateNodePosition, moved_nodes.
  destruct (graph st) as [g |] eqn:Hg; [| done].
  destruct (list_find _ (nodes g)) as [[i node] |]; [done |].
  destruct st, g; simpl in *. by rewrite Hg.
Qed.

Lemma moved_nodes_twice nodeId px py qx qy ns :
  moved_nodes nodeId qx qy (moved_nodes nodeId px py ns) = moved_nodes nodeId qx qy ns.
Proof.
  induction ns as [| n ns IH]; [done |].
  rewrite !moved_nodes_cons. case_decide as Hd.
  - rewrite moved_nodes_cons. by rewrite decide_True.
  - rewrite moved_nodes_cons. by rewrite decide_False, IH.
Qed.

(** Of two moves of the same node only the last one counts. *)
Theorem updateNodePosition_last_wins
    (nodeId : string) (px py qx qy : Z) (st : State) :
  updateNodePosition nodeId qx qy (updateNodePosition nodeId px py st)
  = updateNodePosition nodeId qx qy st.
Proof.
  rewrite !updateNodePosition_moved.
  destruct (graph st) as [g |] eqn:Hg; simpl; [| by rewrite Hg].
  unfold with_nodes, set_graph. simpl. by rewrite moved_nodes_twice.
Qed.

Lemma filter_moved_nodes nodeId deleted px py ns :
  filter (λ n, node_id n ≠ deleted) (moved_nodes nodeId px py ns)
  = moved_nodes nodeId px py (filter (λ n, node_id n ≠ deleted) ns).
Proof.
  induction ns as [| n ns IH]; [done |].
  rewrite moved_nodes_cons.
  destruct (decide (node_id n = nodeId)) as [Hm | Hm].
  - rewrite !filter_cons. simpl.
    destruct (decide (node_id n ≠ deleted)) as [Hk | Hk].
    + rewrite moved_nodes_cons. by rewrite decide_True.
    + apply dec_stable in Hk. symmetry. apply moved_nodes_absent.
      intros m Hin. apply list_elem_of_filter in Hin as [Hne _]. congruence.
  - rewrite !filter_cons.
    destruct (decide (node_id n ≠ deleted)) as [Hk | Hk].
    + rewrite moved_nodes_cons. by rewrite decide_False, IH.
    + exact IH.
Qed.

(** Moving a node and deleting a node commute, whatever the two ids and
    whatever the outcome of the delete request. *)
Theorem deleteNode_updateNodePosition_commute
    (delete : Outcome DeleteResponse) (deleted nodeId : string) (px py : Z)
    (st : State) :
  deleteNode delete deleted (updateNodePosition nodeId px py st)
  = updateNodePosition nodeId px py (deleteNode delete deleted st).
Proof.
  rewrite !updateNodePosition_moved. unfold deleteNode.
  destruct delete as [e | r].
  - simpl. by destruct (graph st).
  - destruct (graph st) as [g |] eqn:Hg; simpl; [| by rewrite Hg].
    unfold with_nodes, with_edges, set_graph, set_selectedNodeId,
      set_validationErrors. simpl.
    by rewrite filter_moved_nodes.
Qed.

(** [loadFromGitHub] keeps [selectedFile]: when no node of the graph it
    loads lies in the file selected before, the canvas is given no node
    at all. *)
Theorem stale_file_selection_hides_graph
    (r : LoadResponse) (repo branch path f : string) (st : State) :
  selectedFile st = Some f →
  f ≠ EmptyString →
  (∀ n, n ∈ nodes (load_graph r) → node_filePath n ≠ f) →
  let st' := loadFromGitHub (inr r) repo branch path st in
  graph st' = Some (load_graph r)
  ∧ selectedFile st' = Some f
  ∧ Canvas.shown_nodes st' (load_graph r) = [].
Proof.
  intros Hf Hne Hnone. simpl. split; [done |]. split; [done |].
  unfold Canvas.shown_nodes, Canvas.no_file_selected. simpl. rewrite Hf.
  induction (nodes (load_graph r)) as [| n ns IH]; [done |].
  rewrite filter_cons_False.
  - apply IH. intros m Hm. apply Hnone. by right.
  - intros [Hsel | Hsame].
    + destruct f; [done | discriminate Hsel].
    + injection Hsame as Hsame. apply (Hnone n); [by left | done].
Qed.

Lemma stale_file_selection_hides_graph_witness :
  let st' := loadFromGitHub (inr (mkLoadResponse sample_graph)) "acme/shop" "main" "k8s"
               (selectFile (Some "old/app.yaml") sample_state) in
  graph st' = Some sample_graph
  ∧ selectedFile st' = Some "old/app.yaml"
  ∧ Canvas.shown_nodes st' sample_graph = [].
Proof.
  apply (stale_file_selection_hides_graph (mkLoadResponse sample_graph)
           "acme/shop" "main" "k8s" "old/app.yaml"
           (selectFile (Some "old/app.yaml") sample_state)).
  - reflexivity.
  - discriminate.
  - simpl. intros n Hn.
    repeat (apply elem_of_cons in Hn as [-> | Hn]; [discriminate |]).
    by apply elem_of_nil in Hn.
Defined.

(** The session actions [checkAuth], [logout], [loadRepositories] and
    [setRepoPath] leave the graph, the selections and the diagnostics
    alone, so the canvas, the editor and the dirty files stay as they
    are; [checkAuth] reports no error, and [logout], which has no
    [catch], passes a rejection on to its caller with the state
    untouched. *)
Theorem session_actions_keep_editor
    (getStatus : Outcome StatusResponse) (logoutRequest : Outcome JsVal)
    (listed : Outcome ReposResponse) (path : string) (st : State) :
  Forall (λ st', same_editor st st'
                 ∧ getDirtyFiles st' = getDirtyFiles st
                 ∧ AppView.selectedNode st' = AppView.selectedNode st)
    [checkAuth getStatus st; (logout logoutRequest st).1;
     loadRepositories listed st; setRepoPath path st]
  ∧ error (checkAuth getStatus st) = error st
  ∧ (∀ e, logoutRequest = inl e → logout logoutRequest st = (st, inl e))
  ∧ (∀ r, logoutRequest = inr r →
       isAuthenticated (logout logoutRequest st).1 = false
       ∧ repoPath (logout logoutRequest st).1 = repoPath st
       ∧ (logout logoutRequest st).2 = inr tt).
Proof.
  split; [| split; [| split]].
  - repeat apply Forall_cons_2; [| | | | apply Forall_nil_2].
    + by destruct getStatus.
    + by destruct logoutRequest.
    + by destruct listed.
    + done.
  - by destruct getStatus.
  - by intros e ->.
  - by intros r ->.
Qed.

(** When the apply request succeeds and the reload of the graph fails,
    [handleApply] still closes the modal and clears the message: the
    failure shows only in the store's [error], and the graph and the
    dirty files are those from before. *)
Theorem handleApply_reload_failure
    (r : JsVal) (e : Thrown) (ui : App.Ui) (st : State) :
  App.trim (App.commitMessage ui) ≠ EmptyString →
  let '(ui', st', calls) := App.handleApply (inr r) (inl e) ui st in
  App.showApplyModal ui' = false
  ∧ App.commitMessage ui' = EmptyString
  ∧ App.applying ui' = false
  ∧ graph st' = graph st
  ∧ getDirtyFiles st' = getDirtyFiles st
  ∧ error st' = Some (message_or "Failed to load graph" e)
  ∧ isLoading st' = false.
Proof.
  intros Hmsg. unfold App.handleApply.
  destruct (App.trim (App.commitMessage ui)) eqn:Ht; [done |]. simpl.
  repeat split.
Qed.

Lemma handleApply_reload_failure_witness :
  let '(ui', st', calls) :=
    App.handleApply (inr JNull) (inl (ErrorObj "Bad Gateway"))
      (App.setCommitMessage "scale app" blank_message_ui) sample_state in
  App.showApplyModal ui' = false ∧ error st' = Some "Bad Gateway".
Proof.
  pose proof (handleApply_reload_failure JNull (ErrorObj "Bad Gateway")
                (App.setCommitMessage "scale app" blank_message_ui) sample_state) as H.
  destruct (App.handleApply _ _ _ _) as [[ui' st'] calls].
  destruct H as (Hm & _ & _ & _ & _ & He & _); [discriminate |].
  by split.
Defined.

(** When the apply request fails, [handleApply] leaves the modal as it
    was, with the message and the pull-request choice, enables the button
    again, and a second click makes the same call. *)
Theorem handleApply_failure_allows_retry
    (e : Thrown) (getGraph : Outcome Graph) (ui : App.Ui) (st : State) :
  App.trim (App.commitMessage ui) ≠ EmptyString →
  let '(ui', st', calls) := App.handleApply (inl e) getGraph ui st in
  App.commitMessage ui' = App.commitMessage ui
  ∧ App.createPR ui' = App.createPR ui
  ∧ App.showApplyModal ui' = App.showApplyModal ui
  ∧ App.applying ui' = false
  ∧ App.apply_button_disabled ui' = false
  ∧ graph st' = graph st
  ∧ error st' = Some (message_or "Failed to apply changes" e)
  ∧ ∀ apply2 getGraph2, (App.handleApply apply2 getGraph2 ui' st').2 = calls.
Proof.
  intros Hmsg. unfold App.handleApply, App.apply_button_disabled.
  destruct (App.trim (App.commitMessage ui)) eqn:Ht; [done |]. simpl.
  rewrite Ht. simpl. repeat split.
  intros apply2 getGraph2. by destruct apply2, getGraph2.
Qed.

Lemma handleApply_failure_allows_retry_witness :
  let '(ui', st', calls) :=
    App.handleApply (inl (ErrorObj "push rejected")) (inr sample_graph)
      (App.setCommitMessage "scale app" blank_message_ui) sample_state in
  App.commitMessage ui' = "scale app" ∧ graph st' = Some sample_graph.
Proof.
  pose proof (handleApply_failure_allows_retry (ErrorObj "push rejected")
                (inr sample_graph)
                (App.setCommitMessage "scale app" blank_message_ui) sample_state) as H.
  destruct (App.handleApply _ _ _ _) as [[ui' st'] calls].
  destruct H as (Hm & _ & _ & _ & _ & Hg & _); [discriminate |].
  by split.
Defined.

(** A successful [deleteNode] closes the property editor whichever node
    was selected; a failed one leaves the editor on its node. *)
Theorem deleteNode_closes_editor
    (delete : Outcome DeleteResponse) (nodeId : string) (st : State) :
  match delete with
  | inr _ => AppView.selectedNode (deleteNode delete nodeId st) = None
  | inl _ => AppView.selectedNode (deleteNode delete nodeId st)
             = AppView.selectedNode st
  end.
Proof.
  destruct delete as [e | r]; [done |].
  unfold deleteNode, AppView.selectedNode.
  destruct (graph st) as [g |] eqn:Hg; simpl; [done |]. by rewrite Hg.
Qed.

Lemma list_find_moved_nodes (selected nodeId : string) (px py : Z) ns :
  list_find (λ n, node_id n = selected) (moved_nodes nodeId px py ns)
  = prod_map id (λ n, if decide (node_id n = nodeId) then move_to px py n else n)
      <$> list_find (λ n, node_id n = selected) ns.
Proof.
  induction ns as [| n ns IH]; [done |].
  rewrite moved_nodes_cons.
  destruct (decide (node_id n = nodeId)) as [Hm | Hm].
  - cbn [list_find]. simpl.
    destruct (decide (node_id n = selected)) as [Hs | Hs].
    + simpl. by rewrite decide_True.
    + destruct (list_find _ ns) as [[i m] |] eqn:Hfind; simpl; [| done].
      apply list_find_Some in Hfind as (_ & Hid & _).
      rewrite decide_False by congruence. done.
  - cbn [list_find].
    destruct (decide (node_id n = selected)) as [Hs | Hs].
    + simpl. by rewrite decide_False.
    + rewrite IH. by destruct (list_find _ ns) as [[i m] |].
Qed.

(** The node the editor shows after [updateNodePosition] is the one it
    showed before, moved if it is the node that was moved. *)
Theorem selectedNode_follows_move (nodeId : string) (px py : Z) (st : State) :
  AppView.selectedNode (updateNodePosition nodeId px py st)
  = (λ n, if decide (node_id n = nodeId) then move_to px py n else n)
      <$> AppView.selectedNode st.
Proof.
  rewrite updateNodePosition_moved. unfold AppView.selectedNode.
  destruct (graph st) as [g |] eqn:Hg; simpl; [| by rewrite Hg].
  destruct (selectedNodeId st) as [i |]; [| done].
  rewrite list_find_moved_nodes.
  by destruct (list_find _ (nodes g)) as [[k m] |].
Qed.

(** The error and warning counts of the header never exceed the number
    of diagnostics, and they add up to it exactly when every severity is
    ['error'] or ['warning']. *)
Theorem diagnostic_counts (st : State) :
  (AppView.errorCount st + AppView.warningCount st ≤ length (validationErrors st))%nat
  ∧ (AppView.errorCount st + AppView.warningCount st = length (validationErrors st)
     ↔ Forall (λ e, err_severity e = "error" ∨ err_severity e = "warning")
         (validationErrors st)).
Proof.
  unfold AppView.errorCount, AppView.warningCount.
  induction (validationErrors st) as [| e es [IHle IHeq]]; [by split |].
  rewrite !filter_cons, Forall_cons.
  pose proof (length_filter (λ e, err_severity e = "error") es) as He.
  pose proof (length_filter (λ e, err_severity e = "warning") es) as Hw.
  destruct (decide (err_severity e = "error")) as [Herr | Herr].
  - rewrite decide_False by congruence. simpl. split; [lia |].
    split.
    + intros Heq. split; [by left |]. apply IHeq. lia.
    + intros [_ HF]. apply IHeq in HF. lia.
  - destruct (decide (err_severity e = "warning")) as [Hwarn | Hwarn]; simpl.
    + split; [lia |].
      split.
      * intros Heq. split; [by right |]. apply IHeq. lia.
      * intros [_ HF]. apply IHeq in HF. lia.
    + split; [lia |]. split; [lia | intros [[? | ?] _]; done].
Qed.

(** [deleteNode], [updateNodePosition], [validate], [selectNode],
    [selectFile] and [toggleSidebar] leave the list of dirty files as it
    is, so none of them shows or hides the Apply button. *)
Theorem local_actions_keep_dirty_files
    (delete : Outcome DeleteResponse) (validateCurrent : Outcome ValidateResponse)
    (nodeId : string) (px py : Z) (selected : option string) (st : State) :
  getDirtyFiles (deleteNode delete nodeId st) = getDirtyFiles st
  ∧ getDirtyFiles (updateNodePosition nodeId px py st) = getDirtyFiles st
  ∧ getDirtyFiles (validate validateCurrent st) = getDirtyFiles st
  ∧ getDirtyFiles (selectNode selected st) = getDirtyFiles st
  ∧ getDirtyFiles (selectFile selected st) = getDirtyFiles st
  ∧ getDirtyFiles (toggleSidebar st) = getDirtyFiles st.
Proof.
  repeat split.
  - unfold deleteNode, getDirtyFiles. destruct delete as [e | r]; [done |].
    destruct (graph st) as [g |] eqn:Hg; simpl; [done | by rewrite Hg].
  - rewrite updateNodePosition_moved. unfold getDirtyFiles.
    destruct (graph st) as [g |] eqn:Hg; simpl; [done | by rewrite Hg].
  - by destruct validateCurrent.
Qed.

(** ** The untyped store on arbitrary values *)

Lemma filterM_total (p : JsVal → Outcome bool) (l : list JsVal) :
  (∀ x, x ∈ l → ∃ b, p x = inr b) →
  ∃ kept, Dyn.filterM p l = inr kept
          ∧ kept `sublist_of` l
          ∧ ∀ x, x ∈ kept ↔ x ∈ l ∧ p x = inr true.
Proof.
  induction l as [| a l IH]; intros Hp.
  - exists []. split; [done |]. split; [done |].
    intros x. split; [by intros ?%elem_of_nil | by intros [?%elem_of_nil _]].
  - destruct IH as (kept & Hkept & Hsub & Hmem).
    { intros x Hx. apply Hp. by right. }
    destruct (Hp a) as [b Hb]; [by left |].
    cbn [Dyn.filterM]. rewrite Hb, Hkept.
    destruct b.
    + exists (a :: kept). split; [done |]. split; [by apply sublist_skip |].
      intros x. rewrite !elem_of_cons, Hmem. split.
      * intros [-> | [? ?]]; auto.
      * intros [[-> | ?] ?]; auto.
    + exists kept. split; [done |]. split; [by apply sublist_cons |].
      intros x. rewrite elem_of_cons, Hmem. split.
      * intros [? ?]. auto.
      * intros [[-> | ?] Hx]; [congruence | done].
Qed.

Lemma forallb_elem_of (q : JsVal → bool) (l : list JsVal) x :
  forallb q l = true → x ∈ l → q x = true.
Proof.
  intros Hq Hx. rewrite forallb_forall in Hq. by apply Hq, list_elem_of_In.
Qed.

Lemma String_eqb_false_iff (a b : string) : String.eqb a b = false ↔ a ≠ b.
Proof. apply String.eqb_neq. Qed.

Lemma keeps_node_GraphNode nodeId n :
  Dyn.is_GraphNode n = true →
  ∃ b, Dyn.keeps_node nodeId n = inr b
       ∧ (b = true ↔ get "id" n ≠ inr (JStr nodeId)).
Proof.
  destruct n as [| | | | | | props]; try done.
  unfold Dyn.is_GraphNode, Dyn.keeps_node, get. intros Hn.
  apply andb_true_iff in Hn as [Hid _].
  apply has_lookup in Hid as (v & -> & Hv).
  destruct v as [| | | | s | |]; try done. simpl.
  eexists. split; [done |].
  rewrite negb_true_iff, String_eqb_false_iff. split; congruence.
Qed.

Lemma keeps_edge_GraphEdge nodeId e :
  Dyn.is_GraphEdge e = true →
  ∃ b, Dyn.keeps_edge nodeId e = inr b
       ∧ (b = true ↔ get "from" e ≠ inr (JStr nodeId)
                      ∧ get "to" e ≠ inr (JStr nodeId)).
Proof.
  destruct e as [| | | | | | props]; try done.
  unfold Dyn.is_GraphEdge, Dyn.keeps_edge, get. intros He.
  apply andb_true_iff in He as [Hfrom Hto].
  apply has_lookup in Hfrom as (f & -> & Hf).
  apply has_lookup in Hto as (t & -> & Ht).
  destruct f as [| | | | f | |]; try done.
  destruct t as [| | | | t | |]; try done. simpl.
  destruct (String.eqb f nodeId) eqn:Hfe; simpl.
  - exists false. split; [done |]. apply String.eqb_eq in Hfe as ->.
    split; [done | by intros [? _]].
  - eexists. split; [done |]. apply String.eqb_neq in Hfe.
    rewrite negb_true_iff, String_eqb_false_iff. split.
    + intros Hne. split; congruence.
    + intros [_ Hne]. congruence.
Qed.

(** On a well-shaped graph the untyped [deleteNode] runs to its end: the
    [nodes] and [edges] it leaves are sublists of the old ones, holding
    exactly the nodes with another [id] and the edges with another [from]
    and [to], and [files] is untouched. *)
Theorem Dyn_deleteNode_removes (r errors : JsVal) (nodeId : string) (graph : JsVal) :
  Dyn.well_shaped graph = true →
  get "errors" r = inr errors →
  let graph' := Dyn.deleteNode (inr r) nodeId graph in
  ∃ ns es ns' es',
    get "nodes" graph = inr (JArr ns) ∧ get "edges" graph = inr (JArr es)
    ∧ get "nodes" graph' = inr (JArr ns') ∧ get "edges" graph' = inr (JArr es')
    ∧ ns' `sublist_of` ns ∧ es' `sublist_of` es
    ∧ (∀ n, n ∈ ns' ↔ n ∈ ns ∧ get "id" n ≠ inr (JStr nodeId))
    ∧ (∀ e, e ∈ es' ↔ e ∈ es ∧ get "from" e ≠ inr (JStr nodeId)
                               ∧ get "to" e ≠ inr (JStr nodeId))
    ∧ get "files" graph' = get "files" graph.
Proof.
  intros Hw Hr. cbv zeta.
  destruct (well_shaped_object _ Hw) as [props ->].
  pose proof Hw as Hw'. simpl in Hw'.
  apply andb_true_iff in Hw' as [Hw' _]. apply andb_true_iff in Hw' as [Hn He].
  apply has_lookup in Hn as (vn & Hvn & Hn).
  apply list_of_array in Hn as (ns & -> & Hns).
  apply has_lookup in He as (ve & Hve & He).
  apply list_of_array in He as (es & -> & Hes).
  destruct (filterM_total (Dyn.keeps_node nodeId) ns) as (ns' & Hfn & Hsubn & Hmemn).
  { intros n Hin. destruct (keeps_node_GraphNode nodeId n) as (b & Hb & _); [| by eauto].
    by apply (forallb_elem_of _ _ _ Hns). }
  destruct (filterM_total (Dyn.keeps_edge nodeId) es) as (es' & Hfe & Hsube & Hmeme).
  { intros e Hin. destruct (keeps_edge_GraphEdge nodeId e) as (b & Hb & _); [| by eauto].
    by apply (forallb_elem_of _ _ _ Hes). }
  assert (Dyn.deleteNode (inr r) nodeId (JObj props)
          = JObj (assign_prop "edges" (JArr es')
                    (assign_prop "nodes" (JArr ns') props))) as ->.
  { unfold Dyn.deleteNode. rewrite Hr. cbn [truthy].
    assert (Dyn.filter_in_place "nodes" (Dyn.keeps_node nodeId) (JObj props)
            = (JObj (assign_prop "nodes" (JArr ns') props), false)) as ->.
    { unfold Dyn.filter_in_place. cbn [get]. rewrite Hvn. cbn. by rewrite Hfn. }
    unfold Dyn.filter_in_place. cbn [get].
    rewrite lookup_prop_assign_ne by done. rewrite Hve. cbn.
    by rewrite Hfe. }
  exists ns, es, ns', es'. cbn [get].
  rewrite Hvn, Hve. cbn [default].
  rewrite (lookup_prop_assign_ne "nodes" "edges") by done.
  rewrite !lookup_prop_assign_eq.
  rewrite !(lookup_prop_assign_ne "files") by done. cbn [default].
  split; [done |]. split; [done |]. split; [done |]. split; [done |].
  split; [done |]. split; [done |]. split; [| split; [| done]].
  - intros n. rewrite Hmemn. split.
    + intros [Hin Hk]. split; [done |].
      destruct (keeps_node_GraphNode nodeId n) as (b & Hb & Hiff).
      { by apply (forallb_elem_of _ _ _ Hns). }
      apply Hiff. congruence.
    + intros [Hin Hne]. split; [done |].
      destruct (keeps_node_GraphNode nodeId n) as (b & Hb & Hiff).
      { by apply (forallb_elem_of _ _ _ Hns). }
      rewrite Hb. f_equal. by apply Hiff.
  - intros e. rewrite Hmeme. split.
    + intros [Hin Hk]. split; [done |].
      destruct (keeps_edge_GraphEdge nodeId e) as (b & Hb & Hiff).
      { by apply (forallb_elem_of _ _ _ Hes). }
      apply Hiff. congruence.
    + intros (Hin & Hf & Ht). split; [done |].
      destruct (keeps_edge_GraphEdge nodeId e) as (b & Hb & Hiff).
      { by apply (forallb_elem_of _ _ _ Hes). }
      rewrite Hb. f_equal. by apply Hiff.
Qed.

Lemma Dyn_deleteNode_removes_witness :
  ∃ ns', get "nodes"
           (Dyn.deleteNode (inr (JObj [("errors", JArr [])]))
              "Deployment/default/app" (Dyn.encode_graph sample_graph))
         = inr (JArr ns')
         ∧ ns' `sublist_of` Dyn.encode_node <$> nodes sample_graph.
Proof.
  destruct (Dyn_deleteNode_removes (JObj [("errors", JArr [])]) (JArr [])
              "Deployment/default/app" (Dyn.encode_graph sample_graph)
              (well_shaped_encode sample_graph) eq_refl)
    as (ns & es & ns' & es' & Hns & _ & Hns' & _ & Hsub & _).
  exists ns'. split; [exact Hns' |].
  injection Hns as <-. exact Hsub.
Defined.

Lemma get_put_ne k k' x graph :
  k ≠ k' → get k (Dyn.put k' x graph) = get k graph.
Proof.
  intros Hne. destruct graph; try done. simpl.
  by rewrite lookup_prop_assign_ne.
Qed.

Lemma truthy_put k x graph : truthy (Dyn.put k x graph) = truthy graph.
Proof. by destruct graph. Qed.

Lemma filter_in_place_frame k p graph :
  k ≠ "files" →
  get "files" (Dyn.filter_in_place k p graph).1 = get "files" graph
  ∧ truthy (Dyn.filter_in_place k p graph).1 = truthy graph.
Proof.
  intros Hne. unfold Dyn.filter_in_place.
  destruct (get k graph) as [e | [| | | | | items |]]; try done.
  destruct (Dyn.filterM p items); [done |]. simpl.
  split; [by apply get_put_ne | apply truthy_put].
Qed.

Lemma Dyn_getDirtyFiles_frame graph graph' :
  get "files" graph' = get "files" graph →
  truthy graph' = truthy graph →
  Dyn.getDirtyFiles graph' = Dyn.getDirtyFiles graph.
Proof. intros Hf Ht. unfold Dyn.getDirtyFiles. by rewrite Hf, Ht. Qed.

Lemma Dyn_deleteNode_frame delete nodeId graph :
  get "files" (Dyn.deleteNode delete nodeId graph) = get "files" graph
  ∧ truthy (Dyn.deleteNode delete nodeId graph) = truthy graph.
Proof.
  unfold Dyn.deleteNode.
  destruct delete as [e | r]; [done |].
  destruct (get "errors" r); [done |].
  destruct (truthy graph) eqn:Ht; [| by rewrite Ht].
  destruct (filter_in_place_frame "nodes" (Dyn.keeps_node nodeId) graph)
    as [Hf1 Ht1]; [done |].
  destruct (Dyn.filter_in_place "nodes" _ graph) as [graph1 threw]. simpl in *.
  destruct threw; [by rewrite Ht1 |].
  destruct (filter_in_place_frame "edges" (Dyn.keeps_edge nodeId) graph1)
    as [Hf2 Ht2]; [done |].
  split; congruence.
Qed.

Lemma Dyn_updateNodePosition_frame nodeId px py graph :
  get "files" (Dyn.updateNodePosition nodeId px py graph) = get "files" graph
  ∧ truthy (Dyn.updateNodePosition nodeId px py graph) = truthy graph.
Proof.
  unfold Dyn.updateNodePosition.
  destruct (truthy graph) eqn:Ht; simpl; [| by rewrite Ht].
  destruct (get "nodes" graph) as [e | [| | | | | items |]]; try by rewrite Ht.
  destruct (Dyn.findM _ 0 items) as [e | [[i node] |]]; try by rewrite Ht.
  destruct (truthy node); [| by rewrite Ht].
  destruct (Dyn.move_node px py node); [| by rewrite Ht].
  split; [by apply get_put_ne | by rewrite truthy_put].
Qed.

(** Whatever value the store holds as its graph, and wherever a callback
    of [deleteNode] or [updateNodePosition] throws, [graph.files] and the
    dirty files read from it stay as they were. *)
Theorem Dyn_mutations_keep_files
    (delete : Outcome JsVal) (nodeId : string) (px py : JsVal) (graph : JsVal) :
  get "files" (Dyn.deleteNode delete nodeId graph) = get "files" graph
  ∧ get "files" (Dyn.updateNodePosition nodeId px py graph) = get "files" graph
  ∧ Dyn.getDirtyFiles (Dyn.deleteNode delete nodeId graph) = Dyn.getDirtyFiles graph
  ∧ Dyn.getDirtyFiles (Dyn.updateNodePosition nodeId px py graph)
    = Dyn.getDirtyFiles graph.
Proof.
  destruct (Dyn_deleteNode_frame delete nodeId graph) as [Hf1 Ht1].
  destruct (Dyn_updateNodePosition_frame nodeId px py graph) as [Hf2 Ht2].
  split; [done |]. split; [done |].
  split; by apply Dyn_getDirtyFiles_frame.
Qed.

(** ** The API client *)

(** The headers [fetchApi] sends: a header of the caller wins, and
    [Content-Type: application/json] is sent unless the caller gives its
    own. *)
Theorem request_headers (endpoint : string) (options : option Api.Options) (k : string) :
  Api.req_headers (Api.request_of endpoint options) !! k
  = match options ≫= (λ o, Api.headers o !! k) with
    | Some v => Some v
    | None => if decide (k = "Content-Type") then Some "application/json" else None
    end.
Proof.
  unfold Api.request_of. simpl. rewrite lookup_union.
  assert (({[ "Content-Type" := "application/json" ]} : gmap string string) !! k
          = if decide (k = "Content-Type") then Some "application/json" else None)
    as ->.
  { case_decide as Hd.
    - subst k. by rewrite lookup_singleton_eq.
    - by rewrite lookup_singleton_ne. }
  destruct options as [o |]; simpl.
  - destruct (Api.headers o !! k) as [v |]; simpl; by case_decide.
  - rewrite lookup_empty. by case_decide.
Qed.

(** An HTTP error reaches the user unchanged: when the response is not
    [ok], every store action that awaits [fetchApi] puts the response's
    text, or its status text when the body is empty, in [error], never
    its own fallback message. *)
Theorem http_error_reaches_store
    (fetch : Api.Request → Outcome Api.Response) (endpoint : string)
    (options : option Api.Options) (response : Api.Response) (e : Thrown)
    (getGraph : Outcome Graph) (nodeId repo branch path msg : string)
    (updates : list (string * JsVal)) (createPR : bool) (prBranch : option string)
    (st : State) :
  fetch (Api.request_of endpoint options) = inr response →
  Api.ok response = false →
  Api.fetchApi fetch endpoint options = inl e →
  let shown := Some (if decide (Api.text response = EmptyString)
                     then Api.statusText response else Api.text response) in
  error (loadGraph (inl e) st) = shown
  ∧ error (loadFromGitHub (inl e) repo branch path st) = shown
  ∧ error (updateNode (inl e) nodeId updates st) = shown
  ∧ error (deleteNode (inl e) nodeId st) = shown
  ∧ error (validate (inl e) st) = shown
  ∧ error (applyChanges (inl e) getGraph msg createPR prBranch st).1 = shown.
Proof.
  intros Hf Hok He.
  rewrite (fetchApi_not_ok _ _ _ _ Hf Hok) in He. injection He as <-.
  repeat split.
Qed.

Lemma http_error_reaches_store_witness :
  error (deleteNode (inl (ErrorObj "node already exists")) "n" sample_state)
  = Some "node already exists".
Proof.
  pose proof (http_error_reaches_store (λ _, inr conflict_response) "/nodes/n" None
                conflict_response (ErrorObj "node already exists")
                (inr sample_graph) "n" "r" "b" "p" "m" [] true None sample_state
                eq_refl eq_refl eq_refl) as (_ & _ & _ & H & _).
  exact H.
Defined.

(** ** Editing and saving *)

Lemma build_updates_same_fields node localNode :
  (∀ f, PropertyEditor.field_value f localNode = PropertyEditor.field_value f node) →
  PropertyEditor.build_updates node localNode = [].
Proof.
  intros Hsame.
  destruct (PropertyEditor.build_updates node localNode) as [| [k v] rest] eqn:Hb;
    [done |].
  assert ((k, v) ∈ PropertyEditor.build_updates node localNode) as Hin
      by (rewrite Hb; left).
  apply build_updates_entry in Hin as (f & _ & _ & Hsent).
  apply sent_differs in Hsent. by destruct (Hsent (Hsame f)).
Qed.

(** Saving a node whose fields were not edited sends nothing and only
    closes the editor. *)
Theorem handleSave_unedited (node localNode : GraphNode) :
  (∀ f, PropertyEditor.field_value f localNode = PropertyEditor.field_value f node) →
  PropertyEditor.handleSave node localNode = [PropertyEditor.CallOnClose].
Proof.
  intros Hsame. rewrite handleSave_calls.
  by rewrite build_updates_same_fields.
Qed.

Lemma handleSave_unedited_witness :
  PropertyEditor.handleSave sample_service sample_service
  = [PropertyEditor.CallOnClose].
Proof. apply (handleSave_unedited sample_service sample_service). done. Defined.

Lemma sublist_if_singleton {A} (c : Prop) `{Decision c} (x : A) (l : list A) :
  (if decide c then [x] else []) `sublist_of` [x].
Proof. case_decide; [done | apply sublist_nil_l]. Qed.

(** The keys of the patch [handleSave] builds come in the order of its
    [if] statements, each at most once. *)
Theorem build_updates_keys_in_order (node localNode : GraphNode) :
  PropertyEditor.Object_keys (PropertyEditor.build_updates node localNode)
    `sublist_of` ["name"; "namespace"; "labels"; "replicas"; "serviceType";
                  "selector"; "containers"; "ports"]
  ∧ NoDup (PropertyEditor.Object_keys (PropertyEditor.build_updates node localNode)).
Proof.
  assert (PropertyEditor.Object_keys (PropertyEditor.build_updates node localNode)
            `sublist_of` ["name"; "namespace"; "labels"; "replicas"; "serviceType";
                          "selector"; "containers"; "ports"]) as Hsub.
  { rewrite build_updates_entries. unfold PropertyEditor.Object_keys.
    rewrite !fmap_app.
    change ["name"; "namespace"; "labels"; "replicas"; "serviceType";
            "selector"; "containers"; "ports"]
      with (["name"] ++ ["namespace"] ++ ["labels"] ++ ["replicas"]
            ++ ["serviceType"] ++ ["selector"] ++ ["containers"] ++ ["ports"])%list.
    repeat apply sublist_app;
      repeat case_decide; try done; try apply sublist_nil_l.
    - destruct (node_selector localNode); [| apply sublist_nil_l].
      case_decide; [done | apply sublist_nil_l].
    - destruct (node_containers localNode); [| apply sublist_nil_l].
      case_decide; [done | apply sublist_nil_l].
    - destruct (node_ports localNode); [| apply sublist_nil_l].
      case_decide; [done | apply sublist_nil_l]. }
  split; [exact Hsub |].
  eapply sublist_NoDup; cycle 1; [exact Hsub | compute_done].
Qed.

Lemma record_get_set_eq k v r : Editing.record_get k (Editing.record_set k v r) = Some v.
Proof.
  induction r as [| [k' v'] r IH]; simpl.
  - by rewrite String.eqb_refl.
  - destruct (String.eqb k k') eqn:Hk; simpl; rewrite Hk; [done | exact IH].
Qed.

Lemma record_get_set_ne k k' v r :
  k ≠ k' → Editing.record_get k (Editing.record_set k' v r) = Editing.record_get k r.
Proof.
  intros Hne. induction r as [| [k'' v''] r IH]; simpl.
  - by apply String.eqb_neq in Hne as ->.
  - destruct (String.eqb k' k'') eqn:Hk; simpl.
    + apply String.eqb_eq in Hk as <-. by apply String.eqb_neq in Hne as ->.
    + by rewrite IH.
Qed.

(** Label edits do not add up: the editor spreads the labels of the
    [node] prop, so after editing a second label the first edit is gone
    and the patch carries only the second. *)
Theorem label_edits_do_not_accumulate
    (node localNode : GraphNode) (k1 v1 k2 v2 : string) :
  k1 ≠ k2 →
  let edited := Editing.edit_label node k2 v2 (Editing.edit_label node k1 v1 localNode) in
  edited = Editing.edit_label node k2 v2 localNode
  ∧ Editing.record_get k2 (node_labels edited) = Some v2
  ∧ Editing.record_get k1 (node_labels edited) = Editing.record_get k1 (node_labels node)
  ∧ ∀ v, ("labels", v) ∈ PropertyEditor.build_updates node edited →
         v = PropertyEditor.record_value
               (Editing.record_set k2 v2 (node_labels node)).
Proof.
  intros Hne. simpl. split; [done |].
  split; [apply record_get_set_eq |].
  split; [by apply record_get_set_ne |].
  intros v Hin. apply build_updates_entry in Hin as (f & Hk & Hv & _).
  destruct f; try discriminate Hk. exact Hv.
Qed.

Lemma label_edits_do_not_accumulate_witness :
  Editing.record_get "app"
    (node_labels (Editing.edit_label sample_deployment "tier" "front"
                    (Editing.edit_label sample_deployment "app" "api"
                       sample_deployment)))
  = Some "web".
Proof.
  pose proof (label_edits_do_not_accumulate sample_deployment sample_deployment
                "app" "api" "tier" "front") as H.
  destruct H as (_ & _ & H & _); [discriminate |].
  exact H.
Defined.

(** After one edit of the name, the namespace, the service type or the
    replicas, the patch holds that field alone, and nothing when the
    value typed is the old one. *)
Theorem single_scalar_edit_is_the_patch (node : GraphNode) (v : string)
    (parsed : option Z) :
  PropertyEditor.build_updates node (Editing.handleChange (Editing.SetName v) node)
  = (if decide (v ≠ node_name node) then [("name", JStr v)] else [])
  ∧ PropertyEditor.build_updates node
      (Editing.handleChange (Editing.SetNamespace v) node)
    = (if decide (v ≠ node_namespace node) then [("namespace", JStr v)] else [])
  ∧ PropertyEditor.build_updates node
      (Editing.handleChange (Editing.SetServiceType v) node)
    = (if decide (Some v ≠ node_serviceType node)
       then [("serviceType", JStr v)] else [])
  ∧ PropertyEditor.build_updates node (Editing.edit_replicas parsed node)
    = (if decide (Some (Editing.parsed_or_one parsed) ≠ node_replicas node)
       then [("replicas", JNum (Editing.parsed_or_one parsed))] else [])
  ∧ Editing.parsed_or_one parsed ≠ 0%Z.
Proof.
  assert (∀ (sel : option (list (string * string))),
            match sel with
            | Some s =>
                if decide (JSON_stringify (Some (PropertyEditor.record_value s))
                           ≠ JSON_stringify (PropertyEditor.record_value <$> sel))
                then [("selector", PropertyEditor.record_value s)] else []
            | None => []
            end = []) as Hsel.
  { intros [s |]; [| done]. case_decide as Hd; [exfalso; by apply Hd | done]. }
  assert (∀ (k : string) (arr : option (list JsVal)),
            match arr with
            | Some a =>
                if decide (JSON_stringify (Some (JArr a)) ≠ JSON_stringify (JArr <$> arr))
                then [(k, JArr a)] else []
            | None => []
            end = []) as Harr.
  { intros k [a |]; [| done]. case_decide as Hd; [exfalso; by apply Hd | done]. }
  assert (∀ (A : Type) (a : A) (H : Decision (a ≠ a)) (B : Type) (x y : B),
            (if @decide (a ≠ a) H then x else y) = y) as Hrefl.
  { intros A a H B x y. destruct H as [Hd | Hd]; [by destruct Hd | done]. }
  repeat split.
  - rewrite build_updates_entries. simpl.
    rewrite Hsel, !Harr, !Hrefl. by case_decide.
  - rewrite build_updates_entries. simpl.
    rewrite Hsel, !Harr, !Hrefl. by case_decide.
  - rewrite build_updates_entries. simpl.
    rewrite Hsel, !Harr, !Hrefl. by case_decide.
  - rewrite build_updates_entries. simpl.
    rewrite Hsel, !Harr, !Hrefl. by case_decide.
  - unfold Editing.parsed_or_one. destruct parsed as [z |]; [| done].
    destruct (z =? 0)%Z eqn:Hz; [done | by apply Z.eqb_neq].
Qed.

Lemma edit_element_keeps_copy e s :
  Editing.local_container_refs s = Editing.node_container_refs s →
  Editing.local_port_refs s = Editing.node_port_refs s →
  Editing.localNode s = Editing.node s →
  let s' := Editing.edit_element e s in
  Editing.local_container_refs s' = Editing.node_container_refs s'
  ∧ Editing.local_port_refs s' = Editing.node_port_refs s'
  ∧ Editing.localNode s' = Editing.node s'.
Proof.
  intros Hc Hp Hn. destruct e as [idx prop value | idx prop value]; simpl.
  - unfold Editing.assign_element.
    destruct (Editing.node_container_refs s) as [refs |] eqn:Hrefs; simpl.
    + destruct (refs !! idx); simpl; repeat split; congruence.
    + repeat split; congruence.
  - unfold Editing.assign_element.
    destruct (Editing.node_port_refs s) as [refs |] eqn:Hrefs; simpl.
    + destruct (refs !! idx); simpl; repeat split; congruence.
    + repeat split; congruence.
Qed.

Lemma edits_keep_copy edits s :
  Editing.local_container_refs s = Editing.node_container_refs s →
  Editing.local_port_refs s = Editing.node_port_refs s →
  Editing.localNode s = Editing.node s →
  let s' := foldl (λ s e, Editing.edit_element e s) s edits in
  Editing.local_container_refs s' = Editing.node_container_refs s'
  ∧ Editing.local_port_refs s' = Editing.node_port_refs s'
  ∧ Editing.localNode s' = Editing.node s'.
Proof.
  revert s. induction edits as [| e edits IH]; intros s Hc Hp Hn; [done |].
  simpl. destruct (edit_element_keeps_copy e s Hc Hp Hn) as (Hc' & Hp' & Hn').
  by apply IH.
Qed.

(** Edits of a container or a port are never sent: the editor assigns
    into the element objects it shares with the store's node, so the
    copy and the node stay equal and [handleSave] only closes the editor,
    while the store's node already shows the new value. *)
Theorem element_edits_are_never_sent
    (h : gmap nat (list (string * JsVal))) (n : GraphNode)
    (containers ports : option (list nat)) (edits : list Editing.ElementEdit) :
  let s := foldl (λ s e, Editing.edit_element e s)
             (Editing.open h n containers ports) edits in
  Editing.save s = [PropertyEditor.CallOnClose]
  ∧ ∀ idx prop value refs l,
      Editing.node_container_refs s = Some refs →
      refs !! idx = Some l →
      let s' := Editing.edit_element (Editing.EditContainer idx prop value) s in
      ∃ cs props,
        node_containers (Editing.node_now s') = Some cs
        ∧ cs !! idx = Some (JObj props)
        ∧ lookup_prop prop props = Some value.
Proof.
  destruct (edits_keep_copy edits (Editing.open h n containers ports)
              eq_refl eq_refl eq_refl) as (Hc & Hp & Hn).
  cbv zeta.
  generalize dependent (foldl (λ s e, Editing.edit_element e s)
                          (Editing.open h n containers ports) edits).
  intros s Hc Hp Hn. split.
  - unfold Editing.save. rewrite handleSave_calls, build_updates_same_fields; [done |].
    intros f.
    unfold Editing.localNode_now, Editing.node_now. by rewrite Hc, Hp, Hn.
  - intros idx prop value refs l Hrefs Hl.
    unfold Editing.edit_element, Editing.assign_element.
    rewrite Hrefs. cbn [from_option id]. rewrite Hl.
    unfold Editing.node_now. cbn [Editing.heap Editing.node_container_refs
      Editing.node_port_refs Editing.node Editing.with_arrays node_containers].
    cbn [fmap option_fmap option_map].
    eexists _, _. split; [done |]. split.
    + unfold Editing.deref. rewrite list_lookup_fmap, Hl. cbn [fmap option_fmap option_map].
      by rewrite lookup_insert_eq.
    + apply lookup_prop_assign_eq.
Qed.

(** ** Choosing a repository *)

(** [handleRepoSelect] always records the repository and ends with
    [loading] false; it takes the first branch of a non-empty answer and
    otherwise keeps the branch chosen before. *)
Theorem handleRepoSelect_branch
    (response : Outcome (option (list string))) (repoFullName : string)
    (ui : GitHubModal.Ui) :
  let ui' := GitHubModal.handleRepoSelect response repoFullName ui in
  GitHubModal.selectedRepoState ui' = repoFullName
  ∧ GitHubModal.loading ui' = false
  ∧ (∀ b bs, response = inr (Some (b :: bs)) →
             GitHubModal.branch ui' = b ∧ GitHubModal.branches ui' = Some (b :: bs))
  ∧ ((∀ b bs, response ≠ inr (Some (b :: bs))) →
     GitHubModal.branch ui' = GitHubModal.branch ui)
  ∧ (∀ e, response = inl e → GitHubModal.branches ui' = GitHubModal.branches ui).
Proof.
  destruct response as [e | [[| b bs] |]]; simpl;
    (split; [done |]); (split; [done |]);
    (split; [by intros b' bs' [= -> ->] || by intros b' bs' [=] |]);
    (split; [| by intros e' [=] || by intros e' _]); try done.
  intros Hno. by destruct (Hno b bs).
Qed.

(** The Load button is disabled exactly when [handleLoad] would do
    nothing, and a load is only ever asked for a non-empty repository
    and branch, with the empty path. *)
Theorem handleLoad_guard (ui : GitHubModal.Ui) :
  (GitHubModal.load_button_disabled ui = true ↔ GitHubModal.handleLoad ui = [])
  ∧ (GitHubModal.load_button_disabled ui = false ↔
     GitHubModal.handleLoad ui
     = [GitHubModal.CallLoadFromGitHub (GitHubModal.selectedRepoState ui)
          (GitHubModal.branch ui) EmptyString;
        GitHubModal.CallOnClose])
  ∧ (∀ repo b p, GitHubModal.CallLoadFromGitHub repo b p ∈ GitHubModal.handleLoad ui →
       repo ≠ EmptyString ∧ b ≠ EmptyString ∧ p = EmptyString).
Proof.
  unfold GitHubModal.load_button_disabled, GitHubModal.handleLoad.
  destruct (GitHubModal.selectedRepoState ui) as [| c r] eqn:Hr,
           (GitHubModal.branch ui) as [| d b] eqn:Hb; simpl;
    (split; [| split]); try done.
  all: try (intros repo b' p Hin; by apply elem_of_nil in Hin).
  intros repo b' p Hin.
  apply elem_of_cons in Hin as [[= -> -> ->] | Hin]; [done |].
  apply list_elem_of_singleton in Hin. discriminate Hin.
Qed.

(** When the branches of a newly selected repository cannot be fetched,
    the branch and the branch list of the repository selected before
    stay, and Load asks for that branch of the new repository. *)
Theorem stale_branch_is_loaded
    (e : Thrown) (repoA repoB b : string) (bs : list string) (ui : GitHubModal.Ui) :
  repoB ≠ EmptyString →
  b ≠ EmptyString →
  let ui1 := GitHubModal.handleRepoSelect (inr (Some (b :: bs))) repoA ui in
  let ui2 := GitHubModal.handleRepoSelect (inl e) repoB ui1 in
  GitHubModal.branches ui2 = Some (b :: bs)
  ∧ GitHubModal.handleLoad ui2
    = [GitHubModal.CallLoadFromGitHub repoB b EmptyString; GitHubModal.CallOnClose].
Proof.
  intros HB Hb. simpl. split; [done |].
  unfold GitHubModal.handleLoad. simpl.
  destruct repoB; [done |]. destruct b; [done |]. done.
Qed.

Lemma stale_branch_is_loaded_witness :
  GitHubModal.handleLoad
    (GitHubModal.handleRepoSelect (inl (ErrorObj "Failed to fetch")) "acme/shop"
       (GitHubModal.handleRepoSelect (inr (Some ["develop"])) "acme/infra"
          GitHubModal.initial_ui))
  = [GitHubModal.CallLoadFromGitHub "acme/shop" "develop" EmptyString;
     GitHubModal.CallOnClose].
Proof.
  pose proof (stale_branch_is_loaded (ErrorObj "Failed to fetch") "acme/infra"
                "acme/shop" "develop" [] GitHubModal.initial_ui) as H.
  destruct H as [_ H]; [discriminate | discriminate |].
  exact H.
Defined.

(** ** The canvas *)

Lemma list_find_is_Some {A} (P : A → Prop) `{∀ x, Decision (P x)} (l : list A) :
  is_Some (list_find P l) ↔ ∃ x, x ∈ l ∧ P x.
Proof.
  split.
  - intros [[i x] Hf]. apply list_find_Some in Hf as (Hi & HP & _).
    exists x. split; [by eapply list_elem_of_lookup_2 | done].
  - intros (x & Hx & HP). by eapply list_find_elem_of.
Qed.

Lemma endpoints_is_Some (ns : list GraphNode) (e : GraphEdge) :
  is_Some (Canvas.endpoints ns e)
  ↔ (∃ a, a ∈ ns ∧ node_id a = edge_from e) ∧ (∃ b, b ∈ ns ∧ node_id b = edge_to e).
Proof.
  unfold Canvas.endpoints.
  destruct (list_find (λ n, node_id n = edge_from e) ns) as [[i a] |] eqn:H1.
  - destruct (list_find (λ n, node_id n = edge_to e) ns) as [[j b] |] eqn:H2.
    + split; [intros _ | by eexists].
      apply list_find_Some in H1 as (Hi & Ha & _).
      apply list_find_Some in H2 as (Hj & Hb & _).
      split; [exists a | exists b]; (split; [by eapply list_elem_of_lookup_2 | done]).
    + split; [by intros [? [=]] |]. intros [_ (b & Hb & Hid)].
      apply list_find_None in H2. rewrite Forall_forall in H2.
      by destruct (H2 b Hb).
  - split; [by intros [? [=]] |]. intros [(a & Ha & Hid) _].
    apply list_find_None in H1. rewrite Forall_forall in H1.
    by destruct (H1 a Ha).
Qed.

(** In a well-formed graph every edge is drawn while no file is
    selected; with a file selected an edge is drawn exactly when both its
    ends lie in that file. *)
Theorem drawn_edges (st : State) (g : Graph) (e : GraphEdge) :
  graph st = Some g →
  graph_wf g →
  e ∈ edges g →
  (Canvas.no_file_selected st = true →
   is_Some (Canvas.endpoints (Canvas.shown_nodes st g) e))
  ∧ (∀ f, selectedFile st = Some f → f ≠ EmptyString →
       (is_Some (Canvas.endpoints (Canvas.shown_nodes st g) e)
        ↔ ∃ a b, a ∈ nodes g ∧ b ∈ nodes g
                 ∧ node_id a = edge_from e ∧ node_id b = edge_to e
                 ∧ node_filePath a = f ∧ node_filePath b = f)).
Proof.
  intros Hg [Hnd Hclosed] He.
  destruct (Hclosed e He) as [Hfrom Hto].
  apply list_elem_of_fmap in Hfrom as (a & Ha & Hain).
  apply list_elem_of_fmap in Hto as (b & Hb & Hbin).
  split.
  - intros Hno. apply endpoints_is_Some. unfold Canvas.shown_nodes.
    split; [exists a | exists b]; (split; [| done]);
      apply list_elem_of_filter; (split; [by left | done]).
  - intros f Hf Hne. rewrite endpoints_is_Some. unfold Canvas.shown_nodes.
    assert (Canvas.no_file_selected st = false) as Hsel.
    { unfold Canvas.no_file_selected. rewrite Hf. by destruct f. }
    split.
    + intros [(a' & Ha' & Hida) (b' & Hb' & Hidb)].
      apply list_elem_of_filter in Ha' as [[Hc | Hc] Ha']; [congruence |].
      apply list_elem_of_filter in Hb' as [[Hd | Hd] Hb']; [congruence |].
      exists a', b'. repeat split; try done; congruence.
    + intros (a' & b' & Ha' & Hb' & Hida & Hidb & Hfa & Hfb).
      split; [exists a' | exists b']; (split; [| done]);
        apply list_elem_of_filter; (split; [right; congruence | done]).
Qed.

Lemma drawn_edges_witness :
  is_Some (Canvas.endpoints (Canvas.shown_nodes sample_state sample_graph)
             {| edge_from := "Service/default/app-svc";
                edge_to := "Deployment/default/app";
                edge_relationType := rel_selector |}).
Proof.
  apply (drawn_edges sample_state sample_graph _ eq_refl sample_graph_wf).
  - by left.
  - reflexivity.
Defined.

(** The particle offset after [n] ticks is [2n mod 100], so it repeats
    every 50 ticks, and for every particle the pulse phase lies in
    [0, 100), the opacity in [0, 1], and a particle is drawn exactly when
    its phase lies strictly between 5 and 95. *)
Theorem particle_offset_cycle (n : nat) :
  Nat.iter n Canvas.tick 0%Z = ((2 * Z.of_nat n) mod 100)%Z
  ∧ Nat.iter (n + 50) Canvas.tick 0%Z = Nat.iter n Canvas.tick 0%Z
  ∧ ∀ p s : Z, (0 ≤ p)%Z → (0 ≤ s)%Z →
      let pulse := Canvas.pulsePhase (Nat.iter n Canvas.tick 0%Z) p s in
      (0 ≤ pulse < 100)%Z
      ∧ (0 ≤ Canvas.opacity_fiftieths pulse ≤ 50)%Z
      ∧ (Canvas.particle_drawn pulse = true ↔ (5 < pulse < 95)%Z).
Proof.
  assert (∀ k, Nat.iter k Canvas.tick 0%Z = ((2 * Z.of_nat k) mod 100)%Z) as Hiter.
  { induction k as [| k IH]; [done |].
    rewrite Nat.iter_succ, IH. unfold Canvas.tick.
    rewrite Z.rem_mod_nonneg by (pose proof (Z.mod_pos_bound (2 * Z.of_nat k) 100); lia).
    rewrite Zplus_mod_idemp_l. f_equal. lia. }
  split; [apply Hiter |]. split.
  - rewrite !Hiter.
    replace (2 * Z.of_nat (n + 50))%Z with (2 * Z.of_nat n + 1 * 100)%Z by lia.
    by rewrite Z_mod_plus_full.
  - intros p s Hp Hs. rewrite Hiter.
    pose proof (Z.mod_pos_bound (2 * Z.of_nat n) 100 ltac:(lia)) as Hoff.
    unfold Canvas.pulsePhase. simpl.
    rewrite Z.rem_mod_nonneg by lia.
    pose proof (Z.mod_pos_bound ((2 * Z.of_nat n) mod 100 + p * 10 + s * 20) 100
                  ltac:(lia)) as Hpulse.
    split; [done |].
    unfold Canvas.particle_drawn, Canvas.opacity_fiftieths.
    destruct (Z.ltb_spec (((2 * Z.of_nat n) mod 100 + p * 10 + s * 20) mod 100) 50).
    + split; [lia |]. rewrite Z.ltb_lt. lia.
    + split; [lia |]. rewrite Z.ltb_lt. lia.
Qed.

(** ** The file tree *)

(** Toggling a folder twice restores the set of expanded folders, one
    toggle flips the folder's membership, and no other folder is
    touched. *)
Theorem toggleFolder_involutive (path other : string) (expandedFolders : gset string) :
  FileTree.toggleFolder path (FileTree.toggleFolder path expandedFolders)
  = expandedFolders
  ∧ (path ∈ FileTree.toggleFolder path expandedFolders ↔ path ∉ expandedFolders)
  ∧ (other ≠ path →
     (other ∈ FileTree.toggleFolder path expandedFolders ↔ other ∈ expandedFolders)).
Proof.
  unfold FileTree.toggleFolder.
  destruct (decide (path ∈ expandedFolders)) as [Hin | Hout].
  - rewrite decide_False.
    2:{ rewrite elem_of_difference, elem_of_singleton. tauto. }
    split; [| split].
    + apply set_eq. intros x.
      rewrite elem_of_union, elem_of_difference, elem_of_singleton.
      destruct (decide (x = path)) as [-> | Hne]; tauto.
    + rewrite elem_of_difference, elem_of_singleton. tauto.
    + intros Hne. rewrite elem_of_difference, elem_of_singleton. tauto.
  - rewrite decide_True.
    2:{ rewrite elem_of_union, elem_of_singleton. tauto. }
    split; [| split].
    + apply set_eq. intros x.
      rewrite elem_of_difference, elem_of_union, elem_of_singleton.
      destruct (decide (x = path)) as [-> | Hne]; tauto.
    + rewrite elem_of_union, elem_of_singleton. tauto.
    + intros Hne. rewrite elem_of_union, elem_of_singleton. tauto.
Qed.

Lemma append_nil_l (b : string) : EmptyString +:+ b = b.
Proof. reflexivity. Qed.

Lemma append_cons (x : ascii) (a b : string) :
  String x a +:+ b = String x (a +:+ b).
Proof. reflexivity. Qed.

Lemma append_assoc (a b c : string) : (a +:+ b) +:+ c = a +:+ (b +:+ c).
Proof.
  induction a as [| x a IH]; [done |].
  rewrite !append_cons. by rewrite IH.
Qed.

Lemma length_append (a b : string) :
  String.length (a +:+ b) = (String.length a + String.length b)%nat.
Proof.
  induction a as [| x a IH]; [done |].
  rewrite append_cons. simpl. by rewrite IH.
Qed.

Lemma split_slash_nonempty s : Tree.split_slash s ≠ [].
Proof.
  destruct s as [| c s]; simpl; [done |].
  destruct (Ascii.eqb c "/"); [done |].
  by destruct (Tree.split_slash s).
Qed.

Lemma join_cons sep p q rest :
  join sep (p :: q :: rest) = p +:+ sep +:+ join sep (q :: rest).
Proof. reflexivity. Qed.

(** [split('/')] loses nothing: joining the parts with [/] gives the
    path back. *)
Lemma join_split_slash s : join "/" (Tree.split_slash s) = s.
Proof.
  induction s as [| c s IH]; [done |]. simpl.
  destruct (Ascii.eqb c "/") eqn:Hc.
  - apply Ascii.eqb_eq in Hc as ->.
    destruct (Tree.split_slash s) as [| p ps] eqn:Hs;
      [by destruct (split_slash_nonempty s) |].
    rewrite join_cons, IH. reflexivity.
  - destruct (Tree.split_slash s) as [| p ps] eqn:Hs;
      [by destruct (split_slash_nonempty s) |].
    destruct ps as [| q ps].
    + simpl in *. by rewrite IH.
    + rewrite join_cons. rewrite join_cons in IH.
      rewrite append_cons. by rewrite IH.
Qed.

Lemma join_app (pre rest : list string) :
  pre ≠ [] → rest ≠ [] →
  join "/" (pre ++ rest) = join "/" pre +:+ "/" +:+ join "/" rest.
Proof.
  intros Hpre Hrest. induction pre as [| p pre IH]; [done |].
  destruct pre as [| p' pre].
  - destruct rest as [| r rest]; [done |]. reflexivity.
  - change ((p :: p' :: pre) ++ rest)%list with (p :: p' :: (pre ++ rest))%list.
    rewrite !join_cons.
    change (p' :: (pre ++ rest))%list with ((p' :: pre) ++ rest)%list.
    rewrite IH by done. by rewrite !append_assoc.
Qed.

Lemma join_truthy (parts : list string) :
  parts ≠ [] → EmptyString ∉ parts → truthy_string (join "/" parts) = true.
Proof.
  intros Hne Hclean. destruct parts as [| p parts]; [done |].
  destruct p as [| c p]; [exfalso; apply Hclean; left |].
  by destruct parts.
Qed.

(** The path [forEach] has built after the parts [pre], extended by
    [part]. *)
Lemma currentPath_step (pre : list string) (part : string) :
  EmptyString ∉ pre →
  (if truthy_string (join "/" pre) then join "/" pre +:+ "/" +:+ part else part)
  = join "/" (pre ++ [part]).
Proof.
  intros Hclean. destruct pre as [| p pre]; [done |].
  rewrite join_truthy by done. by rewrite join_app.
Qed.

Lemma above_ne p q : Tree.above p q → p ≠ q.
Proof.
  intros [r ->] Heq. apply (f_equal String.length) in Heq.
  rewrite !length_append in Heq. simpl in Heq. lia.
Qed.

Lemma above_prefix (pre rest : list string) :
  pre ≠ [] → rest ≠ [] → Tree.above (join "/" pre) (join "/" (pre ++ rest)).
Proof. intros Hp Hr. exists (join "/" rest). by apply join_app. Qed.

Lemma tree_inv_add_child files below m c child :
  tree_inv files below m → tree_inv files below (alter (Tree.add_child child) c m).
Proof.
  intros [Ha Hb]. split.
  - intros k n. rewrite lookup_alter. case_decide as Hc.
    + subst k. destruct (m !! c) as [n0 |] eqn:Hn0; [| done].
      simpl. intros [= <-]. destruct (Ha c n0 Hn0) as [Hp Ht].
      split; [done |]. simpl. destruct (Tree.type n0).
      * destruct Ht as (Hch & ? & ? & ?). by rewrite Hch.
      * destruct Ht as [[cs Hcs] ?]. rewrite Hcs. split; [by eexists | done].
    + apply Ha.
  - intros p Hp. destruct (Hb p Hp) as (n & Hn & Ht).
    rewrite lookup_alter. case_decide as Hc.
    + subst p. rewrite Hn. simpl. by eexists.
    + by exists n.
Qed.

Lemma tree_inv_push files below parent child t t' :
  Tree.push parent child t = Some t' →
  tree_inv files below (Tree.map t) → tree_inv files below (Tree.map t').
Proof.
  destruct parent as [| c |]; simpl; intros [= <-]; simpl; [done |].
  apply tree_inv_add_child.
Qed.

Lemma push_lookup parent child t t' k n :
  Tree.push parent child t = Some t' →
  Tree.map t !! k = Some n →
  ∃ n', Tree.map t' !! k = Some n' ∧ Tree.type n' = Tree.type n
        ∧ (is_Some (Tree.children n) → is_Some (Tree.children n')).
Proof.
  destruct parent as [| c |]; simpl; intros [= <-] Hk; simpl.
  - by exists n.
  - rewrite lookup_alter. case_decide as Hc.
    + subst k. rewrite Hk. simpl. eexists. split; [done |]. split; [done |].
      simpl. intros [cs ->]. by eexists.
    + by exists n.
Qed.

Lemma push_total parent child t :
  parent ≠ Tree.NoArray → is_Some (Tree.push parent child t).
Proof. destruct parent; [by eexists | by eexists | done]. Qed.

Lemma tree_inv_insert_dir files below m k nm lv :
  m !! k = None →
  (∃ q, q ∈ below ∧ Tree.above k q) →
  tree_inv files below m →
  tree_inv files below
    (<[k := {| Tree.name := nm; Tree.path := k; Tree.type := Tree.dir;
               Tree.level := lv; Tree.children := Some [] |}]> m).
Proof.
  intros Hk Hq [Ha Hb]. split.
  - intros k' n. rewrite lookup_insert. case_decide as Hc.
    + subst k'. intros [= <-]. simpl. split; [done |]. split; [by eexists | done].
    + apply Ha.
  - intros p Hp. destruct (Hb p Hp) as (n & Hn & Ht).
    exists n. split; [| done]. rewrite lookup_insert_ne; [done |].
    intros ->. congruence.
Qed.

Lemma tree_inv_insert_file files m q nm lv :
  m !! q = None →
  nm = List.last (Tree.split_slash q) EmptyString →
  lv = (length (Tree.split_slash q) - 1)%nat →
  tree_inv files (q :: files) m →
  tree_inv (q :: files) (q :: files)
    (<[q := {| Tree.name := nm; Tree.path := q; Tree.type := Tree.file;
               Tree.level := lv; Tree.children := None |}]> m).
Proof.
  intros Hq -> -> [Ha Hb]. split.
  - intros k n. rewrite lookup_insert. case_decide as Hc.
    + subst k. intros [= <-]. simpl. split; [done |].
      split; [done |]. split; [by left | done].
    + intros Hn. destruct (Ha k n Hn) as [Hp Ht]. split; [done |].
      destruct (Tree.type n); [| done].
      destruct Ht as (? & ? & ? & ?). split; [done |]. split; [by right | done].
  - intros p Hp. apply elem_of_cons in Hp as [-> | Hp].
    + rewrite lookup_insert_eq. by eexists.
    + destruct (Hb p Hp) as (n & Hn & Ht).
      exists n. split; [| done]. rewrite lookup_insert_ne; [done |].
      intros ->. congruence.
Qed.

Lemma last_snoc (pre : list string) (part d : string) :
  List.last (pre ++ [part]) d = part.
Proof. apply last_last. Qed.

(** Adding the parts of one path whose directories are not files and
    which is itself not yet a node. *)
Lemma add_parts_ok (files : list string) (q : string) :
  q ∉ files →
  (∀ p, p ∈ files → ¬ Tree.above p q ∧ ¬ Tree.above q p) →
  ∀ (rest pre : list string) (t : Tree.Built) (parent : Tree.Parent),
    Tree.split_slash q = (pre ++ rest)%list →
    EmptyString ∉ (pre ++ rest)%list →
    rest ≠ [] →
    tree_inv files (q :: files) (Tree.map t) →
    parent ≠ Tree.NoArray →
    ∃ t', Tree.add_parts (length (pre ++ rest)) t (join "/" pre) parent
            (length pre) rest = Some t'
          ∧ tree_inv (q :: files) (q :: files) (Tree.map t').
Proof.
  intros Hfresh Hindep.
  induction rest as [| part rest IH]; intros pre t parent Hsplit Hclean Hne Hinv Hparent;
    [done |].
  assert (EmptyString ∉ pre) as Hpre
      by (intros Hin; apply Hclean, elem_of_app; by left).
  cbn [Tree.add_parts]. unfold Tree.add_part.
  rewrite (currentPath_step pre part Hpre).
  destruct rest as [| r rest].
  - (* the last part: the file itself *)
    assert (join "/" (pre ++ [part]) = q) as Hq
        by (rewrite <- Hsplit; apply join_split_slash).
    rewrite Hq.
    assert (Tree.map t !! q = None) as Hnone.
    { destruct (Tree.map t !! q) as [n |] eqn:Hn; [| done]. exfalso.
      destruct Hinv as [Ha _]. destruct (Ha q n Hn) as [_ Ht].
      destruct (Tree.type n).
      - by destruct Ht as (_ & Hin & _).
      - destruct Ht as [_ (q' & Hq' & Habove)].
        apply elem_of_cons in Hq' as [-> | Hq'].
        + by apply above_ne in Habove.
        + by destruct (Hindep q' Hq') as [_ Hno]. }
    rewrite decide_False by (rewrite Hnone; by intros [? [=]]).
    rewrite length_app. simpl.
    rewrite bool_decide_eq_true_2 by lia.
    destruct (push_total parent q
                {| Tree.root := Tree.root t;
                   Tree.map := <[q := {| Tree.name := part; Tree.path := q;
                                         Tree.type := Tree.file;
                                         Tree.level := length pre;
                                         Tree.children := None |}]> (Tree.map t) |}
                Hparent) as [t1 Ht1].
    rewrite Ht1. rewrite decide_False by lia.
    exists t1. split; [done |].
    eapply tree_inv_push; [exact Ht1 |]. simpl.
    apply tree_inv_insert_file; [done | | | done].
    + rewrite Hsplit. symmetry. apply last_snoc.
    + rewrite Hsplit, length_app. simpl. lia.
  - (* a directory above the file *)
    set (cur := join "/" (pre ++ [part])).
    assert (Tree.above cur q) as Habove.
    { rewrite <- (join_split_slash q), Hsplit.
      replace (pre ++ part :: r :: rest)%list with ((pre ++ [part]) ++ r :: rest)%list
        by (by rewrite <- app_assoc).
      apply above_prefix; [by destruct pre | done]. }
    assert (∀ t1 n1, Tree.map t1 !! cur = Some n1 → is_Some (Tree.children n1) →
                     tree_inv files (q :: files) (Tree.map t1) →
                     ∃ t', Tree.add_parts (length (pre ++ part :: r :: rest)) t1 cur
                             (Tree.ChildrenOf cur) (S (length pre)) (r :: rest)
                           = Some t'
                           ∧ tree_inv (q :: files) (q :: files) (Tree.map t')) as Hnext.
    { intros t1 n1 Hn1 Hch Hinv1.
      assert ((pre ++ part :: r :: rest)%list = ((pre ++ [part]) ++ r :: rest)%list)
        as Hassoc by (by rewrite <- app_assoc).
      replace (S (length pre)) with (length (pre ++ [part]))
        by (rewrite length_app; simpl; lia).
      rewrite Hassoc.
      apply IH; try done; by rewrite <- Hassoc. }
    assert (length pre < length (pre ++ part :: r :: rest) - 1)%nat as Hlt
        by (rewrite length_app; simpl; lia).
    destruct (Tree.map t !! cur) as [n |] eqn:Hn.
    + rewrite decide_True by (by eexists).
      rewrite decide_True by done.
      unfold Tree.children_array. rewrite Hn.
      assert (is_Some (Tree.children n)) as Hch.
      { destruct Hinv as [Ha _]. destruct (Ha cur n Hn) as [_ Ht].
        destruct (Tree.type n); [| by destruct Ht].
        destruct Ht as (_ & Hin & _).
        by destruct (Hindep cur Hin) as [Hno _]. }
      destruct Hch as [cs Hcs]. rewrite Hcs.
      apply (Hnext t n Hn); [by eexists | done].
    + rewrite decide_False by (by intros [? [=]]).
      rewrite bool_decide_eq_false_2 by lia.
      set (node := {| Tree.name := part; Tree.path := cur; Tree.type := Tree.dir;
                      Tree.level := length pre; Tree.children := Some [] |}).
      destruct (push_total parent cur
                  {| Tree.root := Tree.root t;
                     Tree.map := <[cur := node]> (Tree.map t) |} Hparent)
        as [t1 Ht1].
      rewrite Ht1. rewrite decide_True by done.
      destruct (push_lookup parent cur _ t1 cur node Ht1) as (n1 & Hn1 & _ & Hch1).
      { simpl. apply lookup_insert_eq. }
      unfold Tree.children_array. rewrite Hn1.
      destruct (Hch1 ltac:(by eexists)) as [cs Hcs]. rewrite Hcs.
      apply (Hnext t1 n1 Hn1); [by eexists |].
      eapply tree_inv_push; [exact Ht1 |]. simpl.
      apply tree_inv_insert_dir; [done | | done].
      exists q. split; [by left | done].
Qed.

Lemma tree_inv_below files below below' m :
  (∀ q, q ∈ below → q ∈ below') → tree_inv files below m → tree_inv files below' m.
Proof.
  intros Hsub [Ha Hb]. split; [| done].
  intros k n Hn. destruct (Ha k n Hn) as [Hp Ht]. split; [done |].
  destruct (Tree.type n); [done |].
  destruct Ht as [Hch (q & Hq & Habove)]. split; [done |]. exists q. auto.
Qed.

Lemma add_file_ok (files : list string) (q : string) (t : Tree.Built) :
  Tree.clean q →
  q ∉ files →
  (∀ p, p ∈ files → ¬ Tree.above p q ∧ ¬ Tree.above q p) →
  tree_inv files files (Tree.map t) →
  ∃ t', Tree.add_file t q = Some t'
        ∧ tree_inv (q :: files) (q :: files) (Tree.map t').
Proof.
  intros Hclean Hfresh Hindep Hinv. unfold Tree.add_file.
  apply (add_parts_ok files q Hfresh Hindep (Tree.split_slash q) [] t Tree.RootArray);
    try done.
  - apply split_slash_nonempty.
  - eapply tree_inv_below; [| exact Hinv]. intros p Hp. by right.
Qed.

Lemma add_files_ok (paths files : list string) (t : Tree.Built) :
  NoDup (paths ++ files)%list →
  (∀ p, p ∈ paths → Tree.clean p) →
  (∀ a b, a ∈ (paths ++ files)%list → b ∈ (paths ++ files)%list → ¬ Tree.above a b) →
  tree_inv files files (Tree.map t) →
  ∃ t' files', Tree.add_files t paths = Some t'
               ∧ tree_inv files' files' (Tree.map t')
               ∧ ∀ x, x ∈ files' ↔ x ∈ paths ∨ x ∈ files.
Proof.
  revert files t. induction paths as [| q paths IH]; intros files t Hnd Hclean Hindep Hinv.
  - exists t, files. split; [done |]. split; [done |].
    intros x. split; [by right | intros [?%elem_of_nil | ?]; done].
  - simpl in Hnd. apply NoDup_cons in Hnd as [Hq Hnd].
    destruct (add_file_ok files q t) as (t1 & Ht1 & Hinv1).
    + apply Hclean. by left.
    + intros Hin. apply Hq, elem_of_app. by right.
    + intros p Hp. split; apply Hindep.
      * right. apply elem_of_app. by right.
      * by left.
      * by left.
      * right. apply elem_of_app. by right.
    + done.
    + cbn [Tree.add_files]. rewrite Ht1.
      destruct (IH (q :: files) t1) as (t' & files' & Ht' & Hinv' & Hmem).
      * apply NoDup_app. apply NoDup_app in Hnd as (Hp & Hdisj & Hf).
        split; [done |]. split.
        -- intros x Hx Hin. apply elem_of_cons in Hin as [-> | Hin].
           ++ apply Hq, elem_of_app. by left.
           ++ by apply (Hdisj x).
        -- apply NoDup_cons. split; [| done].
           intros Hin. apply Hq, elem_of_app. by right.
      * intros p Hp. apply Hclean. by right.
      * intros a b Ha Hb. apply Hindep.
        -- apply elem_of_app in Ha as [Ha | Ha].
           ++ right. apply elem_of_app. by left.
           ++ apply elem_of_cons in Ha as [-> | Ha]; [by left |].
              right. apply elem_of_app. by right.
        -- apply elem_of_app in Hb as [Hb | Hb].
           ++ right. apply elem_of_app. by left.
           ++ apply elem_of_cons in Hb as [-> | Hb]; [by left |].
              right. apply elem_of_app. by right.
      * done.
      * exists t', files'. split; [done |]. split; [done |].
        intros x. rewrite Hmem, !elem_of_cons. tauto.
Qed.

Lemma elem_of_sorted_paths (g : Graph) (p : string) :
  p ∈ Tree.sorted_paths g ↔ is_Some (files g !! p).
Proof.
  unfold Tree.sorted_paths. rewrite merge_sort_Permutation.
  rewrite list_elem_of_fmap. split.
  - intros ([k f] & -> & Hin). apply elem_of_map_to_list in Hin. by eexists.
  - intros [f Hf]. exists (p, f). split; [done |]. by apply elem_of_map_to_list.
Qed.

Lemma reachable_grows (t t' : Tree.Built) (k : string) :
  grows t t' → reachable t k → reachable t' k.
Proof.
  intros [Hroot Hch] Hk. induction Hk as [k Hk | p n cs k _ IH Hn Hcs Hk].
  - apply reach_root. by apply Hroot.
  - destruct (Hch p n cs Hn Hcs) as (n' & cs' & Hn' & Hcs' & Hsub).
    eapply reach_child; [exact IH | exact Hn' | exact Hcs' | by apply Hsub].
Qed.

Lemma grows_refl (t : Tree.Built) : grows t t.
Proof. split; [done |]. intros p n cs Hn Hcs. by exists n, cs. Qed.

Lemma parent_ok_grows (t t' : Tree.Built) (parent : Tree.Parent) :
  grows t t' → parent_ok t parent → parent_ok t' parent.
Proof.
  intros [_ Hch]. destruct parent as [| p |]; try done.
  intros (n & Hn & [cs Hcs]). destruct (Hch p n cs Hn Hcs) as (n' & cs' & Hn' & Hcs' & _).
  exists n'. split; [done |]. by exists cs'.
Qed.

Lemma children_array_ok (t : Tree.Built) (p : string) (parent : Tree.Parent) :
  Tree.children_array t p = Some parent → parent_ok t parent.
Proof.
  unfold Tree.children_array. destruct (Tree.map t !! p) as [n |] eqn:Hn; [| done].
  destruct (Tree.children n) as [cs |] eqn:Hcs; intros [= <-]; [| done].
  exists n. split; [done |]. by exists cs.
Qed.

Lemma push_reachable (t t' : Tree.Built) (parent : Tree.Parent) (k : string)
    (node : Tree.TreeNode) :
  Tree.map t !! k = None →
  all_reachable t → parent_ok t parent →
  Tree.push parent k {| Tree.root := Tree.root t; Tree.map := <[k := node]> (Tree.map t) |}
    = Some t' →
  grows t t' ∧ all_reachable t' ∧ is_Some (Tree.map t' !! k)
  ∧ (Tree.children node = Some [] → ∃ n, Tree.map t' !! k = Some n ∧ is_Some (Tree.children n)).
Proof.
  intros Hfresh Hall Hpar Hpush.
  destruct parent as [| p |]; simpl in Hpush; [| | done].
  - injection Hpush as <-.
    assert (grows t {| Tree.root := (Tree.root t ++ [k])%list;
                       Tree.map := <[k := node]> (Tree.map t) |}) as Hg.
    { split; simpl.
      - intros x Hx. apply elem_of_app. by left.
      - intros q n cs Hn Hcs. exists n, cs. split; [| done].
        rewrite lookup_insert_ne; [done |]. intros ->. congruence. }
    split; [done |]. split; [| split].
    + intros x Hx. simpl in Hx. destruct (decide (x = k)) as [-> | Hne].
      * apply reach_root. simpl. apply elem_of_app. right. by left.
      * rewrite lookup_insert_ne in Hx by done.
        eapply reachable_grows; [exact Hg | by apply Hall].
    + simpl. rewrite lookup_insert_eq. by eexists.
    + intros Hc. exists node. simpl. rewrite lookup_insert_eq. split; [done |].
      rewrite Hc. by eexists.
  - injection Hpush as <-.
    destruct Hpar as (pn & Hpn & [pcs Hpcs]).
    assert (p ≠ k) as Hpk by (intros ->; congruence).
    assert (grows t {| Tree.root := Tree.root t;
                       Tree.map := alter (Tree.add_child k) p (<[k := node]> (Tree.map t)) |})
      as Hg.
    { split; simpl; [done |].
      intros q n cs Hn Hcs. destruct (decide (q = p)) as [-> | Hqp].
      - exists (Tree.add_child k n), (cs ++ [k])%list.
        rewrite lookup_alter_eq, lookup_insert_ne by done. rewrite Hn.
        split; [done |]. split; [by simpl; rewrite Hcs |].
        intros x Hx. apply elem_of_app. by left.
      - exists n, cs. rewrite lookup_alter_ne by done.
        rewrite lookup_insert_ne; [done |]. intros ->. congruence. }
    split; [done |]. split; [| split].
    + intros x Hx. simpl in Hx. destruct (decide (x = k)) as [-> | Hne].
      * eapply (reach_child _ p (Tree.add_child k pn) (pcs ++ [k])%list).
        -- eapply reachable_grows; [exact Hg |]. apply Hall. by eexists.
        -- simpl. rewrite lookup_alter_eq, lookup_insert_ne by done. by rewrite Hpn.
        -- simpl. by rewrite Hpcs.
        -- apply elem_of_app. right. by left.
      * eapply reachable_grows; [exact Hg |]. apply Hall.
        destruct (decide (x = p)) as [-> | Hxp]; [by eexists |].
        rewrite lookup_alter_ne, lookup_insert_ne in Hx by done. done.
    + simpl. rewrite lookup_alter_ne, lookup_insert_eq by done. by eexists.
    + intros Hc. exists node. simpl.
      rewrite lookup_alter_ne, lookup_insert_eq by done. split; [done |].
      rewrite Hc. by eexists.
Qed.

Lemma add_part_reachable (count : nat) (t t' : Tree.Built) (cur cur' : string)
    (parent parent' : Tree.Parent) (index : nat) (part : string) :
  all_reachable t → parent_ok t parent →
  Tree.add_part count t cur parent index part = Some (t', cur', parent') →
  all_reachable t' ∧ parent_ok t' parent'.
Proof.
  intros Hall Hpar. unfold Tree.add_part.
  set (c := if truthy_string cur then _ else _).
  destruct (decide (is_Some (Tree.map t !! c))) as [Hin | Hout].
  - destruct (decide (index < count - 1)%nat).
    + destruct (Tree.children_array t c) as [par |] eqn:Hca; [| done].
      intros [= <- <- <-]. split; [done |]. by eapply children_array_ok.
    + by intros [= <- <- <-].
  - match goal with |- context [Tree.push parent c ?b] => destruct (Tree.push parent c b) as [t1 |] eqn:Hpush end; [| done].
    apply eq_None_not_Some in Hout.
    destruct (push_reachable t t1 parent c _ Hout Hall Hpar Hpush) as (Hg & Hall1 & _ & _).
    destruct (decide (index < count - 1)%nat).
    + destruct (Tree.children_array t1 c) as [par |] eqn:Hca; [| done].
      intros [= <- <- <-]. split; [done |]. by eapply children_array_ok.
    + intros [= <- <- <-]. split; [done |]. by eapply parent_ok_grows.
Qed.

Lemma add_parts_reachable (count : nat) (parts : list string) :
  ∀ (t t' : Tree.Built) (cur : string) (parent : Tree.Parent) (index : nat),
    all_reachable t → parent_ok t parent →
    Tree.add_parts count t cur parent index parts = Some t' →
    all_reachable t'.
Proof.
  induction parts as [| part rest IH]; intros t t' cur parent index Hall Hpar; simpl.
  - by intros [= <-].
  - destruct (Tree.add_part count t cur parent index part) as [[[t1 cur1] parent1] |] eqn:Hstep;
      [| done].
    destruct (add_part_reachable _ _ _ _ _ _ _ _ _ Hall Hpar Hstep) as [Hall1 Hpar1].
    by apply IH.
Qed.

Lemma add_files_reachable (paths : list string) :
  ∀ t t', all_reachable t → Tree.add_files t paths = Some t' → all_reachable t'.
Proof.
  induction paths as [| p rest IH]; intros t t' Hall; simpl.
  - by intros [= <-].
  - destruct (Tree.add_file t p) as [t1 |] eqn:Hfile; [| done].
    apply IH. unfold Tree.add_file in Hfile.
    by eapply add_parts_reachable; [exact Hall | | exact Hfile].
Qed.

(** When no path has an empty segment and no path names a directory of
    another, [buildTree] returns, every file of the graph has a file node
    under its path, carrying its last segment as name, its depth as level
    and the file's dirty flag, that [renderNode] can reach from the root
    array; and the tree holds nothing but the files and the directories
    above them. *)
Theorem buildTree_files (g : Graph) :
  (∀ p, is_Some (files g !! p) → Tree.clean p) →
  (∀ p q, is_Some (files g !! p) → is_Some (files g !! q) → ¬ Tree.above p q) →
  ∃ t, Tree.buildTree g = Some t
       ∧ (∀ p f, files g !! p = Some f →
            ∃ n, Tree.map t !! p = Some n
                 ∧ Tree.type n = Tree.file
                 ∧ Tree.path n = p
                 ∧ Tree.name n = List.last (Tree.split_slash p) EmptyString
                 ∧ Tree.level n = (length (Tree.split_slash p) - 1)%nat
                 ∧ Tree.children n = None
                 ∧ Tree.isDirty g n = file_dirty f
                 ∧ reachable t p)
       ∧ (∀ k n, Tree.map t !! k = Some n →
            match Tree.type n with
            | Tree.file => is_Some (files g !! k)
            | Tree.dir => ∃ q, is_Some (files g !! q) ∧ Tree.above k q
            end).
Proof.
  intros Hclean Hindep.
  assert (∀ t, Tree.buildTree g = Some t → all_reachable t) as Hreach.
  { intros t Ht. eapply add_files_reachable; [| exact Ht].
    intros k Hk. simpl in Hk. rewrite lookup_empty in Hk. by destruct Hk. }
  unfold Tree.buildTree in *.
  destruct (add_files_ok (Tree.sorted_paths g) [] {| Tree.root := []; Tree.map := ∅ |})
    as (t & files' & Ht & [Ha Hb] & Hmem).
  - rewrite app_nil_r. unfold Tree.sorted_paths.
    rewrite merge_sort_Permutation. apply NoDup_fst_map_to_list.
  - intros p Hp. by apply Hclean, elem_of_sorted_paths.
  - intros a b. rewrite !app_nil_r, !elem_of_sorted_paths. apply Hindep.
  - split; [intros k n Hn; simpl in Hn; by rewrite lookup_empty in Hn | by intros p ?%elem_of_nil].
  - assert (∀ x, x ∈ files' ↔ is_Some (files g !! x)) as Hfiles.
    { intros x. rewrite Hmem, elem_of_sorted_paths. split; [| by left].
      by intros [? | ?%elem_of_nil]. }
    exists t. split; [done |]. split.
    + intros p f Hf.
      destruct (Hb p) as (n & Hn & Ht'); [apply Hfiles; by eexists |].
      exists n. destruct (Ha p n Hn) as [Hp Hn']. rewrite Ht' in Hn'.
      destruct Hn' as (Hch & _ & Hname & Hlevel).
      repeat split; try done.
      * unfold Tree.isDirty. by rewrite Hp, Hf.
      * apply (Hreach t Ht). by eexists.
    + intros k n Hn. destruct (Ha k n Hn) as [_ Hn'].
      destruct (Tree.type n).
      * destruct Hn' as (_ & Hin & _). by apply Hfiles.
      * destruct Hn' as [_ (q & Hq & Habove)]. exists q. split; [by apply Hfiles | done].
Qed.

Lemma sample_graph_paths (p : string) :
  is_Some (files sample_graph !! p) → p = "k8s/app.yaml" ∨ p = "k8s/other.yaml".
Proof.
  simpl. intros [f Hf].
  destruct (decide (p = "k8s/app.yaml")) as [-> | Hne]; [by left |].
  rewrite lookup_insert_ne in Hf by done.
  apply lookup_singleton_Some in Hf as [<- _]. by right.
Qed.

Lemma buildTree_files_witness :
  ∃ t, Tree.buildTree sample_graph = Some t
       ∧ (∀ p f, files sample_graph !! p = Some f →
            ∃ n, Tree.map t !! p = Some n
                 ∧ Tree.type n = Tree.file
                 ∧ Tree.path n = p
                 ∧ Tree.name n = List.last (Tree.split_slash p) EmptyString
                 ∧ Tree.level n = (length (Tree.split_slash p) - 1)%nat
                 ∧ Tree.children n = None
                 ∧ Tree.isDirty sample_graph n = file_dirty f
                 ∧ reachable t p)
       ∧ (∀ k n, Tree.map t !! k = Some n →
            match Tree.type n with
            | Tree.file => is_Some (files sample_graph !! k)
            | Tree.dir => ∃ q, is_Some (files sample_graph !! q) ∧ Tree.above k q
            end).
Proof.
  apply (buildTree_files sample_graph).
  - intros p [-> | ->]%sample_graph_paths; unfold Tree.clean; vm_compute;
      intros H; repeat (apply elem_of_cons in H as [H | H]; [discriminate H |]);
      by apply elem_of_nil in H.
  - intros p q [-> | ->]%sample_graph_paths [-> | ->]%sample_graph_paths [r Hr];
      cbv in Hr; discriminate Hr.
Defined.
